(** * Long-Document-Summarizer: the helpers of [src/utils/helpers.py]

    A shallow embedding of the batching dataset, the evaluator and the
    training loop, and the properties their specification states.

    Conventions of the embedding:
    - a Python [str] is a [string] whose characters are code points
      below 256;
    - a Python [int] is a [Z]; a length or an index that the code only
      uses when it is non-negative is a [nat];
    - a one-dimensional numpy array of dtype [object] is a [list] of
      [slot]s, a slot being the integer 0 that [np.zeros] writes or a
      stored object;
    - a two-dimensional integer tensor is a [list (list Z)];
    - a [BatchEncoding] (a dict from field names to tensors) is a
      [gmap string tensor];
    - a raised exception is a value of [pyexc], and fallible code
      returns a [result]. *)

From Stdlib Require Import ZArith QArith Qround Ascii String List Lia.
From stdpp Require Import base option list gmap strings pretty.

Set Warnings "-notation-for-abbreviation".
Local Open Scope Z_scope.

(** ** Python values and exceptions *)

Record pyexc := PyExc {
  exc_type : string;        (* the name of the class of the exception *)
  exc_str : string;         (* [str(e)] *)
  exc_is_Exception : bool   (* [isinstance(e, Exception)] *)
}.

Definition ZeroDivisionError : pyexc :=
  PyExc "ZeroDivisionError" "integer division or modulo by zero" true.
Definition ValueError (msg : string) : pyexc := PyExc "ValueError" msg true.
Definition TypeError (msg : string) : pyexc := PyExc "TypeError" msg true.
Definition IndexError (msg : string) : pyexc := PyExc "IndexError" msg true.
Definition KeyError (msg : string) : pyexc := PyExc "KeyError" msg true.
Definition RuntimeError (msg : string) : pyexc := PyExc "RuntimeError" msg true.
Definition StopIteration : pyexc := PyExc "StopIteration" "" true.
(* The classes below derive from [BaseException] but not from [Exception]. *)
Definition KeyboardInterrupt : pyexc := PyExc "KeyboardInterrupt" "" false.
Definition SystemExit (msg : string) : pyexc := PyExc "SystemExit" msg false.

Definition is_StopIteration (e : pyexc) : bool :=
  bool_decide (exc_type e = "StopIteration").

Inductive result (A : Type) : Type :=
  | Ok (a : A)
  | Raise (e : pyexc).
Arguments Ok {A} a.
Arguments Raise {A} e.

Definition result_bind {A B} (f : A → result B) (m : result A) : result B :=
  match m with
  | Ok a => f a
  | Raise e => Raise e
  end.

#[global] Instance result_mbind : MBind result := @result_bind.
#[global] Instance result_mret : MRet result := @Ok.

Definition is_Ok {A} (m : result A) : bool :=
  match m with Ok _ => true | Raise _ => false end.

(** [a // b] on Python integers: floor division, raising on a zero divisor. *)
Definition floordiv (a b : Z) : result Z :=
  if b =? 0 then Raise ZeroDivisionError else Ok (a / b).

(** [l[start:stop]] on a list: negative bounds count from the end and
    both bounds are clamped to the list. *)
Definition slice_index (len i : Z) : Z :=
  if i <? 0 then Z.max 0 (i + len) else Z.min i len.

Definition py_slice {A} (l : list A) (start stop : Z) : list A :=
  let len := Z.of_nat (length l) in
  let lo := slice_index len start in
  let hi := slice_index len stop in
  take (Z.to_nat (hi - lo)) (drop (Z.to_nat lo) l).

(** [str.split()] without a separator: runs of whitespace separate the
    words and no empty word is produced.  The whitespace code points
    below 256 are 9-13, 28-32, 133 and 160. *)
Definition is_space (c : ascii) : bool :=
  let n := nat_of_ascii c in
  (((9 <=? n) && (n <=? 13)) || ((28 <=? n) && (n <=? 32))
   || (n =? 133) || (n =? 160))%nat.

Definition flush_word (word : string) (rest : list string) : list string :=
  match word with
  | EmptyString => rest
  | _ => word :: rest
  end.

Fixpoint split_from (word : string) (s : string) : list string :=
  match s with
  | EmptyString => flush_word word []
  | String c s' =>
      if is_space c then flush_word word (split_from EmptyString s')
      else split_from (word +:+ String c EmptyString) s'
  end.

Definition str_split (s : string) : list string := split_from EmptyString s.

(** [count_words] *)
Definition count_words (text : string) : nat := length (str_split text).

(** [sorted(l, key=key)]: the sort is stable, so its result is the one
    ordering of [l] by key that keeps equal keys in their input order;
    insertion from the right computes it. *)
Fixpoint insert_by {A} (key : A → nat) (x : A) (l : list A) : list A :=
  match l with
  | [] => [x]
  | y :: l' =>
      if (key x <=? key y)%nat then x :: y :: l' else y :: insert_by key x l'
  end.

Definition sorted {A} (key : A → nat) (l : list A) : list A :=
  foldr (insert_by key) [] l.

(** ** numpy object arrays *)

Inductive slot (A : Type) : Type :=
  | Int0            (* the integer 0 *)
  | Obj (a : A).
Arguments Int0 {A}.
Arguments Obj {A} a.

(** [np.zeros(n, dtype=object)] *)
Definition np_zeros {A} (n : Z) : result (list (slot A)) :=
  if n <? 0 then Raise (ValueError "negative dimensions are not allowed")
  else Ok (replicate (Z.to_nat n) Int0).

(** [arr[permutation]]: the array of the elements at the given indices;
    an index out of range raises. *)
Definition fancy_index {A} (arr : list A) (idx : list nat) : result (list A) :=
  match mapM (λ j, arr !! j) idx with
  | Some arr' => Ok arr'
  | None => Raise (IndexError "index out of bounds")
  end.

(** ** Tensors, tokenizer and encoder *)

Definition tensor : Type := list (list Z).

(** The calls made to the collaborators, in the order they happen. *)
Inductive call : Type :=
  | EncoderCall (texts : list string)
  | TokenizerCall (summaries : list string) (max_length : Z)
  | PipelineCall (index : nat) (texts : list string).

(** A Hugging Face tokenizer: its pad id and its call with
    [padding=True, truncation=True, return_tensors="pt"] and the given
    [max_length]. *)
Record Tokenizer := {
  pad_token_id : Z;
  tokenizer_call : list string → Z → gmap string tensor
}.

(** [Encoder]: the abstract method [generate_encodings] is a field. *)
Record Encoder := {
  tokenizer : Tokenizer;
  preprocessor : option (list string → list string);
  generate_encodings : list string → gmap string tensor
}.

(** [Encoder.__call__] on a list of texts. *)
Definition Encoder_call (self : Encoder) (texts : list string)
  : gmap string tensor :=
  let texts :=
    match preprocessor self with
    | Some preprocess => preprocess texts
    | None => texts
    end in
  generate_encodings self texts.

(** [summ_encodings[summ_encodings == pad] = -100] *)
Definition mask_pad (pad : Z) (summ_encodings : tensor) : tensor :=
  map (map (λ id, if id =? pad then -100 else id)) summ_encodings.

(** The truth value of a [BatchEncoding]: a dict is true when it has a key. *)
Definition truthy (enc : gmap string tensor) : bool :=
  negb (bool_decide (enc = ∅)).

(** ** The global numpy random state

    [np.random.seed] and [np.random.permutation] act on the one random
    state of the process.  The generator itself (MT19937) belongs to
    numpy; the embedding takes it through this interface. *)
Class NumpyRandom := {
  rng_state : Type;
  rng_seed : Z → rng_state;
  rng_permutation : rng_state → nat → list nat * rng_state;
  rng_permutation_perm :
    ∀ g n, (rng_permutation g n).1 ≡ₚ seq 0 n
}.

(** A (text, summary) pair. *)
Notation "'Pair'" := (string * string)%type (only parsing).

Section Program.
Context `{NumpyRandom}.

(** What a run reads from and writes to outside its own objects. *)
Record world := {
  np_random : rng_state;          (* the state behind [np.random] *)
  os_entropy : nat → rng_state;   (* what seeding with [None] draws *)
  entropy_drawn : nat;
  perf_clock : nat → Q;           (* the readings of [perf_counter] *)
  clock_reads : nat;
  calls : list call;              (* collaborator calls so far *)
  stdout : list string            (* what [print] wrote, by call *)
}.

Definition set_np_random (g : rng_state) (w : world) : world :=
  {| np_random := g; os_entropy := os_entropy w;
     entropy_drawn := entropy_drawn w; perf_clock := perf_clock w;
     clock_reads := clock_reads w; calls := calls w; stdout := stdout w |}.

Definition log_call (c : call) (w : world) : world :=
  {| np_random := np_random w; os_entropy := os_entropy w;
     entropy_drawn := entropy_drawn w; perf_clock := perf_clock w;
     clock_reads := clock_reads w; calls := calls w ++ [c];
     stdout := stdout w |}.

Definition print (line : string) (w : world) : world :=
  {| np_random := np_random w; os_entropy := os_entropy w;
     entropy_drawn := entropy_drawn w; perf_clock := perf_clock w;
     clock_reads := clock_reads w; calls := calls w;
     stdout := stdout w ++ [line] |}.

Definition perf_counter (w : world) : Q * world :=
  (perf_clock w (clock_reads w),
   {| np_random := np_random w; os_entropy := os_entropy w;
      entropy_drawn := entropy_drawn w; perf_clock := perf_clock w;
      clock_reads := S (clock_reads w); calls := calls w;
      stdout := stdout w |}).

(** [np.random.seed(seed)]: an integer seed must fit 32 bits; [None]
    seeds from the operating system. *)
Definition np_random_seed (seed : option Z) (w : world) : result world :=
  match seed with
  | Some s =>
      if (0 <=? s) && (s <? 2 ^ 32) then Ok (set_np_random (rng_seed s) w)
      else Raise (ValueError "Seed must be between 0 and 2**32 - 1")
  | None =>
      Ok {| np_random := os_entropy w (entropy_drawn w);
            os_entropy := os_entropy w;
            entropy_drawn := S (entropy_drawn w);
            perf_clock := perf_clock w; clock_reads := clock_reads w;
            calls := calls w; stdout := stdout w |}
  end.

(** [np.random.permutation(n)] *)
Definition np_random_permutation (n : nat) (w : world) : list nat * world :=
  let '(p, g) := rng_permutation (np_random w) n in
  (p, set_np_random g w).

(** ** SummarizationDataset *)


Record SummarizationDataset := {
  num_batches : nat;
  text_batches : list (slot (list Pair));
  cached : option (list (slot (gmap string tensor)));
  encoder : Encoder;
  batch_size : Z;
  context_size : Z;
  shuffle : bool;
  seed : option Z;
  it : option nat
}.

(** The loop of [__init__] that stores the batches. *)
Definition store_batches (texts_summaries : list Pair) (batch_size : Z)
    (n : nat) (arr : list (slot (list Pair))) : list (slot (list Pair)) :=
  foldl (λ arr i,
           <[i := Obj (py_slice texts_summaries
                         (Z.of_nat i * batch_size)
                         ((Z.of_nat i + 1) * batch_size))]> arr)
        arr (seq 0 n).

(** [SummarizationDataset.__init__].  A count [num_texts // batch_size]
    below zero never reaches the object: [np.zeros] raises on it. *)
Definition SummarizationDataset_init (texts_summaries : list Pair)
    (encoder : Encoder) (batch_size context_size : Z)
    (use_cache shuffle : bool) (seed : option Z) (w : world)
  : result (SummarizationDataset * world) :=
  let texts_summaries := sorted (λ x, count_words x.1) texts_summaries in
  let num_texts := Z.of_nat (length texts_summaries) in
  num_batches ← floordiv num_texts batch_size;
  zeros ← np_zeros num_batches;
  let text_batches :=
    store_batches texts_summaries batch_size (Z.to_nat num_batches) zeros in
  cached ← (if use_cache then cache ← np_zeros num_batches; Ok (Some cache)
            else Ok None);
  w' ← np_random_seed seed w;
  Ok ({| num_batches := Z.to_nat num_batches;
         text_batches := text_batches;
         cached := cached;
         encoder := encoder;
         batch_size := batch_size;
         context_size := context_size;
         shuffle := shuffle;
         seed := seed;
         it := None |}, w').

Definition set_it (i : option nat) (self : SummarizationDataset)
  : SummarizationDataset :=
  {| num_batches := num_batches self; text_batches := text_batches self;
     cached := cached self; encoder := encoder self;
     batch_size := batch_size self; context_size := context_size self;
     shuffle := shuffle self; seed := seed self; it := i |}.

Definition set_arrays (batches : list (slot (list Pair)))
    (cache : option (list (slot (gmap string tensor))))
    (self : SummarizationDataset) : SummarizationDataset :=
  {| num_batches := num_batches self; text_batches := batches;
     cached := cache; encoder := encoder self;
     batch_size := batch_size self; context_size := context_size self;
     shuffle := shuffle self; seed := seed self; it := it self |}.

(** [SummarizationDataset.__len__] *)
Definition SummarizationDataset_len (self : SummarizationDataset) : nat :=
  num_batches self.

(** [SummarizationDataset.__iter__] *)
Definition SummarizationDataset_iter (self : SummarizationDataset) (w : world)
  : result (SummarizationDataset * world) :=
  let self := set_it (Some 0%nat) self in
  if shuffle self then
    let '(permutation, w) := np_random_permutation (num_batches self) w in
    batches ← fancy_index (text_batches self) permutation;
    cache ← match cached self with
            | Some cache => cache' ← fancy_index cache permutation;
                            Ok (Some cache')
            | None => Ok None
            end;
    Ok (set_arrays batches cache self, w)
  else Ok (self, w).

(** The cache test of [__next__]: [cached is not None and cached[it]]. *)
Definition cache_lookup (self : SummarizationDataset) (i : nat)
  : result (option (gmap string tensor)) :=
  match cached self with
  | None => Ok None
  | Some cache =>
      match cache !! i with
      | None => Raise (IndexError "index out of bounds")
      | Some Int0 => Ok None
      | Some (Obj enc) => Ok (if truthy enc then Some enc else None)
      end
  end.

(** The encoding of one batch: texts through the encoder, summaries
    through the tokenizer, pad ids of the summaries set to -100. *)
Definition encode_batch (enc : Encoder) (context_size : Z)
    (texts_summaries : list Pair) (w : world)
  : result (gmap string tensor * world) :=
  let tok := tokenizer enc in
  let texts := map fst texts_summaries in
  let summaries := map snd texts_summaries in
  let text_encodings := Encoder_call enc texts in
  let w := log_call (EncoderCall texts) w in
  let w := log_call (TokenizerCall summaries context_size) w in
  match tokenizer_call tok summaries context_size !! "input_ids" with
  | None => Raise (KeyError "input_ids")
  | Some summ_encodings =>
      let summ_encodings := mask_pad (pad_token_id tok) summ_encodings in
      Ok (<["labels" := summ_encodings]> text_encodings, w)
  end.

(** [SummarizationDataset.__next__] *)
Definition SummarizationDataset_next (self : SummarizationDataset) (w : world)
  : result (gmap string tensor * SummarizationDataset * world) :=
  match it self with
  | None => Raise StopIteration
  | Some i =>
      if bool_decide (i = num_batches self) then Raise StopIteration
      else
        let self := set_it (Some (S i)) self in
        hit ← cache_lookup self i;
        match hit with
        | Some enc => Ok (enc, self, w)
        | None =>
            texts_summaries ←
              match text_batches self !! i with
              | None => Raise (IndexError "index out of bounds")
              | Some Int0 => Raise (TypeError "'int' object is not iterable")
              | Some (Obj batch) => Ok batch
              end;
            '(batch_encodings, w) ←
              encode_batch (encoder self) (context_size self)
                           texts_summaries w;
            let self :=
              match cached self with
              | Some cache =>
                  set_arrays (<[i := Int0]> (text_batches self))
                             (Some (<[i := Obj batch_encodings]> cache)) self
              | None => self
              end in
            Ok (batch_encodings, self, w)
        end
  end.

(** ** Evaluator *)

Definition pipeline : Type := list string → list string.

Record Evaluator := {
  pipelines : list pipeline;
  texts : list string;
  summaries : list string;
  bert_scorer : list string → list string → result (list (list Q));
  generated_summaries : list string
}.

(** [Evaluator.__init__]: one pair or a list of pairs. *)
Definition Evaluator_init (pipelines : list pipeline)
    (texts_summaries : Pair + list Pair)
    (scorer : list string → list string → result (list (list Q)))
  : Evaluator :=
  let texts_summaries :=
    match texts_summaries with
    | inl one => [one]
    | inr many => many
    end in
  {| pipelines := pipelines;
     texts := map fst texts_summaries;
     summaries := map snd texts_summaries;
     bert_scorer := scorer;
     generated_summaries := [] |}.

Definition set_generated (l : list string) (self : Evaluator) : Evaluator :=
  {| pipelines := pipelines self; texts := texts self;
     summaries := summaries self; bert_scorer := bert_scorer self;
     generated_summaries := l |}.

Definition set_summaries (l : list string) (self : Evaluator) : Evaluator :=
  {| pipelines := pipelines self; texts := texts self;
     summaries := l; bert_scorer := bert_scorer self;
     generated_summaries := generated_summaries self |}.

(** The loop of [generate_summaries] over the pipelines from [index] on. *)
Fixpoint run_pipelines (ps : list pipeline) (index : nat)
    (texts summaries : list string) (time_taken : list Q) (w : world)
  : list string * list Q * world :=
  match ps with
  | [] => (summaries, time_taken, w)
  | pipeline :: ps' =>
      let '(start, w) := perf_counter w in
      let summary := pipeline texts in
      let w := log_call (PipelineCall index texts) w in
      let '(stop, w) := perf_counter w in
      let time := ((stop - start) * 1000)%Q in
      run_pipelines ps' (S index) texts (summaries ++ summary)
                    (time_taken ++ [time]) w
  end.

(** [Evaluator.generate_summaries] *)
Definition generate_summaries (self : Evaluator) (w : world)
  : list Q * Evaluator * world :=
  let '(summaries, time_taken, w) :=
    run_pipelines (pipelines self) 0 (texts self)
                  (generated_summaries self) [] w in
  (time_taken, set_generated summaries self, w).

(** [l *= n] on a list: [n] copies of [l] in a row, none when [n <= 0]. *)
Definition list_imul {A} (l : list A) (n : nat) : list A :=
  mjoin (replicate n l).

Definition Qsum (l : list Q) : Q := foldl Qplus 0%Q l.

(** The rows of [metric.reshape((rows, -1))] for a one-dimensional
    metric. *)
Fixpoint chunks {A} (rows width : nat) (l : list A) : list (list A) :=
  match rows with
  | O => []
  | S rows' => take width l :: chunks rows' width (drop width l)
  end.

(** [metric.reshape((rows, -1))]: the missing dimension is inferred when
    [rows] is positive and divides the number of values, also when
    there is no value at all (the rows are then empty); with [rows]
    zero it cannot be inferred. *)
Definition reshape_rows (rows : nat) (metric : list Q)
  : result (list (list Q)) :=
  let size := length metric in
  if bool_decide (rows = 0%nat) then
    if bool_decide (size = 0%nat) then
      Raise (RuntimeError
               ("cannot reshape tensor of 0 elements into shape [0, -1] "
                +:+ "because the unspecified dimension size -1 can be any "
                +:+ "value and is ambiguous"))
    else
      Raise (RuntimeError ("shape '[0, -1]' is invalid for input of size "
                           +:+ pretty size))
  else if bool_decide ((size mod rows)%nat = 0%nat) then
    Ok (chunks rows (size / rows)%nat metric)
  else
    Raise (RuntimeError ("shape '[" +:+ pretty rows
                         +:+ ", -1]' is invalid for input of size "
                         +:+ pretty size)).

(** A value of a tensor of means: a number, or nan. *)
Inductive mean_value : Type :=
  | Mean (q : Q)
  | Nan.

(** The mean of one row; the mean of no value is nan. *)
Definition row_mean (row : list Q) : mean_value :=
  match row with
  | [] => Nan
  | _ :: _ => Mean (Qsum row / inject_Z (Z.of_nat (length row)))%Q
  end.

(** [metric.reshape((num_pipelines, -1)).mean(dim=1)] *)
Definition row_means (num_pipelines : nat) (metric : list Q)
  : result (list mean_value) :=
  rows ← reshape_rows num_pipelines metric;
  Ok (map row_mean rows).

Fixpoint result_mapM {A B} (f : A → result B) (l : list A)
  : result (list B) :=
  match l with
  | [] => Ok []
  | x :: l' => y ← f x; ys ← result_mapM f l'; Ok (y :: ys)
  end.

(** [Evaluator.get_bertscore].  [summaries] names the list object held
    by [self.summaries], and [*=] repeats that object in place. *)
Definition get_bertscore (self : Evaluator) (w : world)
  : result (list (list mean_value)) * Evaluator * world :=
  let '(self, w) :=
    match generated_summaries self with
    | [] =>
        let w := print "Generating summaries" w in
        let '(_, self, w) := generate_summaries self w in
        (self, w)
    | _ :: _ => (self, w)
    end in
  let num_pipelines := length (pipelines self) in
  let self := set_summaries (list_imul (summaries self) num_pipelines) self in
  let metrics :=
    metrics ← bert_scorer self (generated_summaries self) (summaries self);
    result_mapM (row_means num_pipelines) metrics in
  (metrics, self, w).

(** ** train_model *)

Section Training.

(** The state of the model, the optimizer and the scheduler. *)
Context {T : Type}.

(** The text of a float and of [round(x, n)]; formatting floats is left
    to Python. *)
Variable show_float : Q → string.
Variable show_round : Q → Z → string.

(** The collaborators of the loop; each operation may raise.  The loss
    returned by [forward_loss] is the value [loss.item()] reads. *)
Record Trainer := {
  model_to : T → result T;
  model_train : T → result T;
  inputs_to : T → gmap string tensor → result (gmap string tensor);
  forward_loss : T → gmap string tensor → result (Q * T);
  zero_grad : T → result T;
  backward : T → result T;
  optimizer_step : T → result T;
  scheduler_step : option (T → Q → result T)
}.

Definition newline : string := String (ascii_of_nat 10) EmptyString.
Definition carriage_return : string := String (ascii_of_nat 13) EmptyString.
Definition SPACES : nat := 120.
Definition spaces (n : nat) : string :=
  string_of_list_ascii (replicate n " "%char).
Definition show_int (n : Z) : string := pretty n.

(** The text printed by the [except] branch. *)
Definition exception_line (e : pyexc) : string :=
  "Encountered exception of type <class '" +:+ exc_type e +:+ "'>: "
  +:+ exc_str e +:+ newline +:+ "Training terminated".

Definition time_remaining (seconds : Z) : string :=
  let minutes := seconds / 60 in
  let hours := minutes / 60 in
  let days := hours / 24 in
  let text := show_float (inject_Z (seconds mod 60)) +:+ "s" in
  let text :=
    if minutes =? 0 then text
    else show_float (inject_Z (minutes mod 60)) +:+ "m " +:+ text in
  let text :=
    if hours =? 0 then text
    else show_float (inject_Z (hours mod 24)) +:+ "h " +:+ text in
  if days =? 0 then text
  else show_float (inject_Z days) +:+ "d " +:+ text.

Definition progress_line (epoch : nat) (epochs : Z) (batch num_batches : nat)
    (flt_prec : Z) (time loss epoch_time : Q) : string :=
  let seconds :=
    Qfloor (epoch_time
            * (inject_Z (Z.of_nat num_batches * (epochs - Z.of_nat epoch))
               / inject_Z (Z.of_nat batch + 1) - 1) / 1000)%Q in
  carriage_return +:+ spaces SPACES +:+ carriage_return
  +:+ "Epoch: " +:+ show_int (Z.of_nat epoch + 1) +:+ "/" +:+ show_int epochs
  +:+ " Batch: " +:+ show_int (Z.of_nat batch + 1) +:+ "/"
  +:+ show_int (Z.of_nat num_batches)
  +:+ " Time: " +:+ show_round time flt_prec +:+ " ms/batch "
  +:+ "Loss: " +:+ show_round loss flt_prec +:+ " "
  +:+ "Time remaining: " +:+ time_remaining seconds.

Definition epoch_line (epoch : nat) (epochs : Z) (epoch_time epoch_loss : Q)
  : string :=
  carriage_return +:+ spaces SPACES +:+ carriage_return +:+ carriage_return
  +:+ "Epoch: " +:+ show_int (Z.of_nat epoch + 1) +:+ "/" +:+ show_int epochs
  +:+ " Avergage time: " +:+ show_float epoch_time +:+ " ms/batch "
  +:+ "Average loss: " +:+ show_float epoch_loss.

(** The body of the [try]: device transfer, forward loss, zeroing the
    gradients, backward pass, optimizer step, with the time of the
    optimisation in milliseconds. *)
Definition process_batch (tr : Trainer) (t : T) (inputs : gmap string tensor)
    (w : world) : result (Q * Q * T) * world :=
  match inputs_to tr t inputs with
  | Raise e => (Raise e, w)
  | Ok inputs =>
      let '(start, w) := perf_counter w in
      let body :=
        '(loss, t) ← forward_loss tr t inputs;
        t ← zero_grad tr t;
        t ← backward tr t;
        t ← optimizer_step tr t;
        Ok (loss, t) in
      match body with
      | Raise e => (Raise e, w)
      | Ok (loss, t) =>
          let '(stop, w) := perf_counter w in
          (Ok (((stop - start) * 1000)%Q, loss, t), w)
      end
  end.

(** One turn of [for batch, inputs in enumerate(dataset)]. *)
Inductive step_outcome : Type :=
  | StepNext (epoch_time epoch_loss : Q) (t : T)
             (ds : SummarizationDataset) (w : world)
  | StepStop                     (* the dataset is exhausted *)
  | StepCaught (w : world)       (* the [except] branch returns *)
  | StepRaised (e : pyexc).      (* an exception leaves [train_model] *)

Definition batch_step (tr : Trainer) (epoch : nat) (epochs flt_prec : Z)
    (num_batches batch : nat) (epoch_time epoch_loss : Q) (t : T)
    (ds : SummarizationDataset) (w : world) : step_outcome :=
  match SummarizationDataset_next ds w with
  | Raise e => if is_StopIteration e then StepStop else StepRaised e
  | Ok (inputs, ds, w) =>
      match process_batch tr t inputs w with
      | (Raise e, w) =>
          if exc_is_Exception e then StepCaught (print (exception_line e) w)
          else StepRaised e
      | (Ok (time, loss, t), w) =>
          let epoch_time := (epoch_time + time)%Q in
          let epoch_loss := (epoch_loss + loss)%Q in
          let w := print (progress_line epoch epochs batch num_batches
                                        flt_prec time loss epoch_time) w in
          StepNext epoch_time epoch_loss t ds w
      end
  end.

Inductive batches_outcome : Type :=
  | BatchesDone (epoch_time epoch_loss : Q) (t : T)
                (ds : SummarizationDataset) (w : world)
  | BatchesCaught (w : world)
  | BatchesRaised (e : pyexc)
  | BatchesNoFuel.

(** The inner loop.  [fuel] bounds the number of turns; [train_epoch]
    gives one more than the number of batches, which is never used up. *)
Fixpoint train_batches (fuel : nat) (tr : Trainer) (epoch : nat)
    (epochs flt_prec : Z) (num_batches batch : nat)
    (epoch_time epoch_loss : Q) (t : T) (ds : SummarizationDataset)
    (w : world) : batches_outcome :=
  match fuel with
  | O => BatchesNoFuel
  | S fuel' =>
      match batch_step tr epoch epochs flt_prec num_batches batch
                       epoch_time epoch_loss t ds w with
      | StepNext epoch_time epoch_loss t ds w =>
          train_batches fuel' tr epoch epochs flt_prec num_batches (S batch)
                        epoch_time epoch_loss t ds w
      | StepStop => BatchesDone epoch_time epoch_loss t ds w
      | StepCaught w => BatchesCaught w
      | StepRaised e => BatchesRaised e
      end
  end.

Inductive epoch_outcome : Type :=
  | EpochNext (t : T) (ds : SummarizationDataset) (w : world)
              (epoch_losses : list Q)
  | EpochReturn (w : world)      (* [return epoch_losses] in the loop *)
  | EpochRaised (e : pyexc)
  | EpochNoFuel.

(** One turn of [for epoch in range(epochs)]. *)
Definition train_epoch (tr : Trainer) (epoch : nat) (epochs flt_prec : Z)
    (num_batches : nat) (t : T) (ds : SummarizationDataset) (w : world)
    (epoch_losses : list Q) : epoch_outcome :=
  match SummarizationDataset_iter ds w with
  | Raise e => EpochRaised e
  | Ok (ds, w) =>
      match train_batches (S (num_batches)) tr epoch epochs flt_prec
                          num_batches 0 0%Q 0%Q t ds w with
      | BatchesNoFuel => EpochNoFuel
      | BatchesRaised e => EpochRaised e
      | BatchesCaught w => EpochReturn w
      | BatchesDone epoch_time epoch_loss t ds w =>
          if bool_decide (num_batches = 0%nat) then
            EpochRaised (PyExc "ZeroDivisionError" "division by zero" true)
          else
            let n := inject_Z (Z.of_nat num_batches) in
            let epoch_time := (epoch_time / n)%Q in
            let epoch_loss := (epoch_loss / n)%Q in
            let epoch_losses := epoch_losses ++ [epoch_loss] in
            let stepped :=
              match scheduler_step tr with
              | Some step => step t epoch_loss
              | None => Ok t
              end in
            match stepped with
            | Raise e => EpochRaised e
            | Ok t =>
                let w := print (epoch_line epoch epochs epoch_time epoch_loss)
                               w in
                EpochNext t ds w epoch_losses
            end
      end
  end.

Inductive train_outcome : Type :=
  | Returned (epoch_losses : list Q) (w : world)
  | Raised (e : pyexc)
  | NoFuel.

Fixpoint train_epochs (remaining : nat) (tr : Trainer) (epoch : nat)
    (epochs flt_prec : Z) (num_batches : nat) (t : T)
    (ds : SummarizationDataset) (w : world) (epoch_losses : list Q)
  : train_outcome :=
  match remaining with
  | O => Returned epoch_losses w
  | S remaining' =>
      match train_epoch tr epoch epochs flt_prec num_batches t ds w
                        epoch_losses with
      | EpochNext t ds w epoch_losses =>
          train_epochs remaining' tr (S epoch) epochs flt_prec num_batches
                       t ds w epoch_losses
      | EpochReturn w => Returned epoch_losses w
      | EpochRaised e => Raised e
      | EpochNoFuel => NoFuel
      end
  end.

(** [train_model] *)
Definition train_model (tr : Trainer) (t : T) (dataset : SummarizationDataset)
    (epochs : Z) (flt_prec : Z) (w : world) : train_outcome :=
  match model_to tr t with
  | Raise e => Raised e
  | Ok t =>
      let epoch_losses := [] in
      let num_batches := SummarizationDataset_len dataset in
      match model_train tr t with
      | Raise e => Raised e
      | Ok t =>
          train_epochs (Z.to_nat epochs) tr 0 epochs flt_prec num_batches
                       t dataset w epoch_losses
      end
  end.

End Training.

End Program.

(** * Properties *)

(** ** Python primitives *)

Example py_slice_mid : py_slice [1; 2; 3; 4; 5] 2 4 = [3; 4].
Proof. reflexivity. Qed.

Example count_words_ex : count_words "  a long   document " = 3%nat.
Proof. reflexivity. Qed.

Example sorted_stable :
  sorted fst [(2, "a"); (1, "b"); (2, "c"); (1, "d")]%nat
  = [(1, "b"); (1, "d"); (2, "a"); (2, "c")]%nat.
Proof. reflexivity. Qed.

Lemma result_bind_Ok {A B} (f : A → result B) (m : result A) (b : B) :
  m ≫= f = Ok b → ∃ a, m = Ok a ∧ f a = Ok b.
Proof. destruct m as [a|e]; [eauto | discriminate]. Qed.

Lemma insert_by_perm {A} (key : A → nat) x (l : list A) :
  insert_by key x l ≡ₚ x :: l.
Proof.
  induction l as [|y l IH]; simpl; [done|].
  destruct (key x <=? key y)%nat; [done|].
  rewrite IH. apply Permutation_swap.
Qed.

Lemma sorted_perm {A} (key : A → nat) (l : list A) : sorted key l ≡ₚ l.
Proof.
  induction l as [|x l IH]; simpl; [done|].
  unfold sorted in *. simpl. rewrite insert_by_perm. by rewrite IH.
Qed.

Lemma length_sorted {A} (key : A → nat) (l : list A) :
  length (sorted key l) = length l.
Proof. apply Permutation_length, sorted_perm. Qed.

(** [ascending key l]: each element's key is at most the key of every
    later element. *)
Definition ascending {A} (key : A → nat) (l : list A) : Prop :=
  ∀ i j x y, (i ≤ j)%nat → l !! i = Some x → l !! j = Some y →
             (key x ≤ key y)%nat.

Lemma ascending_cons {A} (key : A → nat) x (l : list A) :
  Forall (λ y, (key x ≤ key y)%nat) l → ascending key l →
  ascending key (x :: l).
Proof.
  intros Hx Hl i j a b Hij Hi Hj.
  destruct i as [|i], j as [|j]; simpl in *; simplify_eq; try lia.
  - rewrite Forall_forall in Hx. apply Hx.
    apply list_elem_of_lookup. eauto.
  - eapply Hl; [|done..]. lia.
Qed.

Lemma ascending_tail {A} (key : A → nat) x (l : list A) :
  ascending key (x :: l) → ascending key l.
Proof.
  intros Hl i j a b Hij Hi Hj. apply (Hl (S i) (S j)); [lia|done..].
Qed.

Lemma ascending_head {A} (key : A → nat) x (l : list A) :
  ascending key (x :: l) → Forall (λ y, (key x ≤ key y)%nat) l.
Proof.
  intros Hl. apply Forall_forall. intros y Hy.
  apply list_elem_of_lookup in Hy as [j Hj].
  apply (Hl 0%nat (S j)); [lia|done..].
Qed.

Lemma insert_by_ascending {A} (key : A → nat) x (l : list A) :
  ascending key l → ascending key (insert_by key x l).
Proof.
  induction l as [|y l IH]; intros Hl; simpl.
  - apply ascending_cons; [constructor|].
    intros i j a b _ Hi. by rewrite lookup_nil in Hi.
  - destruct (key x <=? key y)%nat eqn:Hxy.
    + apply Nat.leb_le in Hxy. apply ascending_cons; [|done].
      constructor; [done|].
      eapply Forall_impl; [by apply ascending_head|].
      simpl. intros; lia.
    + apply Nat.leb_gt in Hxy. apply ascending_cons.
      * rewrite insert_by_perm. constructor; [lia|].
        by apply ascending_head.
      * apply IH. by eapply ascending_tail.
Qed.

Lemma sorted_ascending {A} (key : A → nat) (l : list A) :
  ascending key (sorted key l).
Proof.
  induction l as [|x l IH]; unfold sorted in *; simpl.
  - intros i j a b _ Hi. by rewrite lookup_nil in Hi.
  - by apply insert_by_ascending.
Qed.

(** A slice between two bounds inside the list. *)
Lemma py_slice_inside {A} (l : list A) (lo hi : Z) :
  0 ≤ lo → lo ≤ hi → hi ≤ Z.of_nat (length l) →
  py_slice l lo hi = take (Z.to_nat (hi - lo)) (drop (Z.to_nat lo) l).
Proof.
  intros Hlo Hhi Hlen. unfold py_slice, slice_index.
  destruct (lo <? 0) eqn:E1; [apply Z.ltb_lt in E1; lia|].
  destruct (hi <? 0) eqn:E2; [apply Z.ltb_lt in E2; lia|].
  by rewrite !Z.min_l by lia.
Qed.

(** ** Construction of the dataset *)

Section Construction.
Context `{NumpyRandom}.

(** The batch that [__init__] stores at index [i]. *)
Definition batch_at (texts_summaries : list Pair) (batch_size : Z) (i : nat)
  : list Pair :=
  py_slice texts_summaries (Z.of_nat i * batch_size)
           ((Z.of_nat i + 1) * batch_size).

Lemma store_batches_prefix (ts : list Pair) (b : Z) (n : nat)
    (arr : list (slot (list Pair))) :
  (n ≤ length arr)%nat →
  store_batches ts b n arr
  = map (λ i, Obj (batch_at ts b i)) (seq 0 n) ++ drop n arr.
Proof.
  unfold store_batches. induction n as [|n IH]; intros Hn.
  - by rewrite drop_0.
  - rewrite seq_S, foldl_app, IH by lia. simpl.
    destruct (drop n arr) as [|y rest] eqn:Hd.
    { apply (f_equal length) in Hd. rewrite length_drop in Hd.
      simpl in Hd. lia. }
    rewrite insert_app_r_alt by (rewrite length_map, length_seq; lia).
    rewrite length_map, length_seq, Nat.sub_diag. simpl.
    rewrite map_app, <- app_assoc. simpl. do 3 f_equal.
    replace (S n) with (n + 1)%nat by lia.
    by rewrite <- drop_drop, Hd.
Qed.

Lemma store_batches_all (ts : list Pair) (b : Z) (n : nat) :
  store_batches ts b n (replicate n Int0)
  = map (λ i, Obj (batch_at ts b i)) (seq 0 n).
Proof.
  rewrite store_batches_prefix by (by rewrite length_replicate).
  rewrite drop_ge by (by rewrite length_replicate).
  by rewrite app_nil_r.
Qed.

(** What a successful construction has built. *)
Lemma init_Ok_inv pairs enc b ctx use_cache shuf sd w ds w' :
  SummarizationDataset_init pairs enc b ctx use_cache shuf sd w = Ok (ds, w') →
  let ts := sorted (λ x, count_words x.1) pairs in
  let n := Z.of_nat (length ts) / b in
  b ≠ 0 ∧ 0 ≤ n ∧ np_random_seed sd w = Ok w' ∧
  ds = {| num_batches := Z.to_nat n;
          text_batches := map (λ i, Obj (batch_at ts b i)) (seq 0 (Z.to_nat n));
          cached := if use_cache then Some (replicate (Z.to_nat n) Int0)
                    else None;
          encoder := enc; batch_size := b; context_size := ctx;
          shuffle := shuf; seed := sd; it := None |}.
Proof.
  intros Hinit ts n. unfold SummarizationDataset_init, floordiv in Hinit.
  destruct (b =? 0) eqn:Hb; [discriminate|]. apply Z.eqb_neq in Hb.
  simpl in Hinit. fold ts in Hinit. fold n in Hinit.
  unfold np_zeros in Hinit.
  destruct (n <? 0) eqn:Hn; [discriminate|]. apply Z.ltb_ge in Hn.
  simpl in Hinit. rewrite store_batches_all in Hinit.
  destruct (np_random_seed sd w) as [w1|e] eqn:Hseed.
  - destruct use_cache; simpl in Hinit; by simplify_eq.
  - destruct use_cache; simpl in Hinit; discriminate.
Qed.

(** A construction with a positive batch size fails only in the seeding. *)
Lemma init_positive_Ok pairs enc b ctx use_cache shuf sd w w' :
  0 < b → np_random_seed sd w = Ok w' →
  ∃ ds, SummarizationDataset_init pairs enc b ctx use_cache shuf sd w
        = Ok (ds, w').
Proof.
  intros Hb Hseed. unfold SummarizationDataset_init, floordiv.
  destruct (b =? 0) eqn:Hb0; [apply Z.eqb_eq in Hb0; lia|]. simpl.
  unfold np_zeros.
  destruct (_ <? 0) eqn:Hn.
  { apply Z.ltb_lt in Hn.
    pose proof (Z.div_pos (Z.of_nat (length (sorted (λ x, count_words x.1)
                                                    pairs))) b). lia. }
  simpl. rewrite Hseed. destruct use_cache; simpl; eauto.
Qed.

Lemma batch_at_inside (ts : list Pair) (b : Z) (i : nat) :
  0 < b → (Z.of_nat i + 1) * b ≤ Z.of_nat (length ts) →
  batch_at ts b i = take (Z.to_nat b) (drop (i * Z.to_nat b) ts).
Proof.
  intros Hb Hi. unfold batch_at. rewrite py_slice_inside by nia.
  f_equal; [f_equal; lia|f_equal; nia].
Qed.

Lemma length_batch_at (ts : list Pair) (b : Z) (i : nat) :
  0 < b → (Z.of_nat i + 1) * b ≤ Z.of_nat (length ts) →
  Z.of_nat (length (batch_at ts b i)) = b.
Proof.
  intros Hb Hi. rewrite batch_at_inside by done.
  rewrite length_take, length_drop. nia.
Qed.

(** The stored batches, one after the other, are the first
    [num_batches * batch_size] pairs of the sorted list. *)
Lemma concat_batches (ts : list Pair) (b : Z) (n : nat) :
  0 < b → Z.of_nat n * b ≤ Z.of_nat (length ts) →
  mjoin (map (batch_at ts b) (seq 0 n)) = take (n * Z.to_nat b) ts.
Proof.
  intros Hb. induction n as [|n IH]; intros Hn; [done|].
  replace (S n * Z.to_nat b)%nat with (n * Z.to_nat b + Z.to_nat b)%nat by lia.
  rewrite seq_S, map_app, join_app, IH, <- take_take_drop by lia.
  f_equal. cbn [map mjoin list_join seq Nat.add]. rewrite app_nil_r.
  apply batch_at_inside; [done|lia].
Qed.

End Construction.

Section Batching.
Context `{NumpyRandom}.

(** The pairs a dataset holds, batch after batch. *)
Definition stored_pairs (ds : SummarizationDataset) : list Pair :=
  mjoin (map (λ s, match s with Obj batch => batch | Int0 => [] end)
             (text_batches ds)).

Lemma stored_pairs_fresh (ts : list Pair) (b : Z) (n : nat) :
  mjoin (map (λ s, match s with Obj batch => batch | Int0 => [] end)
             (map (λ i, Obj (batch_at ts b i)) (seq 0 n)))
  = mjoin (map (batch_at ts b) (seq 0 n)).
Proof. by rewrite map_map. Qed.

(** C3: for a list of N pairs and a batch size b > 0, construction
    succeeds whenever the seeding does, and the constructed dataset has
    length N // b, stores exactly that many batches, each of exactly b
    pairs; the batches hold the first N - N mod b pairs of the sorted
    list, so the N mod b leftover pairs are in no batch. *)
Theorem dataset_length_full_batches pairs enc b ctx use_cache shuf sd w :
  0 < b →
  let N := Z.of_nat (length pairs) in
  (∀ w', np_random_seed sd w = Ok w' →
         ∃ ds, SummarizationDataset_init pairs enc b ctx use_cache shuf sd w
               = Ok (ds, w')) ∧
  (∀ ds w',
     SummarizationDataset_init pairs enc b ctx use_cache shuf sd w
     = Ok (ds, w') →
     Z.of_nat (SummarizationDataset_len ds) = N / b ∧
     length (text_batches ds) = SummarizationDataset_len ds ∧
     (∀ i s, text_batches ds !! i = Some s →
             ∃ batch, s = Obj batch ∧ Z.of_nat (length batch) = b) ∧
     stored_pairs ds
     = take (Z.to_nat (N - N mod b)) (sorted (λ x, count_words x.1) pairs)).
Proof.
  intros Hb N. split.
  { intros w' Hseed. by apply init_positive_Ok. }
  intros ds w' Hinit. apply init_Ok_inv in Hinit as (_ & Hn & _ & ->).
  rewrite length_sorted in *. subst N.
  remember (Z.of_nat (length pairs)) as N eqn:HN.
  set (ts := sorted (λ x, count_words x.1) pairs).
  assert (Hlen : Z.of_nat (length ts) = N)
    by (unfold ts; by rewrite length_sorted).
  pose proof (Z.mod_pos_bound N b Hb) as Hmod.
  pose proof (Z.div_mod N b ltac:(lia)) as Hdiv.
  unfold SummarizationDataset_len, stored_pairs. simpl.
  split_and!.
  - lia.
  - by rewrite length_map, length_seq.
  - intros i s Hi. rewrite list_lookup_fmap in Hi.
    destruct (seq 0 (Z.to_nat (N / b)) !! i) as [k|] eqn:Hk; [|done].
    simpl in Hi. simplify_eq. apply lookup_seq in Hk as [-> Hk]. simpl.
    eexists; split; [done|]. apply length_batch_at; [done|]. nia.
  - rewrite stored_pairs_fresh, concat_batches by (done || nia).
    f_equal. nia.
Qed.

Definition total_words (batch : list Pair) : nat :=
  sum_list (map (λ x, count_words x.1) batch).

(** The average number of words of the texts of a batch. *)
Definition average_words (batch : list Pair) : Q :=
  (inject_Z (Z.of_nat (total_words batch))
   / inject_Z (Z.of_nat (length batch)))%Q.

Lemma total_words_mono (l1 l2 : list Pair) :
  Forall2 (λ x y, (count_words x.1 ≤ count_words y.1)%nat) l1 l2 →
  (total_words l1 ≤ total_words l2)%nat.
Proof.
  unfold total_words. induction 1; simpl; [done|]. lia.
Qed.

Lemma batch_at_words_mono (ts : list Pair) (b : Z) (i j : nat) :
  ascending (λ x, count_words x.1) ts →
  0 < b → (i ≤ j)%nat → (Z.of_nat j + 1) * b ≤ Z.of_nat (length ts) →
  (total_words (batch_at ts b i) ≤ total_words (batch_at ts b j))%nat.
Proof.
  intros Hts Hb Hij Hj. apply total_words_mono.
  apply Forall2_same_length_lookup_2.
  { apply Nat2Z.inj. rewrite !length_batch_at; (done || nia). }
  intros k x y. rewrite !batch_at_inside by (done || nia).
  intros Hx Hy. apply lookup_take_Some in Hx as [Hx _].
  apply lookup_take_Some in Hy as [Hy _].
  rewrite lookup_drop in Hx, Hy.
  eapply (Hts _ _ x y); [|done..]. nia.
Qed.

(** C7: in a constructed dataset, before any traversal, the average
    number of words of the texts of a batch does not decrease with the
    index of the batch. *)
Theorem initial_batches_ascending_average
    pairs enc b ctx use_cache shuf sd w ds w' i j bi bj :
  SummarizationDataset_init pairs enc b ctx use_cache shuf sd w = Ok (ds, w') →
  (i ≤ j)%nat →
  text_batches ds !! i = Some (Obj bi) →
  text_batches ds !! j = Some (Obj bj) →
  (average_words bi <= average_words bj)%Q.
Proof.
  intros Hinit Hij Hi Hj.
  apply init_Ok_inv in Hinit as (Hb0 & Hn & _ & ->). simpl in Hi, Hj.
  set (ts := sorted (λ x, count_words x.1) pairs) in *.
  rewrite list_lookup_fmap in Hi, Hj.
  destruct (seq 0 _ !! i) as [i'|] eqn:Hi'; [|done].
  destruct (seq 0 _ !! j) as [j'|] eqn:Hj'; [|done].
  apply lookup_seq in Hi' as [-> Hi'], Hj' as [-> Hj'].
  simpl in Hi, Hj. simplify_eq.
  assert (Hb : 0 < b).
  { destruct (Z.lt_trichotomy b 0) as [Hneg|[?|?]]; [|done..].
    pose proof (Z.div_mod (Z.of_nat (length ts)) b Hb0).
    pose proof (Z.mod_neg_bound (Z.of_nat (length ts)) b Hneg). nia. }
  pose proof (Z.mod_pos_bound (Z.of_nat (length ts)) b Hb) as Hmod.
  pose proof (Z.div_mod (Z.of_nat (length ts)) b Hb0) as Hdiv.
  unfold average_words.
  assert (Hlen : ∀ k, (k < Z.to_nat (Z.of_nat (length ts) / b))%nat →
                      Z.of_nat (length (batch_at ts b k)) = b).
  { intros k Hk. apply length_batch_at; [done|nia]. }
  rewrite !Hlen by lia.
  apply Qmult_le_compat_r.
  - rewrite <- Zle_Qle. apply inj_le.
    apply batch_at_words_mono; [apply sorted_ascending|done|done|nia].
  - apply Qinv_le_0_compat. rewrite <- (Zle_Qle 0). lia.
Qed.

(** C9, as the code has it: a batch size of 0 makes the floor division
    raise; a batch size below 0 with at least one pair makes the
    allocation of the batch array raise; a batch size below 0 with no
    pair raises nothing before the seeding, and the dataset built has
    no batch. *)
Theorem init_nonpositive_batch_size pairs enc b ctx use_cache shuf sd w :
  b ≤ 0 →
  (b = 0 →
   SummarizationDataset_init pairs enc b ctx use_cache shuf sd w
   = Raise ZeroDivisionError) ∧
  (b < 0 → pairs ≠ [] →
   SummarizationDataset_init pairs enc b ctx use_cache shuf sd w
   = Raise (ValueError "negative dimensions are not allowed")) ∧
  (b < 0 → pairs = [] →
   SummarizationDataset_init pairs enc b ctx use_cache shuf sd w
   = (w' ← np_random_seed sd w;
      Ok ({| num_batches := 0; text_batches := [];
             cached := if use_cache then Some [] else None;
             encoder := enc; batch_size := b; context_size := ctx;
             shuffle := shuf; seed := sd; it := None |}, w'))).
Proof.
  intros _. split_and!.
  - intros ->. done.
  - intros Hb Hne. unfold SummarizationDataset_init, floordiv.
    destruct (b =? 0) eqn:Hb0; [apply Z.eqb_eq in Hb0; lia|]. simpl.
    unfold np_zeros.
    set (N := Z.of_nat (length (sorted (λ x, count_words x.1) pairs))).
    assert (0 < N).
    { unfold N. rewrite length_sorted. destruct pairs; [done|simpl; lia]. }
    destruct (N / b <? 0) eqn:Hn; [done|]. apply Z.ltb_ge in Hn.
    pose proof (Z.div_mod N b ltac:(lia)).
    pose proof (Z.mod_neg_bound N b Hb). nia.
  - intros Hb ->. unfold SummarizationDataset_init, floordiv.
    destruct (b =? 0) eqn:Hb0; [apply Z.eqb_eq in Hb0; lia|].
    destruct use_cache; done.
Qed.

End Batching.

(** ** Traversal, cache and shuffle *)

Section Iteration.
Context `{NumpyRandom}.

(** [be] is the encoded form of [batch] for the dataset [ds]. *)
Definition encodes (ds : SummarizationDataset) (batch : list Pair)
    (be : gmap string tensor) : Prop :=
  ∃ w w', encode_batch (encoder ds) (context_size ds) batch w = Ok (be, w').

(** The batches a dataset was built from, by index. *)
Definition initial_order (ds : SummarizationDataset) : list (list Pair) :=
  omap (λ s, match s with Obj batch => Some batch | Int0 => None end)
       (text_batches ds).

(** [tracked order ds]: [ds] is a dataset some run of the program can
    hold, and [order] lists, by current index, the batches it was built
    from: construction numbers them as stored, a shuffle moves them by
    the permutation it draws, a step leaves them in place. *)
Inductive tracked : list (list Pair) → SummarizationDataset → Prop :=
  | tracked_init pairs enc b ctx use_cache shuf sd w ds w' :
      SummarizationDataset_init pairs enc b ctx use_cache shuf sd w
      = Ok (ds, w') →
      tracked (initial_order ds) ds
  | tracked_iter order ds w ds' w' :
      tracked order ds →
      SummarizationDataset_iter ds w = Ok (ds', w') →
      shuffle ds = false →
      tracked order ds'
  | tracked_shuffle order order' ds w ds' w' :
      tracked order ds →
      SummarizationDataset_iter ds w = Ok (ds', w') →
      shuffle ds = true →
      fancy_index order (np_random_permutation (num_batches ds) w).1
      = Ok order' →
      tracked order' ds'
  | tracked_next order ds w be ds' w' :
      tracked order ds →
      SummarizationDataset_next ds w = Ok (be, ds', w') →
      tracked order ds'
  | tracked_next_raise order ds w e i :
      tracked order ds →
      it ds = Some i →
      SummarizationDataset_next ds w = Raise e →
      is_StopIteration e = false →
      tracked order (set_it (Some (S i)) ds).

(** The correspondence between the batches by index, the batch array
    and the cache array. *)
Definition slot_agrees (ds : SummarizationDataset) (batch : list Pair)
    (raw : slot (list Pair)) (c : slot (gmap string tensor)) : Prop :=
  match c with
  | Int0 => raw = Obj batch
  | Obj be => raw = Int0 ∧ encodes ds batch be
  end.

Definition arrays_agree (order : list (list Pair))
    (ds : SummarizationDataset) : Prop :=
  length order = num_batches ds ∧
  length (text_batches ds) = num_batches ds ∧
  match cached ds with
  | None => text_batches ds = map Obj order
  | Some cache =>
      length cache = num_batches ds ∧
      ∀ i batch raw c,
        order !! i = Some batch → text_batches ds !! i = Some raw →
        cache !! i = Some c → slot_agrees ds batch raw c
  end.

Lemma fancy_index_Ok {A} (arr arr' : list A) (p : list nat) :
  fancy_index arr p = Ok arr' →
  length arr' = length p ∧
  ∀ i j, p !! i = Some j → arr' !! i = arr !! j ∧ is_Some (arr !! j).
Proof.
  unfold fancy_index. destruct (mapM _ p) as [k|] eqn:Hk; [|done].
  intros [= ->]. apply mapM_Some in Hk. split.
  - symmetry. by eapply Forall2_length.
  - intros i j Hi.
    destruct (Forall2_lookup_l _ _ _ _ _ Hk Hi) as (y & Hy & Hj).
    rewrite Hy, Hj. eauto.
Qed.

Lemma fancy_index_total {A} (arr : list A) (p : list nat) :
  p ≡ₚ seq 0 (length arr) → ∃ arr', fancy_index arr p = Ok arr'.
Proof.
  intros Hp. unfold fancy_index.
  destruct (mapM _ p) as [k|] eqn:Hk; [eauto|].
  apply eq_None_not_Some in Hk. destruct Hk.
  apply mapM_is_Some. apply Forall_forall. intros j Hj.
  rewrite Hp in Hj. apply elem_of_seq in Hj.
  apply lookup_lt_is_Some. lia.
Qed.

Lemma Forall2_lookup_perm {A} (arr : list A) (p q : list nat) (k : list A) :
  p ≡ₚ q → Forall2 (λ j y, arr !! j = Some y) p k →
  ∃ k', Forall2 (λ j y, arr !! j = Some y) q k' ∧ k ≡ₚ k'.
Proof.
  intros Hp. revert k.
  induction Hp as [|j p q _ IH|i j p|p q r _ IH1 _ IH2]; intros k Hk.
  - apply Forall2_nil_inv_l in Hk as ->. eauto.
  - apply Forall2_cons_inv_l in Hk as (y & k1 & Hy & Hk1 & ->).
    destruct (IH _ Hk1) as (k' & Hk' & Hperm).
    exists (y :: k'). split; [by constructor|by constructor].
  - apply Forall2_cons_inv_l in Hk as (y & k1 & Hy & Hk1 & ->).
    apply Forall2_cons_inv_l in Hk1 as (z & k2 & Hz & Hk2 & ->).
    exists (z :: y :: k2). split; [by repeat constructor|constructor].
  - destruct (IH1 _ Hk) as (k1 & Hk1 & Hp1).
    destruct (IH2 _ Hk1) as (k2 & Hk2 & Hp2).
    exists k2. split; [done|by etrans].
Qed.

Lemma Forall2_lookup_seq {A} (arr k : list A) :
  Forall2 (λ j y, arr !! j = Some y) (seq 0 (length arr)) k → k = arr.
Proof.
  intros Hk. apply list_eq_same_length with (length arr).
  - done.
  - apply Forall2_length in Hk. by rewrite length_seq in Hk.
  - intros i x y Hi Hx Hy.
    assert (seq 0 (length arr) !! i = Some i) as Hs
      by (apply lookup_seq; lia).
    destruct (Forall2_lookup_l _ _ _ _ _ Hk Hs) as (z & Hz & Hj).
    congruence.
Qed.

(** Indexing by a permutation of the indices permutes the array. *)
Lemma fancy_index_perm {A} (arr arr' : list A) (p : list nat) :
  p ≡ₚ seq 0 (length arr) → fancy_index arr p = Ok arr' → arr' ≡ₚ arr.
Proof.
  unfold fancy_index. intros Hp.
  destruct (mapM _ p) as [k|] eqn:Hk; [|done]. intros [= ->].
  apply mapM_Some in Hk.
  destruct (Forall2_lookup_perm _ _ _ _ Hp Hk) as (k' & Hk' & Hperm).
  apply Forall2_lookup_seq in Hk'. by subst.
Qed.

Lemma encode_batch_Ok_inv enc ctx (batch : list Pair) w be w' :
  encode_batch enc ctx batch w = Ok (be, w') →
  ∃ ids,
    tokenizer_call (tokenizer enc) (map snd batch) ctx !! "input_ids"
    = Some ids ∧
    be = <["labels" := mask_pad (pad_token_id (tokenizer enc)) ids]>
           (Encoder_call enc (map fst batch)) ∧
    w' = log_call (TokenizerCall (map snd batch) ctx)
                  (log_call (EncoderCall (map fst batch)) w).
Proof.
  unfold encode_batch. destruct (_ !! "input_ids") as [ids|]; [|done].
  intros [= <- <-]. eauto.
Qed.

(** An encoded batch has the key [labels], so it is a true value. *)
Lemma encodes_truthy ds batch be : encodes ds batch be → truthy be = true.
Proof.
  intros (w & w' & Henc).
  apply encode_batch_Ok_inv in Henc as (ids & _ & -> & _).
  unfold truthy. rewrite bool_decide_eq_false_2; [done|].
  apply insert_non_empty.
Qed.

Lemma arrays_agree_init pairs enc b ctx use_cache shuf sd w ds w' :
  SummarizationDataset_init pairs enc b ctx use_cache shuf sd w = Ok (ds, w') →
  arrays_agree (initial_order ds) ds.
Proof.
  intros Hinit. apply init_Ok_inv in Hinit as (_ & _ & _ & ->).
  set (ts := sorted _ pairs). set (n := Z.to_nat _).
  assert (Horder : initial_order
            {| num_batches := n;
               text_batches := map (λ i, Obj (batch_at ts b i)) (seq 0 n);
               cached := if use_cache then Some (replicate n Int0) else None;
               encoder := enc; batch_size := b; context_size := ctx;
               shuffle := shuf; seed := sd; it := None |}
          = map (batch_at ts b) (seq 0 n)).
  { unfold initial_order. simpl.
    induction (seq 0 n) as [|a l IH]; csimpl; [done|]. by rewrite IH. }
  rewrite Horder. unfold arrays_agree. simpl.
  rewrite !length_map, length_seq. split_and!; [done..|].
  destruct use_cache.
  - rewrite length_replicate. split; [done|].
    intros i batch raw c Hb Hraw Hc.
    apply lookup_replicate in Hc as [-> _]. simpl.
    rewrite list_lookup_fmap in Hb. rewrite list_lookup_fmap in Hraw.
    destruct (seq 0 n !! i); simpl in *; congruence.
  - by rewrite map_map.
Qed.

(** A traversal that does not shuffle only resets the cursor. *)
Lemma iter_no_shuffle ds w :
  shuffle ds = false →
  SummarizationDataset_iter ds w = Ok (set_it (Some 0%nat) ds, w).
Proof. intros Hs. unfold SummarizationDataset_iter. simpl. by rewrite Hs. Qed.

(** A traversal that shuffles indexes the batch array and the cache
    array by the one permutation it draws. *)
Lemma iter_shuffle_inv ds w ds' w' :
  shuffle ds = true →
  SummarizationDataset_iter ds w = Ok (ds', w') →
  let p := (np_random_permutation (num_batches ds) w).1 in
  ∃ batches cache,
    fancy_index (text_batches ds) p = Ok batches ∧
    match cached ds with
    | Some c => ∃ c', fancy_index c p = Ok c' ∧ cache = Some c'
    | None => cache = None
    end ∧
    ds' = set_arrays batches cache (set_it (Some 0%nat) ds) ∧
    w' = (np_random_permutation (num_batches ds) w).2.
Proof.
  intros Hs Hiter p. unfold SummarizationDataset_iter in Hiter.
  simpl in Hiter. rewrite Hs in Hiter. subst p.
  destruct (np_random_permutation (num_batches ds) w) as [p w1]. simpl.
  destruct (fancy_index (text_batches ds) p) as [batches|] eqn:Hb; [|done].
  simpl in Hiter. destruct (cached ds) as [c|].
  - destruct (fancy_index c p) as [c'|] eqn:Hc; [|done].
    simpl in Hiter. simplify_eq. eauto 10.
  - simpl in Hiter. simplify_eq. eauto 10.
Qed.

Lemma np_random_permutation_perm n w :
  (np_random_permutation n w).1 ≡ₚ seq 0 n.
Proof.
  unfold np_random_permutation.
  pose proof (rng_permutation_perm (np_random w) n) as Hp.
  by destruct (rng_permutation (np_random w) n).
Qed.

Lemma arrays_agree_shuffle order order' ds w ds' w' :
  arrays_agree order ds →
  shuffle ds = true →
  SummarizationDataset_iter ds w = Ok (ds', w') →
  fancy_index order (np_random_permutation (num_batches ds) w).1 = Ok order' →
  arrays_agree order' ds'.
Proof.
  intros (Hlo & Hlb & Hc) Hs Hiter Ho.
  destruct (iter_shuffle_inv _ _ _ _ Hs Hiter)
    as (batches & cache & Hb & Hcache & -> & _).
  pose proof (np_random_permutation_perm (num_batches ds) w) as Hp.
  set (p := (np_random_permutation (num_batches ds) w).1) in *.
  assert (Hlp : length p = num_batches ds)
    by (by rewrite Hp, length_seq).
  apply fancy_index_Ok in Ho as [Hlo' Ho], Hb as [Hlb' Hb].
  unfold arrays_agree. simpl. split_and!; [congruence..|].
  destruct (cached ds) as [c|]; simplify_eq.
  - destruct Hc as [Hlc Hc]. destruct Hcache as (c' & Hc' & ->).
    apply fancy_index_Ok in Hc' as [Hlc' Hc']. split; [congruence|].
    intros i batch raw x Hi Hraw Hx.
    destruct (p !! i) as [j|] eqn:Hj.
    2: { apply lookup_ge_None in Hj. apply lookup_lt_Some in Hi. lia. }
    destruct (Ho _ _ Hj) as [Ho1 _], (Hb _ _ Hj) as [Hb1 _],
             (Hc' _ _ Hj) as [Hc1 _].
    rewrite Ho1 in Hi. rewrite Hb1 in Hraw. rewrite Hc1 in Hx.
    by apply (Hc j).
  - apply list_eq_same_length with (length p);
      [by rewrite length_map|done|].
    intros i x y Hi Hx Hy. rewrite list_lookup_fmap in Hy.
    destruct (p !! i) as [j|] eqn:Hj.
    2: { apply lookup_ge_None in Hj. lia. }
    destruct (Ho _ _ Hj) as [Ho1 _], (Hb _ _ Hj) as [Hb1 _].
    rewrite Ho1 in Hy. rewrite Hb1, Hc, list_lookup_fmap in Hx. congruence.
Qed.

(** The two ways a step returns a batch: from the cache, or encoded. *)
Definition next_hit (ds : SummarizationDataset) (w : world) (i : nat)
    (be : gmap string tensor) (ds' : SummarizationDataset) (w' : world)
  : Prop :=
  ∃ cache, cached ds = Some cache ∧ cache !! i = Some (Obj be) ∧
           truthy be = true ∧ ds' = set_it (Some (S i)) ds ∧ w' = w.

Definition next_miss (ds : SummarizationDataset) (w : world) (i : nat)
    (be : gmap string tensor) (ds' : SummarizationDataset) (w' : world)
  : Prop :=
  ∃ batch, text_batches ds !! i = Some (Obj batch) ∧
           cache_lookup ds i = Ok None ∧
           encode_batch (encoder ds) (context_size ds) batch w = Ok (be, w') ∧
           ds' = match cached ds with
                 | Some cache =>
                     set_arrays (<[i := Int0]> (text_batches ds))
                                (Some (<[i := Obj be]> cache))
                                (set_it (Some (S i)) ds)
                 | None => set_it (Some (S i)) ds
                 end.

Lemma next_Ok_inv ds w be ds' w' :
  SummarizationDataset_next ds w = Ok (be, ds', w') →
  ∃ i, it ds = Some i ∧ i ≠ num_batches ds ∧
       (next_hit ds w i be ds' w' ∨ next_miss ds w i be ds' w').
Proof.
  unfold SummarizationDataset_next. destruct (it ds) as [i|] eqn:Hit; [|done].
  case_bool_decide as Hi; [done|]. intros Hnext. exists i.
  split_and!; [done..|].
  assert (Hcl : cache_lookup (set_it (Some (S i)) ds) i = cache_lookup ds i)
    by done.
  rewrite Hcl in Hnext.
  destruct (cache_lookup ds i) as [[enc|]|e] eqn:Hlook; simpl in Hnext;
    [| |done].
  - left. simplify_eq. unfold cache_lookup in Hlook.
    destruct (cached ds) as [cache|] eqn:Hcd; [|done].
    destruct (cache !! i) as [[|enc]|] eqn:Hc; [done| |done].
    destruct (truthy enc) eqn:Ht; simplify_eq. by exists cache.
  - right.
    destruct (text_batches ds !! i) as [[|batch]|] eqn:Hraw;
      simpl in Hnext; [done| |done].
    destruct (encode_batch _ _ batch w) as [[be1 w1]|] eqn:Henc;
      simpl in Hnext; [|done].
    exists batch. split_and!; [done..| |].
    + by simplify_eq.
    + destruct (cached ds); by simplify_eq.
Qed.

Lemma encodes_set_it ds i batch be :
  encodes (set_it i ds) batch be ↔ encodes ds batch be.
Proof. done. Qed.

Lemma arrays_agree_set_it order ds i :
  arrays_agree order ds → arrays_agree order (set_it i ds).
Proof. done. Qed.

Lemma arrays_agree_next order ds w be ds' w' :
  arrays_agree order ds →
  SummarizationDataset_next ds w = Ok (be, ds', w') →
  arrays_agree order ds' ∧
  ∃ i batch, it ds = Some i ∧ order !! i = Some batch ∧ encodes ds batch be.
Proof.
  intros Hagree Hnext.
  destruct (next_Ok_inv _ _ _ _ _ Hnext) as (i & Hit & Hi & [Hhit|Hmiss]).
  - destruct Hhit as (cache & Hc & Hbe & Ht & -> & ->).
    split; [by apply arrays_agree_set_it|].
    destruct Hagree as (Hlo & Hlb & Hag). rewrite Hc in Hag.
    destruct Hag as [Hlc Hag].
    assert (i < num_batches ds)%nat as Hlt
      by (apply lookup_lt_Some in Hbe; lia).
    destruct (lookup_lt_is_Some_2 order i ltac:(lia)) as [batch Hb].
    destruct (lookup_lt_is_Some_2 (text_batches ds) i ltac:(lia))
      as [raw Hraw].
    exists i, batch. split_and!; [done..|].
    by destruct (Hag _ _ _ _ Hb Hraw Hbe).
  - destruct Hmiss as (batch & Hraw & Hlook & Henc & ->).
    destruct Hagree as (Hlo & Hlb & Hag).
    assert (i < num_batches ds)%nat as Hlt
      by (apply lookup_lt_Some in Hraw; lia).
    destruct (lookup_lt_is_Some_2 order i ltac:(lia)) as [batch' Hb].
    assert (Hsame : batch' = batch ∧
              ∀ j b r c, cached ds = Some c → order !! j = Some b →
                         <[i:=Int0]> (text_batches ds) !! j = Some r →
                         ∀ x, <[i:=Obj be]> c !! j = Some x →
                              slot_agrees ds b r x).
    { unfold cache_lookup in Hlook.
      destruct (cached ds) as [cache|] eqn:Hc.
      - destruct Hag as [Hlc Hag].
        destruct (cache !! i) as [[|enc]|] eqn:Hci; [| |done].
        + pose proof (Hag _ _ _ _ Hb Hraw Hci) as Hs. simpl in Hs.
          simplify_eq. split; [done|].
          intros j b r c [= <-] Hj Hr x Hx.
          destruct (decide (j = i)) as [->|Hne].
          * rewrite list_lookup_insert_eq in Hr by lia.
            rewrite list_lookup_insert_eq in Hx by lia.
            simplify_eq. simpl. split; [done|]. by exists w, w'.
          * rewrite list_lookup_insert_ne in Hr by done.
            rewrite list_lookup_insert_ne in Hx by done.
            by apply (Hag j).
        + destruct (Hag _ _ _ _ Hb Hraw Hci) as [_ Hs].
          apply encodes_truthy in Hs. rewrite Hs in Hlook. done.
      - rewrite Hag, list_lookup_fmap, Hb in Hraw. simpl in Hraw.
        split; [congruence|]. intros; done. }
    destruct Hsame as [-> Hslots].
    split; [|exists i, batch; split_and!; [done..|by exists w, w']].
    unfold arrays_agree.
    destruct (cached ds) as [cache|] eqn:Hc; simpl.
    + rewrite !length_insert. destruct Hag as [Hlc Hag].
      split_and!; [done..|]. intros j b r x Hj Hr Hx.
      by apply (Hslots j b r cache).
    + rewrite Hc. done.
Qed.

(** Every dataset a run can hold keeps the correspondence. *)
Lemma tracked_agree order ds : tracked order ds → arrays_agree order ds.
Proof.
  induction 1 as [pairs enc b ctx uc sh sd w ds w' Hinit
                 |order ds w ds' w' _ IH Hiter Hs
                 |order order' ds w ds' w' _ IH Hiter Hs Ho
                 |order ds w be ds' w' _ IH Hnext
                 |order ds w e i _ IH Hit Hnext He].
  - by eapply arrays_agree_init.
  - rewrite iter_no_shuffle in Hiter by done. simplify_eq.
    by apply arrays_agree_set_it.
  - by eapply arrays_agree_shuffle.
  - by eapply arrays_agree_next.
  - by apply arrays_agree_set_it.
Qed.

(** The batches by index are, in some order, the batches of a
    construction: a run moves batches, it never adds, drops or changes
    one. *)
Lemma tracked_order_perm order ds :
  tracked order ds →
  ∃ pairs enc b ctx use_cache shuf sd w ds0 w',
    SummarizationDataset_init pairs enc b ctx use_cache shuf sd w
    = Ok (ds0, w') ∧
    order ≡ₚ initial_order ds0.
Proof.
  induction 1 as [pairs enc b ctx uc sh sd w ds w' Hinit
                 |order ds w ds' w' _ IH Hiter Hs
                 |order order' ds w ds' w' Htr IH Hiter Hs Ho
                 |order ds w be ds' w' _ IH Hnext
                 |order ds w e i _ IH Hit Hnext He]; try done.
  - by exists pairs, enc, b, ctx, uc, sh, sd, w, ds, w'.
  - destruct IH as (pairs & enc & b & ctx & uc & sh & sd & w1 & ds0 & w1'
                    & Hinit & Hperm).
    exists pairs, enc, b, ctx, uc, sh, sd, w1, ds0, w1'. split; [done|].
    rewrite <- Hperm. eapply fancy_index_perm; [|exact Ho].
    destruct (tracked_agree _ _ Htr) as (-> & _).
    apply np_random_permutation_perm.
Qed.

(** C2: in every dataset a run can hold with caching enabled, the
    batches by index, the batch array and the cache array have one
    length; a populated cache slot holds the encoded form of the batch
    at its index, an empty one stands beside the stored pairs of that
    batch; and a shuffle succeeds and indexes the batch array, the
    cache array and the batches by index by one and the same
    permutation of the indices, so the correspondence goes on. *)
Theorem cache_follows_batches order ds cache :
  tracked order ds → cached ds = Some cache →
  (length order = num_batches ds ∧
   length (text_batches ds) = num_batches ds ∧
   length cache = num_batches ds) ∧
  (∀ i be, cache !! i = Some (Obj be) →
           ∃ batch, order !! i = Some batch ∧ encodes ds batch be) ∧
  (∀ i, cache !! i = Some Int0 →
        ∃ batch, order !! i = Some batch ∧
                 text_batches ds !! i = Some (Obj batch)) ∧
  (shuffle ds = true →
   ∀ w, ∃ p cache' order' ds' w',
     p ≡ₚ seq 0 (num_batches ds) ∧
     SummarizationDataset_iter ds w = Ok (ds', w') ∧
     fancy_index (text_batches ds) p = Ok (text_batches ds') ∧
     fancy_index cache p = Ok cache' ∧ cached ds' = Some cache' ∧
     fancy_index order p = Ok order' ∧ tracked order' ds').
Proof.
  intros Htr Hcache. pose proof (tracked_agree _ _ Htr) as (Hlo & Hlb & Hag).
  rewrite Hcache in Hag. destruct Hag as [Hlc Hag].
  assert (Hslot : ∀ i c, cache !! i = Some c →
            ∃ batch raw, order !! i = Some batch ∧
                         text_batches ds !! i = Some raw ∧
                         slot_agrees ds batch raw c).
  { intros i c Hc. pose proof (lookup_lt_Some _ _ _ Hc) as Hlt.
    destruct (lookup_lt_is_Some_2 order i ltac:(lia)) as [batch Hb].
    destruct (lookup_lt_is_Some_2 (text_batches ds) i ltac:(lia))
      as [raw Hraw].
    exists batch, raw. split_and!; [done..|]. by apply (Hag i). }
  split_and!; [done..| | |].
  - intros i be Hc. destruct (Hslot _ _ Hc) as (batch & raw & Hb & _ & Hs).
    exists batch. split; [done|]. by destruct Hs.
  - intros i Hc. destruct (Hslot _ _ Hc) as (batch & raw & Hb & Hraw & Hs).
    exists batch. simpl in Hs. by subst.
  - intros Hs w.
    pose proof (np_random_permutation_perm (num_batches ds) w) as Hp.
    set (p := (np_random_permutation (num_batches ds) w).1) in *.
    destruct (fancy_index_total (text_batches ds) p) as [batches Hb];
      [by rewrite Hlb|].
    destruct (fancy_index_total cache p) as [cache' Hc'];
      [by rewrite Hlc|].
    destruct (fancy_index_total order p) as [order' Ho];
      [by rewrite Hlo|].
    assert (Hiter : SummarizationDataset_iter ds w
              = Ok (set_arrays batches (Some cache') (set_it (Some 0%nat) ds),
                    (np_random_permutation (num_batches ds) w).2)).
    { unfold SummarizationDataset_iter. simpl. rewrite Hs. subst p.
      destruct (np_random_permutation (num_batches ds) w) as [q w1].
      simpl in *. rewrite Hb. simpl. rewrite Hcache. simpl.
      by rewrite Hc'. }
    exists p, cache', order'. eexists _, _.
    split_and!; [done|exact Hiter|done..|].
    by eapply tracked_shuffle.
Qed.

(** C4: for every batch a step returns, encoded on the spot or read
    from the cache, the field [labels] has the shape of the padded and
    truncated ids the tokenizer gives for the summaries of the batch at
    that position, with -100 wherever the id is the pad id and the id
    itself everywhere else. *)
Theorem labels_mask_pad_ids order ds w be ds' w' :
  tracked order ds →
  SummarizationDataset_next ds w = Ok (be, ds', w') →
  ∃ i batch ids labels,
    it ds = Some i ∧ order !! i = Some batch ∧
    tokenizer_call (tokenizer (encoder ds)) (map snd batch) (context_size ds)
      !! "input_ids" = Some ids ∧
    be !! "labels" = Some labels ∧
    length labels = length ids ∧
    ∀ r row, ids !! r = Some row →
      ∃ lrow, labels !! r = Some lrow ∧ length lrow = length row ∧
        ∀ c id, row !! c = Some id →
          lrow !! c
          = Some (if bool_decide (id = pad_token_id (tokenizer (encoder ds)))
                  then -100 else id).
Proof.
  intros Htr Hnext. apply tracked_agree in Htr.
  destruct (arrays_agree_next _ _ _ _ _ _ Htr Hnext)
    as (_ & i & batch & Hit & Hb & (w0 & w0' & Henc)).
  apply encode_batch_Ok_inv in Henc as (ids & Hids & -> & _).
  exists i, batch, ids, (mask_pad (pad_token_id (tokenizer (encoder ds))) ids).
  split_and!; [done..|by rewrite lookup_insert_eq| |].
  - unfold mask_pad. by rewrite length_map.
  - intros r row Hr. unfold mask_pad. eexists. split_and!.
    + rewrite list_lookup_fmap. by erewrite (f_equal (fmap _) Hr).
    + by rewrite length_map.
    + intros c id Hc. rewrite list_lookup_fmap, Hc. simpl. f_equal.
      case_bool_decide as Hid.
      * by rewrite (proj2 (Z.eqb_eq _ _) Hid).
      * by rewrite (proj2 (Z.eqb_neq _ _) Hid).
Qed.

(** A full traversal, as [for inputs in dataset] runs it: [__iter__],
    then [__next__] until it raises [StopIteration]. *)
Inductive traversal : Type :=
  | Traversed (out : list (gmap string tensor))
              (ds : SummarizationDataset) (w : world)
  | TraversalRaised (e : pyexc)
  | TraversalNoFuel.

Fixpoint collect (fuel : nat) (ds : SummarizationDataset) (w : world)
    (out : list (gmap string tensor)) : traversal :=
  match fuel with
  | O => TraversalNoFuel
  | S fuel' =>
      match SummarizationDataset_next ds w with
      | Raise e =>
          if is_StopIteration e then Traversed out ds w
          else TraversalRaised e
      | Ok (be, ds, w) => collect fuel' ds w (out ++ [be])
      end
  end.

Definition traverse (ds : SummarizationDataset) (w : world) : traversal :=
  match SummarizationDataset_iter ds w with
  | Raise e => TraversalRaised e
  | Ok (ds, w) => collect (S (num_batches ds)) ds w []
  end.

Lemma next_StopIteration_inv ds w e :
  SummarizationDataset_next ds w = Raise e → is_StopIteration e = true →
  it ds = None ∨ it ds = Some (num_batches ds).
Proof.
  unfold SummarizationDataset_next. intros Hnext He.
  destruct (it ds) as [i|]; [|by left].
  case_bool_decide as Hi; [subst; by right|].
  exfalso.
  destruct (cache_lookup _ i) as [[enc|]|e1] eqn:Hlook; simpl in Hnext.
  - done.
  - destruct (text_batches _ !! i) as [[|batch]|]; simpl in Hnext;
      [by simplify_eq| |by simplify_eq].
    unfold encode_batch in Hnext.
    destruct (_ !! "input_ids"); simpl in Hnext; [|by simplify_eq].
    destruct (cached _); done.
  - simplify_eq. unfold cache_lookup in Hlook.
    destruct (cached _) as [cache|]; [|done].
    destruct (cache !! i) as [[|enc]|]; [done..|]. by simplify_eq.
Qed.

(** What a step keeps: the size, the flags, the length of the cache,
    the cache slots before the cursor; and what it leaves at the
    cursor. *)
Lemma next_cache_step ds w be ds' w' i cache :
  SummarizationDataset_next ds w = Ok (be, ds', w') →
  it ds = Some i → cached ds = Some cache →
  ∃ cache', cached ds' = Some cache' ∧ it ds' = Some (S i) ∧
            num_batches ds' = num_batches ds ∧ shuffle ds' = shuffle ds ∧
            length cache' = length cache ∧ take i cache' = take i cache ∧
            cache' !! i = Some (Obj be) ∧ truthy be = true ∧
            (∀ j x, j ≠ i → cache !! j = Some x → cache' !! j = Some x).
Proof.
  intros Hnext Hit Hc.
  destruct (next_Ok_inv _ _ _ _ _ Hnext) as (i' & Hit' & Hi & [Hhit|Hmiss]);
    rewrite Hit in Hit'; simplify_eq.
  - destruct Hhit as (cache0 & Hc0 & Hbe & Ht & -> & ->).
    rewrite Hc in Hc0. simplify_eq. exists cache0. by split_and!.
  - destruct Hmiss as (batch & Hraw & Hlook & Henc & ->). rewrite Hc.
    assert (i' < length cache)%nat as Hlt.
    { unfold cache_lookup in Hlook. rewrite Hc in Hlook.
      destruct (cache !! i') eqn:Hci; [|done].
      by apply lookup_lt_Some in Hci. }
    exists (<[i' := Obj be]> cache). simpl.
    split_and!; [done..|by rewrite length_insert| | | |].
    + by rewrite take_insert_ge.
    + by apply list_lookup_insert_eq.
    + eapply encodes_truthy. by exists w, w'.
    + intros j x Hj Hx. by rewrite list_lookup_insert_ne.
Qed.

Lemma collect_fills fuel : ∀ ds w acc out ds1 w1 i cache,
  cached ds = Some cache → length cache = num_batches ds → it ds = Some i →
  collect fuel ds w acc = Traversed out ds1 w1 →
  ∃ cache1 bes,
    cached ds1 = Some cache1 ∧ it ds1 = Some (num_batches ds) ∧
    num_batches ds1 = num_batches ds ∧ shuffle ds1 = shuffle ds ∧
    length cache1 = length cache ∧ take i cache1 = take i cache ∧
    drop i cache1 = map Obj bes ∧ Forall (λ be, truthy be = true) bes ∧
    out = acc ++ bes.
Proof.
  induction fuel as [|fuel IH]; intros ds w acc out ds1 w1 i cache
    Hc Hlc Hit Hcol; [done|].
  simpl in Hcol.
  destruct (SummarizationDataset_next ds w) as [[[be ds'] w']|e] eqn:Hnext.
  - destruct (next_cache_step _ _ _ _ _ _ _ Hnext Hit Hc)
      as (cache' & Hc' & Hit' & Hn' & Hs' & Hl' & Htake & Hbe & Ht & _).
    destruct (IH _ _ _ _ _ _ _ _ Hc' ltac:(congruence) Hit' Hcol)
      as (cache1 & bes & Hc1 & Hit1 & Hn1 & Hs1 & Hl1 & Ht1 & Hd1 & Hall & ->).
    exists cache1, (be :: bes).
    assert (cache1 !! i = Some (Obj be)) as Hi1.
    { rewrite <- (lookup_take_lt cache1 (S i) i) by lia.
      rewrite Ht1, lookup_take_lt by lia. done. }
    split_and!; [done|congruence..| | | |].
    + rewrite <- Htake. apply (f_equal (take i)) in Ht1.
      by rewrite !take_take, Nat.min_l in Ht1 by lia.
    + rewrite (drop_S _ _ _ Hi1), Hd1. done.
    + by constructor.
    + by rewrite <- app_assoc.
  - destruct (is_StopIteration e) eqn:He; [|done]. simplify_eq.
    destruct (next_StopIteration_inv _ _ _ Hnext He) as [Hn|Hn];
      rewrite Hit in Hn; simplify_eq.
    exists cache, []. rewrite app_nil_r.
    split_and!; [done..| |constructor|done].
    by rewrite drop_ge by lia.
Qed.

Lemma set_it_same ds i : it ds = i → set_it i ds = ds.
Proof. intros <-. by destruct ds. Qed.

Lemma collect_hits fuel : ∀ ds w acc i bes,
  cached ds = Some (map Obj bes) → Forall (λ be, truthy be = true) bes →
  length bes = num_batches ds → it ds = Some i →
  (i ≤ num_batches ds)%nat → (num_batches ds - i < fuel)%nat →
  collect fuel ds w acc
  = Traversed (acc ++ drop i bes) (set_it (Some (num_batches ds)) ds) w.
Proof.
  induction fuel as [|fuel IH]; intros ds w acc i bes Hc Hall Hlen Hit Hi Hf;
    [lia|].
  simpl. unfold SummarizationDataset_next. rewrite Hit.
  case_bool_decide as Hin.
  - subst i. simpl. rewrite drop_ge, app_nil_r by lia.
    by rewrite set_it_same.
  - destruct (lookup_lt_is_Some_2 bes i ltac:(lia)) as [be Hbe].
    assert (Hlook : cache_lookup (set_it (Some (S i)) ds) i = Ok (Some be)).
    { unfold cache_lookup. simpl. rewrite Hc, list_lookup_fmap, Hbe. simpl.
      rewrite Forall_forall in Hall.
      rewrite (Hall be); [done|]. apply list_elem_of_lookup. eauto. }
    rewrite Hlook. simpl.
    rewrite (IH _ _ _ (S i) bes) by (done || simpl; lia).
    simpl. rewrite (drop_S _ _ _ Hbe), <- app_assoc. done.
Qed.

(** C5: in a dataset a run can hold with caching enabled and shuffling
    disabled, after a full traversal has returned, a further full
    traversal returns the same encoded batches position by position,
    and the world it returns is the world it was given: the record of
    calls has no new call to the encoder or the tokenizer. *)
Theorem second_traversal_hits_cache order ds cache w out1 ds1 w1 :
  tracked order ds → cached ds = Some cache → shuffle ds = false →
  traverse ds w = Traversed out1 ds1 w1 →
  length out1 = num_batches ds ∧
  ∀ w2, traverse ds1 w2 = Traversed out1 ds1 w2.
Proof.
  intros Htr Hc Hs Htrav.
  pose proof (tracked_agree _ _ Htr) as (_ & _ & Hag).
  rewrite Hc in Hag. destruct Hag as [Hlc _].
  unfold traverse in Htrav. rewrite iter_no_shuffle in Htrav by done.
  destruct (collect_fills _ (set_it (Some 0%nat) ds) _ _ _ _ _ 0%nat cache
                          Hc Hlc eq_refl Htrav)
    as (cache1 & bes & Hc1 & Hit1 & Hn1 & Hs1 & Hl1 & _ & Hd1 & Hall & ->).
  rewrite drop_0 in Hd1. subst cache1. simpl in *.
  rewrite length_map in Hl1. split; [lia|]. intros w2.
  unfold traverse. rewrite iter_no_shuffle by congruence.
  rewrite (collect_hits _ (set_it (Some 0%nat) ds1) _ _ 0%nat bes);
    simpl; [|done|done|lia|done|lia|lia].
  rewrite drop_0. f_equal. destruct ds1; simpl in *; by subst.
Qed.

(** *** Shuffling and the seed *)

(** The operations of a run on one dataset. *)
Inductive op : Type := DoIter | DoNext.

(** A run that touches the random state only through the dataset:
    each [DoIter] starts a traversal, each [DoNext] takes a step (an
    exhausted traversal yields nothing).  It returns the batches
    yielded, the dataset and the world. *)
Fixpoint run_ops (ops : list op) (ds : SummarizationDataset) (w : world)
    (out : list (gmap string tensor))
  : result (list (gmap string tensor) * SummarizationDataset * world) :=
  match ops with
  | [] => Ok (out, ds, w)
  | DoIter :: ops' =>
      match SummarizationDataset_iter ds w with
      | Raise e => Raise e
      | Ok (ds, w) => run_ops ops' ds w out
      end
  | DoNext :: ops' =>
      match SummarizationDataset_next ds w with
      | Raise e =>
          if is_StopIteration e then run_ops ops' ds w out else Raise e
      | Ok (be, ds, w) => run_ops ops' ds w (out ++ [be])
      end
  end.

(** What of a run concerns the order of the batches: the batches
    yielded, the arrays of the dataset and the random state. *)
Definition ordering
    (r : result (list (gmap string tensor) * SummarizationDataset * world))
  : result (list (gmap string tensor) * SummarizationDataset * rng_state) :=
  match r with
  | Ok (out, ds, w) => Ok (out, ds, np_random w)
  | Raise e => Raise e
  end.

Lemma iter_random_state ds w1 w2 :
  np_random w1 = np_random w2 →
  match SummarizationDataset_iter ds w1, SummarizationDataset_iter ds w2 with
  | Ok (d1, w1'), Ok (d2, w2') => d1 = d2 ∧ np_random w1' = np_random w2'
  | Raise e1, Raise e2 => e1 = e2
  | _, _ => False
  end.
Proof.
  intros Hg. unfold SummarizationDataset_iter, np_random_permutation.
  simpl. destruct (shuffle ds); [|done]. rewrite Hg.
  destruct (rng_permutation (np_random w2) (num_batches ds)) as [p g].
  destruct (fancy_index (text_batches ds) p); simpl; [|done].
  destruct (cached ds) as [c|]; simpl; [|done].
  destruct (fancy_index c p); simpl; done.
Qed.

Lemma next_random_state ds w1 w2 :
  match SummarizationDataset_next ds w1, SummarizationDataset_next ds w2 with
  | Ok (b1, d1, w1'), Ok (b2, d2, w2') =>
      b1 = b2 ∧ d1 = d2 ∧
      np_random w1' = np_random w1 ∧ np_random w2' = np_random w2
  | Raise e1, Raise e2 => e1 = e2
  | _, _ => False
  end.
Proof.
  unfold SummarizationDataset_next. destruct (it ds) as [i|]; [|done].
  case_bool_decide; [done|].
  destruct (cache_lookup _ i) as [[enc|]|e]; simpl; [done| |done].
  destruct (text_batches _ !! i) as [[|batch]|]; simpl; [done| |done].
  unfold encode_batch.
  destruct (_ !! "input_ids"); simpl; [|done].
  destruct (cached _); simpl; done.
Qed.

Lemma run_ops_random_state ops : ∀ ds w1 w2 out,
  np_random w1 = np_random w2 →
  ordering (run_ops ops ds w1 out) = ordering (run_ops ops ds w2 out).
Proof.
  induction ops as [|[|] ops IH]; intros ds w1 w2 out Hg; simpl.
  - by rewrite Hg.
  - pose proof (iter_random_state ds w1 w2 Hg) as Hi.
    destruct (SummarizationDataset_iter ds w1) as [[d1 w1']|e1],
             (SummarizationDataset_iter ds w2) as [[d2 w2']|e2];
      try done.
    + destruct Hi as [-> Hg']. by apply IH.
    + by subst.
  - pose proof (next_random_state ds w1 w2) as Hn.
    destruct (SummarizationDataset_next ds w1) as [[[b1 d1] w1']|e1],
             (SummarizationDataset_next ds w2) as [[[b2 d2] w2']|e2];
      try done.
    + destruct Hn as (-> & -> & Hg1 & Hg2). apply IH. congruence.
    + subst. destruct (is_StopIteration e2); [by apply IH|done].
Qed.

(** On an array without repetition, two index lists that give the same
    array are the same list. *)
Lemma fancy_index_inj {A} (arr out : list A) (p q : list nat) :
  NoDup arr → fancy_index arr p = Ok out → fancy_index arr q = Ok out →
  p = q.
Proof.
  intros Hnd Hp Hq.
  apply fancy_index_Ok in Hp as [Hlp Hp], Hq as [Hlq Hq].
  apply list_eq_same_length with (length out); [done..|].
  intros i j1 j2 Hi Hj1 Hj2.
  destruct (Hp _ _ Hj1) as [Heq1 [x Hx]], (Hq _ _ Hj2) as [Heq2 [y Hy]].
  rewrite Heq1, Hx in Heq2. rewrite Hy in Heq2. simplify_eq.
  by eapply NoDup_lookup.
Qed.

(** C6, as the code has it: construction seeds the one random state of
    the process, and a shuffle draws from it.  Two datasets built from
    the same pairs with the same integer seed, whatever the worlds they
    are built in, are equal and leave the same random state; so, as
    long as the random state is used by the operations of the dataset
    only, the two runs yield the same batches in the same order.  When
    the random state has been used or seeded anew before the first
    traversal of a shuffling dataset whose batches are all different,
    the traversal has the order of the undisturbed one exactly when
    the state it finds draws the same permutation. *)
Theorem same_seed_same_ordering
    pairs enc b ctx use_cache shuf s wA wB dsA wA' dsB wB' :
  SummarizationDataset_init pairs enc b ctx use_cache shuf (Some s) wA
  = Ok (dsA, wA') →
  SummarizationDataset_init pairs enc b ctx use_cache shuf (Some s) wB
  = Ok (dsB, wB') →
  dsA = dsB ∧ np_random wA' = rng_seed s ∧ np_random wB' = rng_seed s ∧
  (∀ ops,
     ordering (run_ops ops dsA wA' []) = ordering (run_ops ops dsB wB' [])) ∧
  (shuf = true → NoDup (text_batches dsA) →
   ∀ w d1 w1 d2 w2,
     SummarizationDataset_iter dsA wA' = Ok (d1, w1) →
     SummarizationDataset_iter dsA w = Ok (d2, w2) →
     (text_batches d1 = text_batches d2
      ↔ (rng_permutation (rng_seed s) (num_batches dsA)).1
        = (rng_permutation (np_random w) (num_batches dsA)).1)).
Proof.
  intros HA HB.
  apply init_Ok_inv in HA as (_ & _ & HsA & ->).
  apply init_Ok_inv in HB as (_ & _ & HsB & ->).
  assert (Hseed : ∀ w w', np_random_seed (Some s) w = Ok w' →
                          np_random w' = rng_seed s).
  { intros w w'. unfold np_random_seed.
    destruct (_ && _); [|done]. by intros [= <-]. }
  apply Hseed in HsA, HsB. split_and!; [done..| |].
  - intros ops. apply run_ops_random_state. congruence.
  - intros -> Hnd w d1 w1 d2 w2 H1 H2.
    apply iter_shuffle_inv in H1 as (b1 & c1 & Hb1 & _ & -> & _); [|done].
    apply iter_shuffle_inv in H2 as (b2 & c2 & Hb2 & _ & -> & _); [|done].
    unfold np_random_permutation in Hb1, Hb2. simpl in *.
    rewrite HsA in Hb1.
    destruct (rng_permutation (rng_seed s) _) as [p1 g1].
    destruct (rng_permutation (np_random w) _) as [p2 g2]. simpl in *.
    split.
    + intros <-. by eapply fancy_index_inj.
    + intros <-. congruence.
Qed.

End Iteration.

(** *** The random state is shared *)

Section SeedSharing.
Context `{NumpyRandom}.

(** The reading of C6 with a source of its own for each dataset: two
    datasets built from the same pairs with the same seed give the same
    order at their first traversal, also when another dataset is built
    between the construction of the second one and its traversal. *)
Definition seed_alone_fixes_order : Prop :=
  ∀ pairs enc b ctx use_cache s wA wB dsA wA' dsB wB'
    pairs2 enc2 b2 ctx2 use_cache2 shuf2 seed2 ds2 wB1 dsA1 wA2 dsB1 wB2,
    SummarizationDataset_init pairs enc b ctx use_cache true (Some s) wA
    = Ok (dsA, wA') →
    SummarizationDataset_init pairs enc b ctx use_cache true (Some s) wB
    = Ok (dsB, wB') →
    SummarizationDataset_init pairs2 enc2 b2 ctx2 use_cache2 shuf2 seed2 wB'
    = Ok (ds2, wB1) →
    SummarizationDataset_iter dsA wA' = Ok (dsA1, wA2) →
    SummarizationDataset_iter dsB wB1 = Ok (dsB1, wB2) →
    text_batches dsA1 = text_batches dsB1.

Lemma sorted_equal_keys {A} (key : A → nat) (c : nat) (l : list A) :
  Forall (λ x, key x = c) l → sorted key l = l.
Proof.
  unfold sorted. induction 1 as [|x l Hx Hl IH]; simpl; [done|].
  rewrite IH. destruct Hl as [|y l Hy Hl]; simpl; [done|].
  by rewrite Hx, Hy, Nat.leb_refl.
Qed.

(** [n] pairs with one text and [n] different summaries. *)
Definition numbered_pairs (n : nat) : list Pair :=
  map (λ i : nat, (EmptyString, pretty i)) (seq 0 n).

Lemma numbered_batches (n : nat) :
  map (λ i, Obj (batch_at (numbered_pairs n) 1 i)) (seq 0 n)
  = map (λ i : nat, Obj [(EmptyString, pretty i)]) (seq 0 n).
Proof.
  apply map_ext_in. intros i Hi. apply in_seq in Hi. f_equal.
  rewrite batch_at_inside
    by (unfold numbered_pairs; rewrite ?length_map, ?length_seq; lia).
  assert (numbered_pairs n !! i = Some (EmptyString, pretty i)) as Hl.
  { unfold numbered_pairs. rewrite list_lookup_fmap.
    rewrite (proj2 (lookup_seq 0 n i i)) by lia. done. }
  replace (i * Z.to_nat 1)%nat with i by lia.
  by rewrite (drop_S _ _ _ Hl).
Qed.

Lemma numbered_batches_NoDup (n : nat) :
  NoDup (map (λ i : nat, Obj [(EmptyString, pretty i)] :
                         slot (list Pair)) (seq 0 n)).
Proof.
  apply (NoDup_fmap_2_strong _ (seq 0 n)); [|apply NoDup_seq].
  intros i j _ _ [= Hij]. by apply (inj pretty) in Hij.
Qed.

Definition idle_encoder : Encoder :=
  {| tokenizer := {| pad_token_id := 0; tokenizer_call := λ _ _, ∅ |};
     preprocessor := None;
     generate_encodings := λ _, ∅ |}.

Definition idle_world (g : rng_state) : world :=
  {| np_random := g; os_entropy := λ _, g; entropy_drawn := 0;
     perf_clock := λ _, 0%Q; clock_reads := 0; calls := [];
     stdout := [] |}.

(** Whatever the generator: if two seeds give two different
    permutations of some length, building a dataset with the second
    seed changes the order the dataset built with the first seed
    shows. *)
Lemma shared_state_changes_order (s1 s2 : Z) (n : nat) :
  0 ≤ s1 < 2 ^ 32 → 0 ≤ s2 < 2 ^ 32 →
  (rng_permutation (rng_seed s1) n).1 ≠ (rng_permutation (rng_seed s2) n).1 →
  ¬ seed_alone_fixes_order.
Proof.
  intros Hs1 Hs2 Hdiff Hclaim.
  set (w0 := idle_world (rng_seed 0)).
  set (w1 := set_np_random (rng_seed s1) w0).
  set (w2 := set_np_random (rng_seed s2) w1).
  assert (Hseed : ∀ s w, 0 ≤ s < 2 ^ 32 →
            np_random_seed (Some s) w = Ok (set_np_random (rng_seed s) w)).
  { intros s w Hs. unfold np_random_seed.
    destruct (0 <=? s) eqn:E1; [|apply Z.leb_gt in E1; lia].
    destruct (s <? 2 ^ 32) eqn:E2; [done|apply Z.ltb_ge in E2; lia]. }
  destruct (init_positive_Ok (numbered_pairs n) idle_encoder 1 0 false true
              (Some s1) w0 w1 ltac:(lia) (Hseed _ _ Hs1)) as [ds Hinit].
  destruct (init_positive_Ok [] idle_encoder 1 0 false false (Some s2) w1 w2
              ltac:(lia) (Hseed _ _ Hs2)) as [ds2 Hinit2].
  pose proof (init_Ok_inv _ _ _ _ _ _ _ _ _ _ Hinit) as (_ & _ & _ & Hds).
  rewrite sorted_equal_keys with (c := 0%nat) in Hds.
  2: { unfold numbered_pairs. apply Forall_fmap, Forall_forall. done. }
  assert (Hn : Z.to_nat (Z.of_nat (length (numbered_pairs n)) / 1) = n).
  { unfold numbered_pairs. rewrite length_map, length_seq, Z.div_1_r. lia. }
  rewrite Hn, numbered_batches in Hds.
  assert (Hiter : ∀ w, ∃ out,
            fancy_index (text_batches ds)
                        (np_random_permutation (num_batches ds) w).1 = Ok out ∧
            SummarizationDataset_iter ds w
            = Ok (set_arrays out None (set_it (Some 0%nat) ds),
                  (np_random_permutation (num_batches ds) w).2)).
  { intros w.
    destruct (fancy_index_total (text_batches ds)
                (np_random_permutation (num_batches ds) w).1) as [out Hout].
    { rewrite np_random_permutation_perm. subst ds. simpl.
      by rewrite length_map, length_seq. }
    exists out. split; [done|].
    unfold SummarizationDataset_iter.
    assert (shuffle (set_it (Some 0%nat) ds) = true) as -> by (by subst ds).
    assert (cached (set_it (Some 0%nat) ds) = None) as Hc by (by subst ds).
    change (text_batches (set_it (Some 0%nat) ds)) with (text_batches ds).
    change (num_batches (set_it (Some 0%nat) ds)) with (num_batches ds).
    destruct (np_random_permutation (num_batches ds) w) as [p w'].
    simpl in *. rewrite Hout. simpl. by rewrite Hc. }
  destruct (Hiter w1) as (out1 & Hout1 & Hiter1).
  destruct (Hiter w2) as (out2 & Hout2 & Hiter2).
  pose proof (Hclaim _ _ _ _ _ _ _ _ _ _ _ _ _ _ _ _ _ _ _ _ _ _ _ _ _
                Hinit Hinit Hinit2 Hiter1 Hiter2) as Hsame.
  simpl in Hsame. subst out2. apply Hdiff.
  assert (Hnb : num_batches ds = n) by (by subst ds).
  rewrite Hnb in Hout1, Hout2.
  unfold np_random_permutation in Hout1, Hout2. simpl in Hout1, Hout2.
  destruct (rng_permutation (rng_seed s1) n) as [p1 g1].
  destruct (rng_permutation (rng_seed s2) n) as [p2 g2]. simpl in *.
  eapply fancy_index_inj; [|exact Hout1|exact Hout2].
  subst ds. simpl. apply numbered_batches_NoDup.
Qed.

End SeedSharing.

(** ** Evaluator *)

Section Evaluation.
Context `{NumpyRandom}.

Lemma run_pipelines_calls ps : ∀ index txts acc times w,
  let '(out, _, w') := run_pipelines ps index txts acc times w in
  calls w' = calls w ++ map (λ i, PipelineCall i txts) (seq index (length ps))
  ∧ out = acc ++ mjoin (map (λ p : pipeline, p txts) ps)
  ∧ np_random w' = np_random w ∧ stdout w' = stdout w.
Proof.
  induction ps as [|p ps IH]; intros index txts acc times w; simpl.
  - by rewrite !app_nil_r.
  - specialize (IH (S index) txts (acc ++ p txts)
                   (times ++ [((perf_clock w (S (clock_reads w))
                                - perf_clock w (clock_reads w)) * 1000)%Q])
                   (perf_counter (log_call (PipelineCall index txts)
                                           (perf_counter w).2)).2).
    simpl in *.
    destruct (run_pipelines ps (S index) txts _ _ _) as [[out tt] w'].
    destruct IH as (Hc & -> & Hg & Hs). simpl in *.
    rewrite Hc, <- !app_assoc. done.
Qed.

(** What [get_bertscore] does to the evaluator and the record of calls
    when no summary has been generated yet. *)
Lemma get_bertscore_fresh ev w :
  generated_summaries ev = [] →
  let '(r, ev', w') := get_bertscore ev w in
  let p := length (pipelines ev) in
  calls w' = calls w ++ map (λ i, PipelineCall i (texts ev)) (seq 0 p) ∧
  generated_summaries ev'
  = mjoin (map (λ f : pipeline, f (texts ev)) (pipelines ev)) ∧
  summaries ev' = list_imul (summaries ev) p ∧
  r = (metrics ← bert_scorer ev (generated_summaries ev') (summaries ev');
       result_mapM (row_means p) metrics).
Proof.
  intros Hgen. unfold get_bertscore, generate_summaries. rewrite Hgen.
  pose proof (run_pipelines_calls (pipelines ev) 0 (texts ev) [] []
                (print "Generating summaries" w)) as Hrun.
  destruct (run_pipelines _ _ _ _ _ _) as [[out tt] w1].
  destruct Hrun as (Hc & -> & _). simpl in *. done.
Qed.

Lemma length_chunks {A} rows width (l : list A) :
  length (chunks rows width l) = rows.
Proof. revert l. induction rows; intros; simpl; [done|]. by rewrite IHrows. Qed.

Lemma row_means_length p metric means :
  row_means p metric = Ok means → length means = p.
Proof.
  unfold row_means, reshape_rows. repeat case_bool_decide; try done.
  simpl. intros [= <-]. by rewrite length_map, length_chunks.
Qed.

Lemma row_means_total p metric :
  (0 < p)%nat → (length metric mod p = 0)%nat →
  ∃ means, row_means p metric = Ok means.
Proof.
  intros Hp Hmod. unfold row_means, reshape_rows.
  repeat case_bool_decide; try lia. simpl. eauto.
Qed.

Lemma result_mapM_Forall {A B} (f : A → result B) (P : B → Prop) l out :
  (∀ x y, f x = Ok y → P y) → result_mapM f l = Ok out → Forall P out.
Proof.
  intros Hf. revert out. induction l as [|x l IH]; intros out; simpl.
  - intros [= <-]. constructor.
  - destruct (f x) as [y|] eqn:Hy; simpl; [|done].
    destruct (result_mapM f l) as [ys|]; simpl; [|done].
    intros [= <-]. constructor; eauto.
Qed.

Lemma result_mapM_total {A B} (f : A → result B) l :
  Forall (λ x, ∃ y, f x = Ok y) l → ∃ out, result_mapM f l = Ok out.
Proof.
  induction 1 as [|x l [y Hy] _ [ys Hys]]; simpl; [eauto|].
  rewrite Hy. simpl. rewrite Hys. simpl. eauto.
Qed.

Lemma length_join_const {A} (ls : list (list A)) n :
  Forall (λ l, length l = n) ls → length (mjoin ls) = (length ls * n)%nat.
Proof.
  induction 1 as [|l ls Hl _ IH]; simpl; [done|].
  rewrite length_app, IH, Hl. lia.
Qed.

(** The contract of the similarity scorer: one value per pair of a
    candidate and a reference, in each metric. *)
Definition scorer_per_pair
    (scorer : list string → list string → result (list (list Q))) : Prop :=
  ∀ cands refs, length cands = length refs →
    ∃ metrics, scorer cands refs = Ok metrics ∧
               Forall (λ m, length m = length cands) metrics.

(** C10: when no summary has been generated yet, [get_bertscore] calls
    each registered pipeline exactly once, in order, on the held-out
    texts, and the summaries it scores are the outputs of these calls;
    every list of per-pipeline means it returns has as many
    entries as there are pipelines; and it does return them when there
    is at least one pipeline, each pipeline gives one summary per text,
    there is one reference per text, and the scorer gives one value per
    pair (with no text at all the means are nan). *)
Theorem get_bertscore_generates_once ev w :
  generated_summaries ev = [] →
  let '(r, ev', w') := get_bertscore ev w in
  let p := length (pipelines ev) in
  calls w' = calls w ++ map (λ i, PipelineCall i (texts ev)) (seq 0 p) ∧
  generated_summaries ev'
  = mjoin (map (λ f : pipeline, f (texts ev)) (pipelines ev)) ∧
  (∀ metrics, r = Ok metrics → Forall (λ m, length m = p) metrics) ∧
  ((0 < p)%nat →
   length (summaries ev) = length (texts ev) →
   Forall (λ f : pipeline, length (f (texts ev)) = length (texts ev))
          (pipelines ev) →
   scorer_per_pair (bert_scorer ev) →
   ∃ metrics, r = Ok metrics).
Proof.
  intros Hgen. pose proof (get_bertscore_fresh ev w Hgen) as Hfresh.
  destruct (get_bertscore ev w) as [[r ev'] w'].
  destruct Hfresh as (Hcalls & Hg & Hs & ->). simpl.
  split_and!; [done|done| |].
  - intros metrics Hr.
    destruct (bert_scorer ev _ _) as [ms|]; simpl in Hr; [|done].
    eapply result_mapM_Forall; [|done].
    intros m means. apply row_means_length.
  - intros Hp Hrefs Hpipes Hscorer.
    set (n := length (texts ev)) in *. set (p := length (pipelines ev)) in *.
    assert (Hlg : length (generated_summaries ev') = (p * n)%nat).
    { rewrite Hg. erewrite length_join_const.
      - by rewrite length_map.
      - by apply Forall_fmap. }
    assert (Hlr : length (summaries ev') = (p * n)%nat).
    { rewrite Hs. unfold list_imul. erewrite length_join_const.
      - by rewrite length_replicate.
      - apply Forall_replicate. done. }
    destruct (Hscorer (generated_summaries ev') (summaries ev'))
      as (ms & -> & Hms); [congruence|]. simpl.
    apply result_mapM_total. eapply Forall_impl; [exact Hms|].
    simpl. intros m Hm. apply row_means_total; [done|].
    rewrite Hm, Hlg, Nat.mul_comm. apply Nat.Div0.mod_mul.
Qed.

(** The references after [get_bertscore]: the list the evaluator holds
    has been repeated in place, once per pipeline; the texts and the
    pipelines are as before. *)
Lemma get_bertscore_frame ev w :
  let '(_, ev', _) := get_bertscore ev w in
  summaries ev' = list_imul (summaries ev) (length (pipelines ev)) ∧
  texts ev' = texts ev ∧ pipelines ev' = pipelines ev.
Proof.
  unfold get_bertscore, generate_summaries.
  destruct (generated_summaries ev); [|done].
  destruct (run_pipelines _ _ _ _ _ _) as [[out tt] w1]. done.
Qed.

End Evaluation.

(** ** train_model *)

Section TrainingLoop.
Context `{NumpyRandom} {T : Type}.
Variable show_float : Q → string.
Variable show_round : Q → Z → string.
Variable tr : @Trainer T.
Variables (epochs flt_prec : Z) (nb : nat).

Local Notation step := (batch_step show_float show_round tr).
Local Notation batches := (train_batches show_float show_round).
Local Notation loop_state := (Q * Q * T * SummarizationDataset * world)%type.

(** The loss of the batch the next turn of the inner loop processes. *)
Definition batch_loss (t : T) (ds : SummarizationDataset) (w : world)
  : option Q :=
  match SummarizationDataset_next ds w with
  | Raise _ => None
  | Ok (inputs, _, w) =>
      match process_batch tr t inputs w with
      | (Ok (_, loss, _), _) => Some loss
      | (Raise _, _) => None
      end
  end.

(** [batches_prefix j ...]: the state of the inner loop after [j] turns
    that each complete, with the losses of their batches in order. *)
Fixpoint batches_prefix (j epoch batch : nat) (epoch_time epoch_loss : Q)
    (t : T) (ds : SummarizationDataset) (w : world)
  : option (loop_state * list Q) :=
  match j with
  | O => Some ((epoch_time, epoch_loss, t, ds, w), [])
  | S j' =>
      match step epoch epochs flt_prec nb batch epoch_time epoch_loss t ds w,
            batch_loss t ds w with
      | StepNext epoch_time' epoch_loss' t' ds' w', Some loss =>
          match batches_prefix j' epoch (S batch) epoch_time' epoch_loss'
                               t' ds' w' with
          | Some (st, losses) => Some (st, loss :: losses)
          | None => None
          end
      | _, _ => None
      end
  end.

(** The losses of the batches of the epoch that starts in the given
    state, when all its batches complete. *)
Definition epoch_history (epoch : nat) (t : T) (ds : SummarizationDataset)
    (w : world) : list Q :=
  match SummarizationDataset_iter ds w with
  | Raise _ => []
  | Ok (ds, w) =>
      match batches_prefix nb epoch 0 0%Q 0%Q t ds w with
      | Some (_, losses) => losses
      | None => []
      end
  end.

(** [epochs_prefix k ...]: the state of the outer loop after [k] epochs
    that each complete, with the losses of the batches of each. *)
Fixpoint epochs_prefix (k epoch : nat) (t : T) (ds : SummarizationDataset)
    (w : world) (epoch_losses : list Q)
  : option (T * SummarizationDataset * world * list Q * list (list Q)) :=
  match k with
  | O => Some (t, ds, w, epoch_losses, [])
  | S k' =>
      match train_epoch show_float show_round tr epoch epochs flt_prec nb
                        t ds w epoch_losses with
      | EpochNext t' ds' w' epoch_losses' =>
          match epochs_prefix k' (S epoch) t' ds' w' epoch_losses' with
          | Some (st, history) =>
              Some (st, epoch_history epoch t ds w :: history)
          | None => None
          end
      | _ => None
      end
  end.

(** The mean of the losses of an epoch, as the loop computes it. *)
Definition mean_loss (losses : list Q) : Q :=
  (Qsum losses / inject_Z (Z.of_nat nb))%Q.

Lemma step_next_inv epoch batch et el t ds w et' el' t' ds' w' :
  step epoch epochs flt_prec nb batch et el t ds w
  = StepNext et' el' t' ds' w' →
  ∃ i loss, it ds = Some i ∧ i ≠ num_batches ds ∧ it ds' = Some (S i) ∧
            num_batches ds' = num_batches ds ∧
            batch_loss t ds w = Some loss ∧ el' = (el + loss)%Q.
Proof.
  unfold batch_step, batch_loss.
  destruct (SummarizationDataset_next ds w) as [[[inputs ds1] w1]|e] eqn:Hn.
  2: { by destruct (is_StopIteration e). }
  destruct (process_batch tr t inputs w1) as [[[[time loss] t1]|e] w2].
  2: { by destruct (exc_is_Exception e). }
  intros [= <- <- <- <- <-].
  destruct (next_Ok_inv _ _ _ _ _ Hn) as (i & Hit & Hi & Hcase).
  exists i, loss. split_and!; [done..| | |done|done].
  - destruct Hcase as [(c & _ & _ & _ & -> & _)|(b & _ & _ & _ & ->)];
      [done|]. by destruct (cached ds).
  - destruct Hcase as [(c & _ & _ & _ & -> & _)|(b & _ & _ & _ & ->)];
      [done|]. by destruct (cached ds).
Qed.

Lemma step_stop_inv epoch batch et el t ds w :
  step epoch epochs flt_prec nb batch et el t ds w = StepStop →
  it ds = None ∨ it ds = Some (num_batches ds).
Proof.
  unfold batch_step.
  destruct (SummarizationDataset_next ds w) as [[[inputs ds1] w1]|e] eqn:Hn.
  - destruct (process_batch tr t inputs w1) as [[[[time loss] t1]|e] w2];
      [done|]. by destruct (exc_is_Exception e).
  - destruct (is_StopIteration e) eqn:He; [|done]. intros _.
    by eapply next_StopIteration_inv.
Qed.

Lemma iter_Ok_inv ds w ds' w' :
  SummarizationDataset_iter ds w = Ok (ds', w') →
  it ds' = Some 0%nat ∧ num_batches ds' = num_batches ds.
Proof.
  destruct (shuffle ds) eqn:Hs.
  - intros Hiter.
    destruct (iter_shuffle_inv _ _ _ _ Hs Hiter) as (b & c & _ & _ & -> & _).
    done.
  - rewrite iter_no_shuffle by done. by intros [= <- <-].
Qed.

(** The turns of a prefix are turns of the loop. *)
Lemma train_batches_prefix j : ∀ fuel epoch batch et el t ds w st losses,
  batches_prefix j epoch batch et el t ds w = Some (st, losses) →
  let '(et', el', t', ds', w') := st in
  batches (j + fuel) tr epoch epochs flt_prec nb batch et el t ds w
  = batches fuel tr epoch epochs flt_prec nb (batch + j) et' el' t' ds' w'.
Proof.
  induction j as [|j IH]; intros fuel epoch batch et el t ds w st losses Hp.
  - simpl in Hp. simplify_eq. by rewrite Nat.add_0_r.
  - simpl in Hp. simpl.
    destruct (step epoch epochs flt_prec nb batch et el t ds w)
      as [et1 el1 t1 ds1 w1| | |]; [|done..].
    destruct (batch_loss t ds w) as [loss|]; [|done].
    destruct (batches_prefix j epoch (S batch) et1 el1 t1 ds1 w1)
      as [[st1 ls]|] eqn:Hp1; [|done].
    simplify_eq. specialize (IH fuel _ _ _ _ _ _ _ _ _ Hp1).
    destruct st as [[[[et' el'] t'] ds'] w'].
    rewrite IH. f_equal. lia.
Qed.

(** A prefix moves the cursor by its length and stays inside the
    dataset. *)
Lemma batches_prefix_cursor j : ∀ epoch batch et el t ds w st losses i,
  batches_prefix j epoch batch et el t ds w = Some (st, losses) →
  it ds = Some i → (i ≤ num_batches ds)%nat →
  let '(_, _, _, ds', _) := st in
  it ds' = Some (i + j)%nat ∧ num_batches ds' = num_batches ds ∧
  (i + j ≤ num_batches ds)%nat ∧ length losses = j.
Proof.
  induction j as [|j IH]; intros epoch batch et el t ds w st losses i Hp Hit Hi.
  - simpl in Hp. simplify_eq. rewrite Nat.add_0_r. done.
  - simpl in Hp.
    destruct (step epoch epochs flt_prec nb batch et el t ds w)
      as [et1 el1 t1 ds1 w1| | |] eqn:Hstep; [|done..].
    destruct (batch_loss t ds w) as [loss|]; [|done].
    destruct (batches_prefix j epoch (S batch) et1 el1 t1 ds1 w1)
      as [[st1 ls]|] eqn:Hp1; [|done].
    simplify_eq.
    destruct (step_next_inv _ _ _ _ _ _ _ _ _ _ _ _ Hstep)
      as (i' & l' & Hit' & Hne & Hit1 & Hn1 & _).
    rewrite Hit in Hit'. simplify_eq.
    specialize (IH _ _ _ _ _ _ _ _ _ (S i') Hp1 Hit1 ltac:(lia)).
    destruct st as [[[[et' el'] t'] ds'] w'].
    destruct IH as (Hc & Hn & Hle & Hlen). simpl.
    split_and!; [rewrite Hc; f_equal; lia|congruence|lia|lia].
Qed.

(** A loop that ends by exhaustion has made one turn per batch left. *)
Lemma train_batches_done fuel : ∀ epoch batch et el t ds w et' el' t' ds' w' i,
  batches fuel tr epoch epochs flt_prec nb batch et el t ds w
  = BatchesDone et' el' t' ds' w' →
  it ds = Some i → (i ≤ num_batches ds)%nat →
  ∃ losses,
    batches_prefix (num_batches ds - i) epoch batch et el t ds w
    = Some ((et', el', t', ds', w'), losses) ∧
    el' = foldl Qplus el losses.
Proof.
  induction fuel as [|fuel IH];
    intros epoch batch et el t ds w et' el' t' ds' w' i Hb Hit Hi; [done|].
  simpl in Hb.
  destruct (step epoch epochs flt_prec nb batch et el t ds w)
    as [et1 el1 t1 ds1 w1| | |] eqn:Hstep; [| |done..].
  - destruct (step_next_inv _ _ _ _ _ _ _ _ _ _ _ _ Hstep)
      as (i' & loss & Hit' & Hne & Hit1 & Hn1 & Hloss & ->).
    rewrite Hit in Hit'. simplify_eq.
    destruct (IH _ _ _ _ _ _ _ _ _ _ _ _ (S i') Hb Hit1 ltac:(lia))
      as (losses & Hp & ->).
    exists (loss :: losses). split; [|done].
    replace (num_batches ds - i')%nat with (S (num_batches ds1 - S i'))
      by lia.
    simpl. by rewrite Hstep, Hloss, Hp.
  - simplify_eq. apply step_stop_inv in Hstep as [Hn|Hn];
      rewrite Hit in Hn; simplify_eq.
    exists []. by rewrite Nat.sub_diag.
Qed.

Local Notation epoch_turn := (train_epoch show_float show_round tr).
Local Notation epochs_loop := (train_epochs show_float show_round).

(** An epoch that completes has processed every batch and records the
    mean of their losses. *)
Lemma train_epoch_next_inv epoch t ds w losses t' ds' w' losses' :
  num_batches ds = nb →
  epoch_turn epoch epochs flt_prec nb t ds w losses
  = EpochNext t' ds' w' losses' →
  num_batches ds' = nb ∧ length (epoch_history epoch t ds w) = nb ∧
  losses' = losses ++ [mean_loss (epoch_history epoch t ds w)].
Proof.
  intros Hnb. unfold train_epoch, epoch_history.
  destruct (SummarizationDataset_iter ds w) as [[ds0 w0]|e] eqn:Hiter;
    [|done].
  destruct (iter_Ok_inv _ _ _ _ Hiter) as [Hit0 Hn0].
  destruct (train_batches _ _ (S nb) tr epoch epochs flt_prec nb 0 0%Q 0%Q
                          t ds0 w0)
    as [et el t1 ds1 w1| | |] eqn:Hb; [|done..].
  destruct (train_batches_done _ _ _ _ _ _ _ _ _ _ _ _ _ 0%nat Hb Hit0
              ltac:(lia)) as (ls & Hp & ->).
  rewrite Nat.sub_0_r, Hn0, Hnb in Hp. rewrite Hp.
  pose proof (batches_prefix_cursor _ _ _ _ _ _ _ _ _ _ 0%nat Hp Hit0
                ltac:(lia)) as (_ & Hn1 & _ & Hlen).
  case_bool_decide; [done|].
  destruct (match scheduler_step tr with
            | Some f => f t1 _
            | None => Ok t1
            end) as [t2|e]; [|done].
  intros [= <- <- <- <-]. split_and!; [congruence|done|done].
Qed.

Lemma epochs_prefix_inv k : ∀ epoch t ds w losses tk dsk wk losses' history,
  num_batches ds = nb →
  epochs_prefix k epoch t ds w losses = Some (tk, dsk, wk, losses', history) →
  num_batches dsk = nb ∧ length history = k ∧
  Forall (λ ls, length ls = nb) history ∧
  losses' = losses ++ map mean_loss history.
Proof.
  induction k as [|k IH];
    intros epoch t ds w losses tk dsk wk losses' history Hnb Hp.
  - simpl in Hp. simplify_eq. by rewrite app_nil_r.
  - simpl in Hp.
    destruct (epoch_turn epoch epochs flt_prec nb t ds w losses)
      as [t1 ds1 w1 losses1| | |] eqn:He; [|done..].
    destruct (epochs_prefix k (S epoch) t1 ds1 w1 losses1)
      as [[[[[t2 ds2] w2] losses2] hist]|] eqn:Hk; [|done].
    simplify_eq.
    destruct (train_epoch_next_inv _ _ _ _ _ _ _ _ _ Hnb He)
      as (Hn1 & Hlen & ->).
    destruct (IH _ _ _ _ _ _ _ _ _ _ Hn1 Hk) as (Hn2 & Hlh & Hall & ->).
    split_and!; [done|simpl; lia|by constructor|].
    by rewrite <- app_assoc.
Qed.

Lemma train_epochs_prefix k :
  ∀ r epoch t ds w losses tk dsk wk losses' history,
  epochs_prefix k epoch t ds w losses = Some (tk, dsk, wk, losses', history) →
  epochs_loop (k + r) tr epoch epochs flt_prec nb t ds w losses
  = epochs_loop r tr (epoch + k) epochs flt_prec nb tk dsk wk losses'.
Proof.
  induction k as [|k IH];
    intros r epoch t ds w losses tk dsk wk losses' history Hp.
  - simpl in Hp. simplify_eq. by rewrite Nat.add_0_r.
  - simpl in Hp. simpl.
    destruct (epoch_turn epoch epochs flt_prec nb t ds w losses)
      as [t1 ds1 w1 losses1| | |] eqn:He; [|done..].
    destruct (epochs_prefix k (S epoch) t1 ds1 w1 losses1)
      as [[[[[t2 ds2] w2] losses2] hist]|] eqn:Hk; [|done].
    simplify_eq. rewrite (IH r _ _ _ _ _ _ _ _ _ _ Hk). f_equal. lia.
Qed.

(** C1, as the code has it: when [k] epochs have completed and, in the
    next epoch, [j] batches have been processed and the processing of
    the following batch (device transfer, forward loss, zeroing of the
    gradients, backward pass or optimizer step) raises an exception,
    then: if the exception is an instance of [Exception],
    [train_model] returns, its result is the list of the mean losses
    of the [k] completed epochs, in order, with nothing recorded for
    the epoch in progress, and the last text printed names the type
    and the message of the exception; if it is not (it derives from
    [BaseException] only), it is not caught and leaves [train_model],
    which returns no list. *)
Theorem batch_exception_returns_completed_epochs
    t dataset w t1 t2 k tk dsk wk losses history ds0 w0
    j et el tj dsj wj seen inputs ds' w' e w'' :
  SummarizationDataset_len dataset = nb →
  model_to tr t = Ok t1 → model_train tr t1 = Ok t2 →
  (k < Z.to_nat epochs)%nat →
  epochs_prefix k 0 t2 dataset w [] = Some (tk, dsk, wk, losses, history) →
  SummarizationDataset_iter dsk wk = Ok (ds0, w0) →
  batches_prefix j k 0 0%Q 0%Q tk ds0 w0 = Some ((et, el, tj, dsj, wj), seen) →
  SummarizationDataset_next dsj wj = Ok (inputs, ds', w') →
  process_batch tr tj inputs w' = (Raise e, w'') →
  train_model show_float show_round tr t dataset epochs flt_prec w
  = (if exc_is_Exception e
     then Returned losses (print (exception_line e) w'')
     else Raised e) ∧
  losses = map mean_loss history ∧ length history = k ∧
  Forall (λ ls, length ls = nb) history ∧
  stdout (print (exception_line e) w'') = stdout w'' ++ [exception_line e].
Proof.
  intros Hlen Hto Htrain Hk Hepochs Hiter Hbatches Hnext Hproc.
  unfold SummarizationDataset_len in Hlen.
  destruct (epochs_prefix_inv _ _ _ _ _ _ _ _ _ _ _ Hlen Hepochs)
    as (Hnk & Hlh & Hall & Hlosses).
  split_and!; [|done..].
  unfold train_model, SummarizationDataset_len. rewrite Hto, Htrain, Hlen.
  replace (Z.to_nat epochs) with (k + S (Z.to_nat epochs - S k))%nat by lia.
  rewrite (train_epochs_prefix _ _ _ _ _ _ _ _ _ _ _ _ Hepochs).
  simpl. unfold train_epoch. rewrite Hiter.
  destruct (iter_Ok_inv _ _ _ _ Hiter) as [Hit0 Hn0].
  pose proof (batches_prefix_cursor _ _ _ _ _ _ _ _ _ _ 0%nat Hbatches Hit0
                ltac:(lia)) as (_ & _ & Hj & _).
  simpl in Hj.
  replace (S nb) with (j + S (nb - j))%nat by lia.
  pose proof (train_batches_prefix _ (S (nb - j)) _ _ _ _ _ _ _ _ _ Hbatches)
    as Hpre.
  simpl in Hpre. rewrite Hpre. simpl. unfold batch_step.
  rewrite Hnext, Hproc. by destruct (exc_is_Exception e).
Qed.

End TrainingLoop.

(** * Concrete runs

    A small generator, tokenizer, encoder and trainer on which the
    program is run; numpy's generator and the Hugging Face tokenizers
    are not reproduced. *)

Definition lcg_next (g : Z) : Z := (g * 1103515245 + 12345) mod 2 ^ 31.

Definition rotation {A} (k : nat) (l : list A) : list A :=
  drop k l ++ take k l.

(** A permutation drawn from state [g]: the indices rotated by
    [g mod n]. *)
Definition lcg_permutation (g : Z) (n : nat) : list nat * Z :=
  (rotation (Z.to_nat (g mod Z.of_nat n)) (seq 0 n), lcg_next g).

Lemma lcg_permutation_perm g n : (lcg_permutation g n).1 ≡ₚ seq 0 n.
Proof.
  unfold lcg_permutation, rotation. simpl.
  rewrite Permutation_app_comm. by rewrite take_drop.
Qed.

#[local] Instance lcg_random : NumpyRandom := {|
  rng_state := Z;
  rng_seed := λ s, s;
  rng_permutation := lcg_permutation;
  rng_permutation_perm := lcg_permutation_perm
|}.

Definition char_ids (s : string) : list Z :=
  map (λ c, Z.of_nat (nat_of_ascii c)) (list_ascii_of_string s).

Definition pad_to (n : nat) (pad : Z) (row : list Z) : list Z :=
  row ++ replicate (n - length row) pad.

(** One id per character, cut at [max_length], padded to the longest. *)
Definition char_tokens (pad : Z) (strs : list string) (max_length : Z)
  : tensor :=
  let rows := map (λ s, take (Z.to_nat max_length) (char_ids s)) strs in
  let width := foldr Nat.max 0%nat (map length rows) in
  map (pad_to width pad) rows.

Definition demo_tokenizer : Tokenizer :=
  {| pad_token_id := 32;
     tokenizer_call := λ strs max_length,
       {[ "input_ids" := char_tokens 32 strs max_length ]} |}.

Definition demo_encoder : Encoder :=
  {| tokenizer := demo_tokenizer;
     preprocessor := None;
     generate_encodings := λ strs,
       {[ "input_ids" := char_tokens 32 strs 4 ]} |}.

Definition demo_world : world :=
  {| np_random := 0; os_entropy := λ n, Z.of_nat n + 7; entropy_drawn := 0;
     perf_clock := λ n, inject_Z (Z.of_nat n); clock_reads := 0;
     calls := []; stdout := [] |}.

(** The world after seeding with 1. *)
Definition demo_seeded : world := set_np_random (1 : Z) demo_world.

Definition demo_pairs : list Pair :=
  [("one two three", "s3"); ("one", "s1"); ("one two three four", "s4 x");
   ("one two", "s2"); ("a b c d e", "s5")].

(** The dataset built from [demo_pairs] with batches of 2 and a cache. *)
Definition demo_dataset (shuf : bool) : SummarizationDataset :=
  {| num_batches := 2;
     text_batches :=
       [Obj [("one", "s1"); ("one two", "s2")];
        Obj [("one two three", "s3"); ("one two three four", "s4 x")]];
     cached := Some [Int0; Int0];
     encoder := demo_encoder; batch_size := 2; context_size := 3;
     shuffle := shuf; seed := Some 1; it := None |}.

Definition demo_show_float (q : Q) : string := pretty (Qfloor q).
Definition demo_show_round (q : Q) (n : Z) : string := pretty (Qfloor q).

(** A trainer whose state counts the forward passes, whose loss is that
    count, and whose forward pass raises [failure] at a given count. *)
Definition demo_trainer (failure : pyexc) (failing_call : nat)
  : @Trainer nat :=
  {| model_to := Ok; model_train := Ok;
     inputs_to := λ _ inputs, Ok inputs;
     forward_loss := λ t _,
       if bool_decide (t = failing_call) then Raise failure
       else Ok (inject_Z (Z.of_nat t), S t);
     zero_grad := Ok; backward := Ok; optimizer_step := Ok;
     scheduler_step := None |}.

Lemma demo_dataset_init shuf :
  SummarizationDataset_init demo_pairs demo_encoder 2 3 true shuf (Some 1)
                            demo_world
  = Ok (demo_dataset shuf, demo_seeded).
Proof. reflexivity. Qed.

(** ** C3, C7, C9 *)

Lemma dataset_length_full_batches_witness :
  0 < 2 ∧
  Z.of_nat (SummarizationDataset_len (demo_dataset false)) = 5 / 2 ∧
  stored_pairs (demo_dataset false)
  = take 4 (sorted (λ x, count_words x.1) demo_pairs).
Proof.
  split; [lia|].
  destruct (dataset_length_full_batches demo_pairs demo_encoder 2 3 true
              false (Some 1) demo_world ltac:(lia)) as [_ Hall].
  destruct (Hall _ _ (demo_dataset_init false)) as (Hlen & _ & _ & Hstored).
  split; [exact Hlen|exact Hstored].
Defined.

Lemma initial_batches_ascending_average_witness :
  (average_words [("one", "s1"); ("one two", "s2")]
   <= average_words [("one two three", "s3"); ("one two three four", "s4 x")])%Q.
Proof.
  apply (initial_batches_ascending_average demo_pairs demo_encoder 2 3 true
           false (Some 1) demo_world (demo_dataset false) demo_seeded
           0%nat 1%nat);
    [reflexivity|lia|reflexivity|reflexivity].
Defined.

Lemma init_nonpositive_batch_size_witness :
  SummarizationDataset_init demo_pairs demo_encoder (-2) 3 true false (Some 1)
                            demo_world
  = Raise (ValueError "negative dimensions are not allowed").
Proof.
  apply (init_nonpositive_batch_size demo_pairs demo_encoder (-2) 3 true
           false (Some 1) demo_world); [lia|lia|discriminate].
Defined.

(** A batch size below 0 and no pair: the construction returns. *)
Lemma negative_batch_size_constructs :
  ∃ ds w',
    SummarizationDataset_init [] demo_encoder (-1) 3 false false None
                              demo_world = Ok (ds, w') ∧
    SummarizationDataset_len ds = 0%nat.
Proof. eexists _, _. split; reflexivity. Qed.

(** ** C2, C4, C5, C6 *)

Lemma demo_tracked shuf :
  tracked (initial_order (demo_dataset shuf)) (demo_dataset shuf).
Proof. exact (tracked_init _ _ _ _ _ _ _ _ _ _ (demo_dataset_init shuf)). Qed.

(** The dataset once a traversal has started. *)
Definition demo_started : SummarizationDataset :=
  set_it (Some 0%nat) (demo_dataset false).

Lemma demo_started_tracked :
  tracked (initial_order (demo_dataset false)) demo_started.
Proof.
  apply (tracked_iter _ (demo_dataset false) demo_seeded _ demo_seeded);
    [apply demo_tracked|reflexivity|reflexivity].
Qed.

Lemma cache_follows_batches_witness :
  ∃ p cache' order' ds' w',
    p ≡ₚ seq 0 2 ∧
    SummarizationDataset_iter (demo_dataset true) demo_seeded = Ok (ds', w') ∧
    fancy_index (text_batches (demo_dataset true)) p = Ok (text_batches ds') ∧
    fancy_index [Int0; Int0] p = Ok cache' ∧ cached ds' = Some cache' ∧
    fancy_index (initial_order (demo_dataset true)) p = Ok order' ∧
    tracked order' ds'.
Proof.
  destruct (cache_follows_batches _ _ [Int0; Int0] (demo_tracked true)
                                  eq_refl) as (_ & _ & _ & Hshuffle).
  exact (Hshuffle eq_refl demo_seeded).
Defined.

Definition is_Traversed (r : traversal) : bool :=
  match r with Traversed _ _ _ => true | _ => false end.

Lemma labels_mask_pad_ids_witness :
  ∃ be ds' w',
    SummarizationDataset_next demo_started demo_seeded = Ok (be, ds', w') ∧
    ∃ labels, be !! "labels" = Some labels ∧ length labels = 2%nat.
Proof.
  destruct (SummarizationDataset_next demo_started demo_seeded)
    as [[[be ds'] w']|e] eqn:Hnext.
  2: { assert (Hok : is_Ok (SummarizationDataset_next demo_started
                                                      demo_seeded) = true)
         by reflexivity.
       rewrite Hnext in Hok. discriminate Hok. }
  exists be, ds', w'. split; [reflexivity|].
  destruct (labels_mask_pad_ids _ _ _ _ _ _ demo_started_tracked Hnext)
    as (i & batch & ids & labels & Hit & Hb & Hids & Hl & Hlen & _).
  exists labels. split; [exact Hl|].
  assert (i = 0%nat) as -> by (injection Hit; auto).
  injection Hb as <-. injection Hids as <-. exact Hlen.
Defined.

Lemma second_traversal_hits_cache_witness :
  ∃ out1 ds1 w1,
    traverse (demo_dataset false) demo_seeded = Traversed out1 ds1 w1 ∧
    length out1 = 2%nat ∧
    ∀ w2, traverse ds1 w2 = Traversed out1 ds1 w2.
Proof.
  destruct (traverse (demo_dataset false) demo_seeded)
    as [out1 ds1 w1|e|] eqn:Htrav.
  - exists out1, ds1, w1. split; [reflexivity|].
    exact (second_traversal_hits_cache _ _ [Int0; Int0] _ _ _ _
             (demo_tracked false) eq_refl eq_refl Htrav).
  - assert (Hok : is_Traversed (traverse (demo_dataset false) demo_seeded)
                  = true) by reflexivity.
    rewrite Htrav in Hok. discriminate Hok.
  - assert (Hok : is_Traversed (traverse (demo_dataset false) demo_seeded)
                  = true) by reflexivity.
    rewrite Htrav in Hok. discriminate Hok.
Defined.

(** Another world: another random state, one clock reading taken. *)
Definition demo_other_world : world :=
  {| np_random := 99; os_entropy := λ n, 3; entropy_drawn := 0;
     perf_clock := λ n, inject_Z (Z.of_nat n); clock_reads := 1;
     calls := []; stdout := ["started"] |}.

Definition demo_other_seeded : world :=
  set_np_random (1 : Z) demo_other_world.

(** Two traversals, the first one full. *)
Definition demo_ops : list op := [DoIter; DoNext; DoNext; DoIter; DoNext].

(** The world after a second dataset has been built with the seed 2. *)
Definition demo_reseeded : world := set_np_random (2 : Z) demo_seeded.

(** A second dataset, built with the seed 2 after the first one. *)
Definition demo_second : SummarizationDataset :=
  {| num_batches := 1; text_batches := [Obj [("x", "y")]]; cached := None;
     encoder := demo_encoder; batch_size := 1; context_size := 3;
     shuffle := true; seed := Some 2; it := None |}.

Lemma demo_second_init :
  SummarizationDataset_init [("x", "y")] demo_encoder 1 3 false true (Some 2)
                            demo_seeded
  = Ok (demo_second, demo_reseeded).
Proof. reflexivity. Qed.

Definition batches_after (r : result (SummarizationDataset * world))
  : list (slot (list Pair)) :=
  match r with
  | Ok (ds, _) => text_batches ds
  | Raise _ => []
  end.

Lemma same_seed_same_ordering_witness :
  ordering (run_ops demo_ops (demo_dataset true) demo_seeded [])
  = ordering (run_ops demo_ops (demo_dataset true) demo_other_seeded []) ∧
  (batches_after (SummarizationDataset_iter (demo_dataset true) demo_seeded)
   = batches_after (SummarizationDataset_iter (demo_dataset true)
                                              demo_reseeded)
   ↔ (lcg_permutation 1 2).1 = (lcg_permutation 2 2).1).
Proof.
  destruct (same_seed_same_ordering demo_pairs demo_encoder 2 3 true true 1
              demo_world demo_other_world (demo_dataset true) demo_seeded
              (demo_dataset true) demo_other_seeded eq_refl eq_refl)
    as (_ & _ & _ & Hops & Hfirst).
  split; [exact (Hops demo_ops)|].
  destruct (SummarizationDataset_iter (demo_dataset true) demo_seeded)
    as [[d1 w1]|e1] eqn:H1.
  2: { assert (Hok : is_Ok (SummarizationDataset_iter (demo_dataset true)
                                                      demo_seeded) = true)
         by reflexivity.
       rewrite H1 in Hok. discriminate Hok. }
  destruct (SummarizationDataset_iter (demo_dataset true) demo_reseeded)
    as [[d2 w2]|e2] eqn:H2.
  2: { assert (Hok : is_Ok (SummarizationDataset_iter (demo_dataset true)
                                                      demo_reseeded) = true)
         by reflexivity.
       rewrite H2 in Hok. discriminate Hok. }
  apply (Hfirst eq_refl) with (w := demo_reseeded) (w1 := w1) (w2 := w2).
  - apply NoDup_cons. split; [|apply NoDup_singleton].
    intros Hin. apply list_elem_of_singleton in Hin. discriminate Hin.
  - reflexivity.
  - exact H2.
Defined.

(** With the generator above, the dataset built with the seed 1 and
    traversed at once swaps its two batches; built in the same way and
    traversed after the second dataset was built, it keeps them in
    place. *)
Lemma seed_not_dedicated : ¬ seed_alone_fixes_order.
Proof.
  intros Hclaim.
  destruct (SummarizationDataset_iter (demo_dataset true) demo_seeded)
    as [[dsA wA]|eA] eqn:HA.
  2: { assert (Hok : is_Ok (SummarizationDataset_iter (demo_dataset true)
                                                      demo_seeded) = true)
         by reflexivity.
       rewrite HA in Hok. discriminate Hok. }
  destruct (SummarizationDataset_iter (demo_dataset true) demo_reseeded)
    as [[dsB wB]|eB] eqn:HB.
  2: { assert (Hok : is_Ok (SummarizationDataset_iter (demo_dataset true)
                                                      demo_reseeded) = true)
         by reflexivity.
       rewrite HB in Hok. discriminate Hok. }
  pose proof (Hclaim demo_pairs demo_encoder 2 3 true 1 demo_world demo_world
                _ _ _ _ _ _ _ _ _ _ _ _ _ _ _ _ _
                (demo_dataset_init true) (demo_dataset_init true)
                demo_second_init HA HB) as Hsame.
  assert (HtA : batches_after (SummarizationDataset_iter (demo_dataset true)
                                                         demo_seeded)
                = [Obj [("one two three", "s3"); ("one two three four", "s4 x")];
                   Obj [("one", "s1"); ("one two", "s2")]]) by reflexivity.
  assert (HtB : batches_after (SummarizationDataset_iter (demo_dataset true)
                                                         demo_reseeded)
                = [Obj [("one", "s1"); ("one two", "s2")];
                   Obj [("one two three", "s3"); ("one two three four", "s4 x")]])
    by reflexivity.
  rewrite HA in HtA. rewrite HB in HtB. simpl in HtA, HtB.
  rewrite HtA, HtB in Hsame. discriminate Hsame.
Qed.

(** ** C8, C10 *)

Definition demo_scorer (cands refs : list string) : result (list (list Q)) :=
  if bool_decide (length cands = length refs) then
    Ok [map (λ _, 1%Q) cands; map (λ _, (1 # 2)%Q) cands;
        map (λ _, (2 # 3)%Q) cands]
  else Raise (PyExc "AssertionError"
                    "Different number of candidates and references" true).

Definition demo_evaluator : Evaluator :=
  Evaluator_init
    [map (String.append "first: "); map (String.append "second: ")]
    (inr [("t1", "r1"); ("t2", "r2")]) demo_scorer.

Lemma demo_scorer_per_pair : scorer_per_pair demo_scorer.
Proof.
  intros cands refs Hlen. unfold demo_scorer.
  rewrite bool_decide_eq_true_2 by done. eexists. split; [done|].
  repeat constructor; by rewrite length_map.
Qed.

Lemma get_bertscore_generates_once_witness :
  ∃ metrics ev' w',
    get_bertscore demo_evaluator demo_world = (Ok metrics, ev', w') ∧
    calls w' = [PipelineCall 0 ["t1"; "t2"]; PipelineCall 1 ["t1"; "t2"]] ∧
    Forall (λ m, length m = 2%nat) metrics.
Proof.
  pose proof (get_bertscore_generates_once demo_evaluator demo_world eq_refl)
    as Hthm.
  destruct (get_bertscore demo_evaluator demo_world) as [[r ev'] w'].
  destruct Hthm as (Hcalls & _ & Hlen & Hreturns).
  destruct Hreturns as [metrics ->].
  - simpl. lia.
  - reflexivity.
  - repeat constructor.
  - exact demo_scorer_per_pair.
  - exists metrics, ev', w'. split_and!; [reflexivity|exact Hcalls|].
    by apply Hlen.
Defined.

(** With two pipelines and no text the scorer gives three empty
    metrics, each reshaped to two empty rows, whose means are nan. *)
Example get_bertscore_no_text :
  (get_bertscore
     (Evaluator_init
        [map (String.append "first: "); map (String.append "second: ")]
        (inr []) demo_scorer)
     demo_world).1.1
  = Ok [[Nan; Nan]; [Nan; Nan]; [Nan; Nan]].
Proof. reflexivity. Qed.

(** C8: an evaluator with two pipelines and the references [r1], [r2];
    after [get_bertscore] its stored references are [r1], [r2], [r1],
    [r2]. *)
Example get_bertscore_repeats_references :
  summaries demo_evaluator = ["r1"; "r2"] ∧
  summaries (get_bertscore demo_evaluator demo_world).1.2
  = ["r1"; "r2"; "r1"; "r2"] ∧
  texts (get_bertscore demo_evaluator demo_world).1.2 = texts demo_evaluator.
Proof. split_and!; reflexivity. Qed.

(** ** C1 *)

(** Evaluate the left-hand side, then compare. *)
Ltac run :=
  match goal with
  | |- ?lhs = _ =>
      let v := eval vm_compute in lhs in
      transitivity v; [reflexivity|reflexivity]
  end.

Lemma batch_exception_returns_completed_epochs_witness :
  ∃ w,
    train_model demo_show_float demo_show_round
                (demo_trainer (RuntimeError "out of memory") 3) 0%nat
                (demo_dataset false) 3 4 demo_seeded
    = Returned [(1 # 2)%Q] w ∧
    last (stdout w)
    = Some ("Encountered exception of type <class 'RuntimeError'>: "
            +:+ "out of memory" +:+ newline +:+ "Training terminated").
Proof.
  edestruct (batch_exception_returns_completed_epochs
               demo_show_float demo_show_round
               (demo_trainer (RuntimeError "out of memory") 3) 3 4 2
               0%nat (demo_dataset false) demo_seeded)
    with (k := 1%nat) (j := 1%nat) as (Hres & Hl & Hk & _ & Hout).
  - reflexivity.
  - reflexivity.
  - reflexivity.
  - lia.
  - run.
  - run.
  - run.
  - run.
  - run.
  - eexists. split; [exact Hres|]. rewrite Hout. apply last_snoc.
Defined.

(** An interrupt in the forward pass of the first batch leaves
    [train_model] as an exception. *)
Lemma keyboard_interrupt_propagates :
  train_model demo_show_float demo_show_round
              (demo_trainer KeyboardInterrupt 0) 0%nat
              (demo_dataset false) 3 4 demo_seeded
  = Raised KeyboardInterrupt.
Proof. reflexivity. Qed.


(** * Further properties *)

(** ** Words and sorting *)

Lemma append_cons (c : ascii) (a b : string) :
  String c a +:+ b = String c (a +:+ b).
Proof. reflexivity. Qed.

Lemma append_nil_l (a : string) : EmptyString +:+ a = a.
Proof. reflexivity. Qed.

Lemma flush_word_app (word : string) (rest : list string) :
  flush_word word rest = flush_word word [] ++ rest.
Proof. by destruct word. Qed.

Lemma split_from_app (a b : string) (c : ascii) : ∀ word,
  is_space c = true →
  split_from word (a +:+ String c b)
  = split_from word a ++ split_from EmptyString b.
Proof.
  induction a as [|d a IH]; intros word Hc;
    rewrite ?append_cons, ?append_nil_l; simpl.
  - rewrite Hc. apply flush_word_app.
  - destruct (is_space d); [|by apply IH].
    rewrite (flush_word_app word (split_from _ (a +:+ _))).
    rewrite (flush_word_app word (split_from _ a)), IH by done.
    by rewrite app_assoc.
Qed.

(** X1: the words of two texts joined by a whitespace character are
    the words of the first followed by the words of the second, so the
    counts add up. *)
Theorem count_words_join (a b : string) (c : ascii) :
  is_space c = true →
  str_split (a +:+ String c b) = str_split a ++ str_split b ∧
  count_words (a +:+ String c b) = (count_words a + count_words b)%nat.
Proof.
  intros Hc. unfold count_words, str_split.
  rewrite split_from_app by done. by rewrite length_app.
Qed.

(** The characters of a text that are not whitespace. *)
Fixpoint without_spaces (s : string) : string :=
  match s with
  | EmptyString => EmptyString
  | String c s' =>
      if is_space c then without_spaces s' else String c (without_spaces s')
  end.

Fixpoint has_space (s : string) : bool :=
  match s with
  | EmptyString => false
  | String c s' => is_space c || has_space s'
  end.

Definition is_word (s : string) : Prop := s ≠ EmptyString ∧ has_space s = false.

Lemma append_nil_r (s : string) : s +:+ EmptyString = s.
Proof.
  induction s as [|c s IH]; [done|]. by rewrite append_cons, IH.
Qed.

Lemma append_assoc (a b c : string) : (a +:+ b) +:+ c = a +:+ (b +:+ c).
Proof.
  induction a as [|d a IH]; [done|]. by rewrite !append_cons, IH.
Qed.

Lemma has_space_app (a b : string) :
  has_space (a +:+ b) = has_space a || has_space b.
Proof.
  induction a as [|c a IH]; [done|].
  rewrite append_cons. simpl. by rewrite IH, orb_assoc.
Qed.

Lemma flush_word_words (word : string) (rest : list string) :
  has_space word = false → Forall is_word rest →
  Forall is_word (flush_word word rest).
Proof. intros Hw Hr. destruct word; simpl; [done|]. by constructor. Qed.

Lemma flush_word_concat (word : string) (rest : list string) :
  String.concat EmptyString (flush_word word rest)
  = word +:+ String.concat EmptyString rest.
Proof.
  destruct word as [|c word]; [done|]. simpl.
  destruct rest as [|r rest]; [by rewrite append_nil_r|done].
Qed.

Lemma split_from_words (s : string) : ∀ word,
  has_space word = false →
  Forall is_word (split_from word s) ∧
  String.concat EmptyString (split_from word s) = word +:+ without_spaces s.
Proof.
  induction s as [|c s IH]; intros word Hw; simpl.
  - split; [by apply flush_word_words|]. by rewrite flush_word_concat.
  - destruct (is_space c) eqn:Hc.
    + destruct (IH EmptyString eq_refl) as [Hall Hcat]. split.
      * by apply flush_word_words.
      * by rewrite flush_word_concat, Hcat.
    + destruct (IH (word +:+ String c EmptyString)) as [Hall Hcat].
      { rewrite has_space_app, Hw. simpl. by rewrite Hc. }
      split; [done|]. by rewrite Hcat, append_assoc.
Qed.

(** X2: the words [count_words] counts are non-empty, hold no
    whitespace, and put end to end they are the text with its
    whitespace taken out. *)
Theorem str_split_words (text : string) :
  Forall is_word (str_split text) ∧
  String.concat EmptyString (str_split text) = without_spaces text.
Proof. apply (split_from_words text EmptyString eq_refl). Qed.

Lemma insert_by_filter {A} (key : A → nat) (c : nat) x (l : list A) :
  filter (λ y, key y = c) (insert_by key x l)
  = filter (λ y, key y = c) (x :: l).
Proof.
  induction l as [|y l IH]; simpl; [done|].
  destruct (key x <=? key y)%nat eqn:Hxy; [done|].
  apply Nat.leb_gt in Hxy.
  rewrite (filter_cons _ y), IH, !filter_cons.
  repeat case_decide; (done || lia).
Qed.

(** X3: the sort of [__init__] is stable: among the pairs whose texts
    have a given number of words, the sorted list keeps the order of
    the input. *)
Theorem sorted_keeps_ties (pairs : list Pair) (c : nat) :
  filter (λ x, count_words x.1 = c) (sorted (λ x, count_words x.1) pairs)
  = filter (λ x, count_words x.1 = c) pairs.
Proof.
  induction pairs as [|x pairs IH]; [done|].
  unfold sorted in *. simpl. rewrite insert_by_filter, !filter_cons.
  by rewrite IH.
Qed.

(** ** What the batches hold *)

Section BatchContents.
Context `{NumpyRandom}.

Local Notation words := (λ x : Pair, count_words x.1).

(** The stored pairs of a fresh dataset are a prefix of the sorted
    list. *)
Lemma stored_pairs_prefix pairs enc b ctx use_cache shuf sd w ds w' :
  SummarizationDataset_init pairs enc b ctx use_cache shuf sd w = Ok (ds, w') →
  stored_pairs ds
  = take (length (stored_pairs ds)) (sorted words pairs) ∧
  ∀ i batch, text_batches ds !! i = Some (Obj batch) →
    0 < b ∧ (Z.of_nat i + 1) * b ≤ Z.of_nat (length pairs) ∧
    batch = take (Z.to_nat b) (drop (i * Z.to_nat b) (sorted words pairs)).
Proof.
  intros Hinit. apply init_Ok_inv in Hinit as (Hb0 & Hn & _ & ->).
  set (ts := sorted words pairs) in *.
  assert (Hlen : length ts = length pairs) by apply length_sorted.
  set (N := Z.of_nat (length ts)) in *.
  assert (Hpos : 0 < N / b → 0 < b).
  { intros Hq. destruct (Z.lt_trichotomy b 0) as [Hneg|[?|?]]; [|done..].
    pose proof (Z.div_mod N b Hb0).
    pose proof (Z.mod_neg_bound N b Hneg). nia. }
  unfold stored_pairs. simpl. rewrite stored_pairs_fresh. split.
  - destruct (Z.to_nat (N / b)) as [|n] eqn:Hq; [done|].
    assert (0 < b) as Hb by (apply Hpos; lia).
    pose proof (Z.mod_pos_bound N b Hb). pose proof (Z.div_mod N b Hb0).
    rewrite <- Hq, concat_batches by (done || nia).
    rewrite length_take, Nat.min_l; [done|]. subst N. nia.
  - intros i batch Hi. rewrite list_lookup_fmap in Hi.
    destruct (seq 0 _ !! i) as [k|] eqn:Hk; [|done].
    apply lookup_seq in Hk as [-> Hk]. simpl in *. simplify_eq.
    assert (0 < b) as Hb by (apply Hpos; lia).
    pose proof (Z.mod_pos_bound N b Hb). pose proof (Z.div_mod N b Hb0).
    assert ((Z.of_nat i + 1) * b ≤ N) by nia.
    split_and!; [done|lia|]. by apply batch_at_inside.
Qed.

(** X4: construction stores no pair that was not given and stores none
    more often than it was given. *)
Theorem stored_pairs_from_input pairs enc b ctx use_cache shuf sd w ds w' :
  SummarizationDataset_init pairs enc b ctx use_cache shuf sd w = Ok (ds, w') →
  stored_pairs ds ⊆+ pairs.
Proof.
  intros Hinit. destruct (stored_pairs_prefix _ _ _ _ _ _ _ _ _ _ Hinit)
    as [-> _].
  rewrite <- (sorted_perm words pairs) at 2.
  apply sublist_submseteq, sublist_take.
Qed.

(** X5: the pairs construction leaves out are those with the most
    words: each pair of the sorted list beyond the stored ones has at
    least as many words in its text as every stored pair. *)
Theorem dropped_pairs_are_longest
    pairs enc b ctx use_cache shuf sd w ds w' x y :
  SummarizationDataset_init pairs enc b ctx use_cache shuf sd w = Ok (ds, w') →
  x ∈ stored_pairs ds →
  y ∈ drop (length (stored_pairs ds)) (sorted words pairs) →
  (count_words x.1 ≤ count_words y.1)%nat.
Proof.
  intros Hinit Hx Hy.
  destruct (stored_pairs_prefix _ _ _ _ _ _ _ _ _ _ Hinit) as [Hst _].
  rewrite Hst in Hx. apply list_elem_of_lookup in Hx as [i Hi].
  apply list_elem_of_lookup in Hy as [j Hj].
  apply lookup_take_Some in Hi as [Hi Hlt]. rewrite lookup_drop in Hj.
  eapply (sorted_ascending words pairs i); [|done..]. lia.
Qed.


End BatchContents.

(** ** Traversals of a dataset in use *)

Section Traversals.
Context `{NumpyRandom}.

(** What a step and the start of a traversal leave as they are. *)
Lemma next_fields ds w be ds' w' :
  SummarizationDataset_next ds w = Ok (be, ds', w') →
  encoder ds' = encoder ds ∧ context_size ds' = context_size ds ∧
  num_batches ds' = num_batches ds ∧ shuffle ds' = shuffle ds ∧
  ∃ i, it ds = Some i ∧ it ds' = Some (S i).
Proof.
  intros Hnext.
  destruct (next_Ok_inv _ _ _ _ _ Hnext) as (i & Hit & _ & [Hc|Hc]).
  - destruct Hc as (c & _ & _ & _ & -> & _). split_and!; eauto.
  - destruct Hc as (b & _ & _ & _ & ->).
    destruct (cached ds); split_and!; eauto.
Qed.

Lemma iter_fields ds w ds' w' :
  SummarizationDataset_iter ds w = Ok (ds', w') →
  encoder ds' = encoder ds ∧ context_size ds' = context_size ds ∧
  shuffle ds' = shuffle ds ∧ calls w' = calls w ∧
  (cached ds = None ↔ cached ds' = None).
Proof.
  destruct (shuffle ds) eqn:Hs.
  - intros Hiter.
    destruct (iter_shuffle_inv _ _ _ _ Hs Hiter)
      as (b & c & _ & Hc & -> & ->). simpl.
    split_and!; [done..| |].
    + unfold np_random_permutation.
      by destruct (rng_permutation _ _).
    + destruct (cached ds); [destruct Hc as (? & _ & ->)|subst]; done.
  - rewrite iter_no_shuffle by done. intros [= <- <-]. done.
Qed.

Lemma encodes_fields ds ds' batch be :
  encoder ds' = encoder ds → context_size ds' = context_size ds →
  encodes ds batch be → encodes ds' batch be.
Proof. unfold encodes. by intros -> ->. Qed.

(** The start of a traversal keeps a dataset in use in use, and moves
    its batches by a permutation, or not at all without shuffling. *)
Lemma iter_tracked order ds w ds' w' :
  tracked order ds →
  SummarizationDataset_iter ds w = Ok (ds', w') →
  ∃ order', tracked order' ds' ∧ order' ≡ₚ order ∧
            (shuffle ds = false → order' = order).
Proof.
  intros Htr Hiter. destruct (shuffle ds) eqn:Hs.
  - destruct (tracked_agree _ _ Htr) as (Hlo & _).
    pose proof (np_random_permutation_perm (num_batches ds) w) as Hp.
    destruct (fancy_index_total order
                (np_random_permutation (num_batches ds) w).1)
      as [order' Ho]; [by rewrite Hlo|].
    exists order'. split_and!; [|by eapply fancy_index_perm; [rewrite Hlo|]|done].
    by eapply tracked_shuffle.
  - exists order. split_and!; [|done..]. by eapply tracked_iter.
Qed.

Lemma iter_total order ds w :
  tracked order ds → ∃ ds' w', SummarizationDataset_iter ds w = Ok (ds', w').
Proof.
  intros Htr. destruct (tracked_agree _ _ Htr) as (Hlo & Hlb & Hag).
  destruct (shuffle ds) eqn:Hs; [|rewrite iter_no_shuffle by done; eauto].
  pose proof (np_random_permutation_perm (num_batches ds) w) as Hp.
  unfold SummarizationDataset_iter. simpl. rewrite Hs.
  destruct (np_random_permutation (num_batches ds) w) as [p w1]. simpl in *.
  destruct (fancy_index_total (text_batches ds) p) as [b ->];
    [by rewrite Hlb|]. simpl.
  destruct (cached ds) as [c|]; simpl; [|eauto].
  destruct Hag as [Hlc _].
  destruct (fancy_index_total c p) as [c' ->]; [by rewrite Hlc|].
  simpl. eauto.
Qed.

Lemma collect_ends fuel : ∀ ds w acc out ds1 w1,
  collect fuel ds w acc = Traversed out ds1 w1 →
  ∃ e, SummarizationDataset_next ds1 w1 = Raise e ∧
       is_StopIteration e = true.
Proof.
  induction fuel as [|fuel IH]; intros ds w acc out ds1 w1 Hc; [done|].
  simpl in Hc.
  destruct (SummarizationDataset_next ds w) as [[[be ds'] w']|e] eqn:Hn.
  - by eapply IH.
  - destruct (is_StopIteration e) eqn:He; [|done]. simplify_eq. eauto.
Qed.

(** X7: once a full traversal has returned, the dataset is exhausted:
    a further step raises [StopIteration], in whatever world, until a
    new traversal is started. *)
Theorem exhausted_after_traversal ds w out ds1 w1 w' :
  traverse ds w = Traversed out ds1 w1 →
  SummarizationDataset_next ds1 w' = Raise StopIteration.
Proof.
  unfold traverse.
  destruct (SummarizationDataset_iter ds w) as [[ds0 w0]|e]; [|done].
  intros Hc. apply collect_ends in Hc as (e & Hn & He).
  apply (next_StopIteration_inv _ _ _ Hn) in He.
  unfold SummarizationDataset_next. destruct He as [->| ->]; [done|].
  by rewrite bool_decide_eq_true_2.
Qed.

Lemma collect_yields fuel : ∀ ds w acc out ds1 w1 order i,
  tracked order ds → it ds = Some i →
  collect fuel ds w acc = Traversed out ds1 w1 →
  tracked order ds1 ∧
  ∃ bes, out = acc ++ bes ∧ Forall2 (encodes ds) (drop i order) bes.
Proof.
  induction fuel as [|fuel IH]; intros ds w acc out ds1 w1 order i
    Htr Hit Hc; [done|].
  simpl in Hc.
  destruct (SummarizationDataset_next ds w) as [[[be ds'] w']|e] eqn:Hn.
  - destruct (arrays_agree_next _ _ _ _ _ _ (tracked_agree _ _ Htr) Hn)
      as (_ & i' & batch & Hit' & Hb & Henc).
    rewrite Hit in Hit'. simplify_eq.
    destruct (next_fields _ _ _ _ _ Hn)
      as (He & Hx & _ & _ & i & Hit' & Hit1).
    rewrite Hit in Hit'. simplify_eq.
    destruct (IH _ _ _ _ _ _ order (S i) (tracked_next _ _ _ _ _ _ Htr Hn)
                 Hit1 Hc) as (Htr1 & bes & -> & Hall).
    split; [done|]. exists (be :: bes). split; [by rewrite <- app_assoc|].
    rewrite (drop_S _ _ _ Hb). constructor; [done|].
    eapply Forall2_impl; [exact Hall|]. intros b0 be0.
    apply encodes_fields; congruence.
  - destruct (is_StopIteration e) eqn:He; [|done]. simplify_eq.
    split; [done|]. exists []. rewrite app_nil_r. split; [done|].
    destruct (next_StopIteration_inv _ _ _ Hn He) as [Hn0|Hn0];
      rewrite Hit in Hn0; simplify_eq.
    destruct (tracked_agree _ _ Htr) as (Hlo & _).
    rewrite drop_ge by lia. constructor.
Qed.

Lemma traverse_yields order ds w out ds1 w1 :
  tracked order ds →
  traverse ds w = Traversed out ds1 w1 →
  ∃ order', order' ≡ₚ order ∧ (shuffle ds = false → order' = order) ∧
            tracked order' ds1 ∧ Forall2 (encodes ds) order' out.
Proof.
  intros Htr Htrav. unfold traverse in Htrav.
  destruct (SummarizationDataset_iter ds w) as [[ds0 w0]|e] eqn:Hiter;
    [|done].
  destruct (iter_tracked _ _ _ _ _ Htr Hiter) as (order' & Htr' & Hp & Hs).
  destruct (iter_Ok_inv _ _ _ _ Hiter) as [Hit0 _].
  destruct (iter_fields _ _ _ _ Hiter) as (He & Hx & _).
  destruct (collect_yields _ _ _ _ _ _ _ _ 0%nat Htr' Hit0 Htrav)
    as (Htr1 & bes & -> & Hall).
  exists order'. split_and!; [done..|]. rewrite drop_0 in Hall. simpl.
  eapply Forall2_impl; [exact Hall|]. intros b0 be0.
  apply encodes_fields; congruence.
Qed.

(** X8: a full traversal of a dataset in use, shuffled or not, cached
    or not, yields as many batches as the dataset has and every batch
    exactly once: the batches yielded are, position by position, the
    encoded forms of a permutation of the batches the dataset holds. *)
Theorem traversal_yields_each_batch_once order ds w out ds1 w1 :
  tracked order ds →
  traverse ds w = Traversed out ds1 w1 →
  length out = num_batches ds ∧
  ∃ order', order' ≡ₚ order ∧ Forall2 (encodes ds) order' out.
Proof.
  intros Htr Htrav.
  destruct (traverse_yields _ _ _ _ _ _ Htr Htrav)
    as (order' & Hp & _ & _ & Hall).
  split; [|by exists order'].
  destruct (tracked_agree _ _ Htr) as (Hlo & _).
  rewrite <- (Forall2_length _ _ _ Hall), Hp. exact Hlo.
Qed.

(** The tokenizer gives ids for every list of summaries. *)
Definition tokenizer_gives_ids (enc : Encoder) : Prop :=
  ∀ summaries ctx,
    is_Some (tokenizer_call (tokenizer enc) summaries ctx !! "input_ids").

Lemma encode_batch_total enc ctx (batch : list Pair) w :
  tokenizer_gives_ids enc →
  ∃ be w', encode_batch enc ctx batch w = Ok (be, w').
Proof.
  intros Htok. unfold encode_batch.
  destruct (Htok (map snd batch) ctx) as [ids ->]. eauto.
Qed.

Lemma next_total order ds w i :
  tracked order ds → tokenizer_gives_ids (encoder ds) →
  it ds = Some i → (i < num_batches ds)%nat →
  ∃ be ds' w', SummarizationDataset_next ds w = Ok (be, ds', w').
Proof.
  intros Htr Htok Hit Hi.
  destruct (tracked_agree _ _ Htr) as (Hlo & Hlb & Hag).
  destruct (lookup_lt_is_Some_2 order i ltac:(lia)) as [batch Hb].
  destruct (lookup_lt_is_Some_2 (text_batches ds) i ltac:(lia)) as [raw Hraw].
  unfold SummarizationDataset_next. rewrite Hit.
  rewrite bool_decide_eq_false_2 by lia.
  unfold cache_lookup. simpl.
  destruct (cached ds) as [cache|] eqn:Hc; simpl.
  - destruct Hag as [Hlc Hag].
    destruct (lookup_lt_is_Some_2 cache i ltac:(lia)) as [c Hci].
    rewrite Hci. pose proof (Hag _ _ _ _ Hb Hraw Hci) as Hs.
    destruct c as [|be]; simpl in *.
    + subst raw. rewrite Hraw. simpl.
      destruct (encode_batch_total (encoder ds) (context_size ds) batch w
                  Htok) as (be & w' & ->). simpl. rewrite ?Hc. eauto.
    + destruct Hs as [_ Henc]. rewrite (encodes_truthy _ _ _ Henc).
      simpl. eauto.
  - rewrite Hag, list_lookup_fmap, Hb. simpl.
    destruct (encode_batch_total (encoder ds) (context_size ds) batch w
                Htok) as (be & w' & ->). simpl. rewrite ?Hc. eauto.
Qed.

Lemma collect_total fuel : ∀ ds w acc order i,
  tracked order ds → tokenizer_gives_ids (encoder ds) →
  it ds = Some i → (i ≤ num_batches ds)%nat →
  (num_batches ds - i < fuel)%nat →
  ∃ out ds1 w1, collect fuel ds w acc = Traversed out ds1 w1.
Proof.
  induction fuel as [|fuel IH]; intros ds w acc order i Htr Htok Hit Hi Hf;
    [lia|].
  simpl. destruct (decide (i = num_batches ds)) as [->|Hne].
  - unfold SummarizationDataset_next. rewrite Hit.
    rewrite bool_decide_eq_true_2 by done. simpl. eauto.
  - destruct (next_total order ds w i Htr Htok Hit ltac:(lia))
      as (be & ds' & w' & Hn).
    rewrite Hn.
    destruct (next_fields _ _ _ _ _ Hn)
      as (He & _ & Hnb & _ & i' & Hit' & Hit1).
    rewrite Hit in Hit'. simplify_eq.
    eapply (IH _ _ _ order (S i'));
      [by eapply tracked_next|by rewrite He|done|lia|lia].
Qed.

(** X9: when the tokenizer gives ids for every list of summaries, a
    full traversal of a dataset in use always returns: no step finds a
    dropped batch or an index out of range, whatever shuffles and
    partial traversals came before. *)
Theorem traversal_returns order ds w :
  tracked order ds → tokenizer_gives_ids (encoder ds) →
  ∃ out ds1 w1, traverse ds w = Traversed out ds1 w1.
Proof.
  intros Htr Htok. unfold traverse.
  destruct (iter_total order ds w Htr) as (ds0 & w0 & Hiter).
  rewrite Hiter.
  destruct (iter_tracked _ _ _ _ _ Htr Hiter) as (order' & Htr' & _).
  destruct (iter_Ok_inv _ _ _ _ Hiter) as [Hit0 Hnb].
  destruct (iter_fields _ _ _ _ Hiter) as (He & _).
  eapply (collect_total _ _ _ _ order' 0%nat);
    [done|by rewrite He|done|lia|lia].
Qed.

End Traversals.

(** ** Runs of a dataset in use *)

Section Runs.
Context `{NumpyRandom}.

Lemma run_ops_tracked ops : ∀ ds w out order out' ds' w',
  tracked order ds →
  run_ops ops ds w out = Ok (out', ds', w') →
  ∃ order', tracked order' ds' ∧ order' ≡ₚ order ∧
            (shuffle ds = false → order' = order) ∧
            shuffle ds' = shuffle ds ∧ encoder ds' = encoder ds ∧
            context_size ds' = context_size ds.
Proof.
  induction ops as [|[|] ops IH]; intros ds w out order out' ds' w' Htr Hrun;
    simpl in Hrun.
  - simplify_eq. by exists order.
  - destruct (SummarizationDataset_iter ds w) as [[ds1 w1]|e] eqn:Hiter;
      [|done].
    destruct (iter_tracked _ _ _ _ _ Htr Hiter) as (o1 & Htr1 & Hp1 & Hs1).
    destruct (iter_fields _ _ _ _ Hiter) as (He & Hx & Hsh & _).
    destruct (IH _ _ _ _ _ _ _ Htr1 Hrun)
      as (o2 & Htr2 & Hp2 & Hs2 & Hsh2 & He2 & Hx2).
    exists o2. split_and!; [done|by etrans|..|congruence|congruence|congruence].
    intros Hs. rewrite Hs2 by congruence. by apply Hs1.
  - destruct (SummarizationDataset_next ds w) as [[[be ds1] w1]|e] eqn:Hn.
    + destruct (next_fields _ _ _ _ _ Hn) as (He & Hx & _ & Hsh & _).
      destruct (IH _ _ _ _ _ _ _ (tracked_next _ _ _ _ _ _ Htr Hn) Hrun)
        as (o2 & Htr2 & Hp2 & Hs2 & Hsh2 & He2 & Hx2).
      exists o2. split_and!; [done..| |congruence|congruence|congruence].
      intros Hs. apply Hs2. congruence.
    + destruct (is_StopIteration e); [|done]. by eapply IH.
Qed.

(** X10: in a dataset built without shuffling, whatever traversals and
    steps came before, a full traversal yields the encoded forms of the
    batches of the construction, in the order of the construction. *)
Theorem unshuffled_traversal_in_construction_order
    pairs enc b ctx use_cache sd w ds0 w0 ops w1 out ds w2 w3 out' ds' w4 :
  SummarizationDataset_init pairs enc b ctx use_cache false sd w
  = Ok (ds0, w0) →
  run_ops ops ds0 w1 [] = Ok (out, ds, w2) →
  traverse ds w3 = Traversed out' ds' w4 →
  Forall2 (encodes ds0) (initial_order ds0) out'.
Proof.
  intros Hinit Hrun Htrav.
  pose proof (tracked_init _ _ _ _ _ _ _ _ _ _ Hinit) as Htr0.
  assert (Hs0 : shuffle ds0 = false).
  { by apply init_Ok_inv in Hinit as (_ & _ & _ & ->). }
  destruct (run_ops_tracked _ _ _ _ _ _ _ _ Htr0 Hrun)
    as (o1 & Htr1 & _ & Ho1 & Hsh & He & Hx).
  rewrite (Ho1 Hs0) in Htr1.
  destruct (traverse_yields _ _ _ _ _ _ Htr1 Htrav)
    as (o2 & _ & Ho2 & _ & Hall).
  rewrite (Ho2 ltac:(congruence)) in Hall.
  eapply Forall2_impl; [exact Hall|]. intros b0 be0.
  by apply encodes_fields.
Qed.

(** The number of populated slots of a cache, and of calls to the
    encoder in the record of calls. *)
Definition populated (cache : list (slot (gmap string tensor))) : nat :=
  sum_list (map (λ s, match s with Obj _ => 1 | Int0 => 0 end)%nat cache).

Definition encoder_calls (w : world) : nat :=
  sum_list (map (λ c, match c with EncoderCall _ => 1 | _ => 0 end)%nat
                (calls w)).

Lemma populated_perm c1 c2 : c1 ≡ₚ c2 → populated c1 = populated c2.
Proof.
  unfold populated.
  induction 1 as [|x l1 l2 _ IH|x y l|l1 l2 l3 _ IH1 _ IH2]; simpl; lia.
Qed.

Lemma populated_le cache : (populated cache ≤ length cache)%nat.
Proof.
  unfold populated. induction cache as [|[|be] cache IH]; simpl; lia.
Qed.

Lemma populated_replicate (n : nat) :
  populated (replicate n Int0) = 0%nat.
Proof. unfold populated. induction n as [|n IH]; [done|]. simpl. exact IH. Qed.

Lemma populated_insert cache : ∀ i be,
  cache !! i = Some Int0 →
  populated (<[i := Obj be]> cache) = S (populated cache).
Proof.
  unfold populated.
  induction cache as [|s cache IH]; intros [|i] be Hi; simpl in *;
    simplify_eq; simpl; [done|].
  rewrite (IH i be Hi). lia.
Qed.

Lemma sum_list_append (l k : list nat) :
  sum_list (l ++ k) = (sum_list l + sum_list k)%nat.
Proof. induction l as [|x l IH]; simpl; lia. Qed.

Lemma encoder_calls_log_call c w :
  encoder_calls (log_call c w)
  = (encoder_calls w + match c with EncoderCall _ => 1 | _ => 0 end)%nat.
Proof.
  unfold encoder_calls, log_call. simpl.
  rewrite map_app, sum_list_append. simpl. lia.
Qed.

Lemma next_encodes_once order ds w be ds' w' cache :
  tracked order ds → cached ds = Some cache →
  SummarizationDataset_next ds w = Ok (be, ds', w') →
  ∃ cache', cached ds' = Some cache' ∧
            (encoder_calls w' + populated cache
             = encoder_calls w + populated cache')%nat.
Proof.
  intros Htr Hc Hn.
  destruct (tracked_agree _ _ Htr) as (Hlo & Hlb & Hag).
  rewrite Hc in Hag. destruct Hag as [Hlc Hag].
  destruct (next_Ok_inv _ _ _ _ _ Hn) as (i & Hit & Hi & [Hh|Hm]).
  - destruct Hh as (c & Hc' & _ & _ & -> & ->). exists cache. by split.
  - destruct Hm as (batch & Hraw & Hlook & Henc & ->). rewrite Hc.
    exists (<[i := Obj be]> cache). split; [done|].
    apply encode_batch_Ok_inv in Henc as (ids & _ & _ & ->).
    rewrite !encoder_calls_log_call.
    assert (cache !! i = Some Int0) as Hci.
    { unfold cache_lookup in Hlook. rewrite Hc in Hlook.
      destruct (cache !! i) as [[|be0]|] eqn:Hci; [done| |done].
      pose proof (lookup_lt_Some _ _ _ Hci) as Hlt.
      destruct (lookup_lt_is_Some_2 order i ltac:(lia)) as [b0 Hb0].
      destruct (Hag _ _ _ _ Hb0 Hraw Hci) as [_ He].
      apply encodes_truthy in He. by rewrite He in Hlook. }
    rewrite (populated_insert _ _ _ Hci). lia.
Qed.

Lemma iter_keeps_populated order ds w ds' w' cache :
  tracked order ds → cached ds = Some cache →
  SummarizationDataset_iter ds w = Ok (ds', w') →
  ∃ cache', cached ds' = Some cache' ∧ populated cache' = populated cache ∧
            encoder_calls w' = encoder_calls w.
Proof.
  intros Htr Hc Hiter.
  destruct (iter_fields _ _ _ _ Hiter) as (_ & _ & _ & Hcalls & _).
  assert (encoder_calls w' = encoder_calls w) as Hcount
    by (unfold encoder_calls; by rewrite Hcalls).
  destruct (shuffle ds) eqn:Hs.
  - destruct (iter_shuffle_inv _ _ _ _ Hs Hiter)
      as (b & c & _ & Hc' & -> & _).
    rewrite Hc in Hc'. destruct Hc' as (c' & Hfi & ->).
    exists c'. split_and!; [done| |done].
    apply populated_perm. eapply fancy_index_perm; [|exact Hfi].
    destruct (tracked_agree _ _ Htr) as (_ & _ & Hag).
    rewrite Hc in Hag. destruct Hag as [-> _].
    apply np_random_permutation_perm.
  - rewrite iter_no_shuffle in Hiter by done. simplify_eq.
    exists cache. by split_and!.
Qed.

Lemma run_ops_encodes_once ops : ∀ ds w out order cache out' ds' w',
  tracked order ds → cached ds = Some cache →
  run_ops ops ds w out = Ok (out', ds', w') →
  ∃ cache', cached ds' = Some cache' ∧
            length cache' = num_batches ds' ∧
            num_batches ds' = num_batches ds ∧
            (encoder_calls w' + populated cache
             = encoder_calls w + populated cache')%nat.
Proof.
  induction ops as [|[|] ops IH];
    intros ds w out order cache out' ds' w' Htr Hc Hrun; simpl in Hrun.
  - simplify_eq. exists cache. split_and!; [done| |done..].
    destruct (tracked_agree _ _ Htr) as (_ & _ & Hag).
    rewrite Hc in Hag. by destruct Hag.
  - destruct (SummarizationDataset_iter ds w) as [[ds1 w1]|e] eqn:Hiter;
      [|done].
    destruct (iter_keeps_populated _ _ _ _ _ _ Htr Hc Hiter)
      as (c1 & Hc1 & Hp1 & Hn1).
    destruct (iter_tracked _ _ _ _ _ Htr Hiter) as (o1 & Htr1 & _).
    destruct (iter_Ok_inv _ _ _ _ Hiter) as [_ Hnb].
    destruct (IH _ _ _ _ _ _ _ _ Htr1 Hc1 Hrun)
      as (c2 & Hc2 & Hl2 & Hnb2 & Hcount).
    exists c2. split_and!; [done|done|congruence|lia].
  - destruct (SummarizationDataset_next ds w) as [[[be ds1] w1]|e] eqn:Hn.
    + destruct (next_encodes_once _ _ _ _ _ _ _ Htr Hc Hn)
        as (c1 & Hc1 & Hcount1).
      destruct (next_fields _ _ _ _ _ Hn) as (_ & _ & Hnb & _).
      destruct (IH _ _ _ _ _ _ _ _ (tracked_next _ _ _ _ _ _ Htr Hn) Hc1 Hrun)
        as (c2 & Hc2 & Hl2 & Hnb2 & Hcount2).
      exists c2. split_and!; [done|done|congruence|lia].
    + destruct (is_StopIteration e); [|done]. by eapply IH.
Qed.

(** X11: in a dataset built with a cache, over any run of traversals
    and steps in which no step raised an exception other than
    [StopIteration], the encoder has been called once for each
    populated cache slot and never more: as long as no step fails,
    each batch is encoded at most once, shuffles included. *)
Theorem cache_encodes_each_batch_once
    pairs enc b ctx shuf sd w ds0 w0 ops w1 out ds w2 :
  SummarizationDataset_init pairs enc b ctx true shuf sd w = Ok (ds0, w0) →
  run_ops ops ds0 w1 [] = Ok (out, ds, w2) →
  ∃ cache, cached ds = Some cache ∧
           encoder_calls w2 = (encoder_calls w1 + populated cache)%nat ∧
           (encoder_calls w2 ≤ encoder_calls w1 + num_batches ds0)%nat.
Proof.
  intros Hinit Hrun.
  pose proof (tracked_init _ _ _ _ _ _ _ _ _ _ Hinit) as Htr0.
  assert (Hc0 : cached ds0 = Some (replicate (num_batches ds0) Int0)).
  { by apply init_Ok_inv in Hinit as (_ & _ & _ & ->). }
  destruct (run_ops_encodes_once _ _ _ _ _ _ _ _ _ Htr0 Hc0 Hrun)
    as (c & Hc & Hl & Hnb & Hcount).
  pose proof (populated_replicate (num_batches ds0)) as H0.
  rewrite H0 in Hcount. exists c. split_and!; [done|lia|].
  pose proof (populated_le c). lia.
Qed.

(** The calls a batch costs when it is encoded. *)
Definition batch_calls (ctx : Z) (batch : list Pair) : list call :=
  [EncoderCall (map fst batch); TokenizerCall (map snd batch) ctx].

Lemma collect_calls fuel : ∀ ds w acc out ds1 w1 order i,
  tracked order ds → cached ds = None → it ds = Some i →
  collect fuel ds w acc = Traversed out ds1 w1 →
  calls w1
  = calls w ++ mjoin (map (batch_calls (context_size ds)) (drop i order)).
Proof.
  induction fuel as [|fuel IH]; intros ds w acc out ds1 w1 order i
    Htr Hc Hit Hcol; [done|].
  simpl in Hcol.
  destruct (SummarizationDataset_next ds w) as [[[be ds'] w']|e] eqn:Hn.
  - destruct (tracked_agree _ _ Htr) as (Hlo & Hlb & Hag).
    rewrite Hc in Hag.
    destruct (next_Ok_inv _ _ _ _ _ Hn) as (i' & Hit' & Hi & [Hh|Hm]);
      rewrite Hit in Hit'; simplify_eq.
    { destruct Hh as (c & Hc' & _). congruence. }
    destruct Hm as (batch & Hraw & _ & Henc & Hds').
    rewrite Hc in Hds'. subst ds'.
    rewrite Hag, list_lookup_fmap in Hraw.
    destruct (order !! i') as [b0|] eqn:Hb; simpl in Hraw; [|done].
    simplify_eq.
    apply encode_batch_Ok_inv in Henc as (ids & _ & _ & ->).
    rewrite (IH _ _ _ _ _ _ order (S i')
               (tracked_next _ _ _ _ _ _ Htr Hn) Hc eq_refl Hcol).
    rewrite (drop_S _ _ _ Hb). simpl. by rewrite <- !app_assoc.
  - destruct (is_StopIteration e) eqn:He; [|done]. simplify_eq.
    destruct (next_StopIteration_inv _ _ _ Hn He) as [Hn0|Hn0];
      rewrite Hit in Hn0; simplify_eq.
    destruct (tracked_agree _ _ Htr) as (Hlo & _).
    rewrite drop_ge by lia. simpl. by rewrite app_nil_r.
Qed.

(** X12: without a cache every traversal encodes every batch again:
    the calls it adds to the record are, batch by batch in the order of
    the traversal, one call of the encoder on the texts and one call of
    the tokenizer on the summaries with the context size. *)
Theorem uncached_traversal_encodes_all order ds w out ds1 w1 :
  tracked order ds → cached ds = None →
  traverse ds w = Traversed out ds1 w1 →
  ∃ order', order' ≡ₚ order ∧ (shuffle ds = false → order' = order) ∧
            calls w1
            = calls w ++ mjoin (map (batch_calls (context_size ds)) order').
Proof.
  intros Htr Hc Htrav. unfold traverse in Htrav.
  destruct (SummarizationDataset_iter ds w) as [[ds0 w0]|e] eqn:Hiter;
    [|done].
  destruct (iter_tracked _ _ _ _ _ Htr Hiter) as (order' & Htr' & Hp & Hs).
  destruct (iter_Ok_inv _ _ _ _ Hiter) as [Hit0 _].
  destruct (iter_fields _ _ _ _ Hiter) as (_ & Hx & _ & Hcalls & Hnone).
  exists order'. split_and!; [done..|].
  rewrite (collect_calls _ _ _ _ _ _ _ order' 0%nat Htr'
             (proj1 Hnone Hc) Hit0 Htrav).
  by rewrite drop_0, Hcalls, Hx.
Qed.

(** X13: in a dataset in use with a cache, the stored pairs of a batch
    are dropped exactly when its cache slot is populated; without a
    cache no batch is ever dropped. *)
Theorem raw_batch_dropped_iff_cached order ds :
  tracked order ds →
  match cached ds with
  | Some cache =>
      ∀ i, (i < num_batches ds)%nat →
           (text_batches ds !! i = Some Int0
            ↔ ∃ be, cache !! i = Some (Obj be))
  | None => text_batches ds = map Obj order
  end.
Proof.
  intros Htr. destruct (tracked_agree _ _ Htr) as (Hlo & Hlb & Hag).
  destruct (cached ds) as [cache|]; [|done].
  destruct Hag as [Hlc Hag]. intros i Hi.
  destruct (lookup_lt_is_Some_2 order i ltac:(lia)) as [batch Hb].
  destruct (lookup_lt_is_Some_2 (text_batches ds) i ltac:(lia)) as [raw Hraw].
  destruct (lookup_lt_is_Some_2 cache i ltac:(lia)) as [c Hc].
  pose proof (Hag _ _ _ _ Hb Hraw Hc) as Hs.
  rewrite Hraw, Hc. destruct c as [|be]; simpl in Hs.
  - subst raw. split; [done|]. by intros [be ?].
  - destruct Hs as [-> _]. split; [eauto|done].
Qed.

End Runs.

(** ** More on the evaluator *)

Section EvaluatorRuns.
Context `{NumpyRandom}.

(** The time the loop of [generate_summaries] records for the pipeline
    of index [k], when the clock had been read [reads] times before. *)
Definition pipeline_time (w : world) (reads k : nat) : Q :=
  ((perf_clock w (reads + 2 * k + 1) - perf_clock w (reads + 2 * k)) * 1000)%Q.

Lemma run_pipelines_times ps : ∀ index txts acc times w,
  let '(_, times', w') := run_pipelines ps index txts acc times w in
  times' = times ++ map (pipeline_time w (clock_reads w)) (seq 0 (length ps))
  ∧ perf_clock w' = perf_clock w
  ∧ clock_reads w' = (clock_reads w + 2 * length ps)%nat.
Proof.
  induction ps as [|p ps IH]; intros index txts acc times w; simpl.
  - rewrite app_nil_r. split_and!; [done..|lia].
  - specialize (IH (S index) txts (acc ++ p txts)
                   (times ++ [((perf_clock w (S (clock_reads w))
                                - perf_clock w (clock_reads w)) * 1000)%Q])
                   (perf_counter (log_call (PipelineCall index txts)
                                           (perf_counter w).2)).2).
    simpl in *.
    destruct (run_pipelines ps (S index) txts _ _ _) as [[out tt] w'].
    destruct IH as (-> & Hclock & Hreads). split_and!; [|done|lia].
    rewrite <- app_assoc. f_equal. simpl. f_equal.
    + unfold pipeline_time.
      replace (clock_reads w + 2 * 0 + 1)%nat with (S (clock_reads w)) by lia.
      by replace (clock_reads w + 2 * 0)%nat with (clock_reads w) by lia.
    + rewrite <- seq_shift, map_map. apply map_ext. intros k.
      unfold pipeline_time.
      replace (S (S (clock_reads w)) + 2 * k + 1)%nat
        with (clock_reads w + 2 * S k + 1)%nat by lia.
      by replace (S (S (clock_reads w)) + 2 * k)%nat
        with (clock_reads w + 2 * S k)%nat by lia.
Qed.

(** X14: [generate_summaries] adds to the summaries generated so far,
    after them, the outputs of the pipelines on the held-out texts in
    the order of registration, and returns one time for each pipeline;
    it changes neither the pipelines nor the texts nor the
    references. *)
Theorem generate_summaries_appends ev w :
  let '(time_taken, ev', w') := generate_summaries ev w in
  generated_summaries ev'
  = generated_summaries ev
    ++ mjoin (map (λ f : pipeline, f (texts ev)) (pipelines ev)) ∧
  length time_taken = length (pipelines ev) ∧
  pipelines ev' = pipelines ev ∧ texts ev' = texts ev ∧
  summaries ev' = summaries ev.
Proof.
  unfold generate_summaries.
  pose proof (run_pipelines_calls (pipelines ev) 0 (texts ev)
                (generated_summaries ev) [] w) as Hout.
  pose proof (run_pipelines_times (pipelines ev) 0 (texts ev)
                (generated_summaries ev) [] w) as Htimes.
  destruct (run_pipelines _ _ _ _ _ _) as [[out tt] w'].
  destruct Hout as (_ & -> & _). destruct Htimes as (-> & _). simpl.
  split_and!; [done| |done..]. by rewrite length_map, length_seq.
Qed.

(** X15: when the clock never runs backwards, every time
    [generate_summaries] returns is at least 0. *)
Theorem generate_summaries_times_nonnegative ev w :
  (∀ n, perf_clock w n <= perf_clock w (S n))%Q →
  Forall (λ t, 0 <= t)%Q (generate_summaries ev w).1.1.
Proof.
  intros Hclock. unfold generate_summaries.
  pose proof (run_pipelines_times (pipelines ev) 0 (texts ev)
                (generated_summaries ev) [] w) as Htimes.
  destruct (run_pipelines _ _ _ _ _ _) as [[out tt] w'].
  destruct Htimes as (-> & _). simpl.
  apply Forall_fmap, Forall_forall. intros k _. simpl.
  unfold pipeline_time. rewrite Nat.add_1_r.
  apply Qmult_le_0_compat; [|done].
  unfold Qminus. rewrite <- Qle_minus_iff. apply Hclock.
Qed.

(** [get_bertscore] when summaries have been generated before. *)
Lemma get_bertscore_ready ev w :
  generated_summaries ev ≠ [] →
  get_bertscore ev w
  = (metrics ← bert_scorer ev (generated_summaries ev)
                 (list_imul (summaries ev) (length (pipelines ev)));
     result_mapM (row_means (length (pipelines ev))) metrics,
     set_summaries (list_imul (summaries ev) (length (pipelines ev))) ev,
     w).
Proof.
  intros Hgen. unfold get_bertscore.
  destruct (generated_summaries ev) eqn:Hg; [done|]. simpl.
  by rewrite Hg.
Qed.

(** X16: two calls of [get_bertscore] in a row on a fresh evaluator
    with [p] pipelines and [n] texts: the second call runs no pipeline
    and scores the [p * n] summaries of the one generation pass against
    [p * p * n] references, the stored references having been repeated
    by each call. *)
Theorem get_bertscore_twice ev w :
  generated_summaries ev = [] →
  (0 < length (pipelines ev))%nat → (0 < length (texts ev))%nat →
  length (summaries ev) = length (texts ev) →
  Forall (λ f : pipeline, length (f (texts ev)) = length (texts ev))
         (pipelines ev) →
  let p := length (pipelines ev) in
  let n := length (texts ev) in
  let '(_, ev1, w1) := get_bertscore ev w in
  let '(r2, ev2, w2) := get_bertscore ev1 w1 in
  w2 = w1 ∧
  length (generated_summaries ev2) = (p * n)%nat ∧
  length (summaries ev2) = (p * p * n)%nat ∧
  r2 = (metrics ← bert_scorer ev1 (generated_summaries ev2) (summaries ev2);
        result_mapM (row_means p) metrics).
Proof.
  intros Hgen Hp Hn Hrefs Hpipes p n.
  pose proof (get_bertscore_fresh ev w Hgen) as H1.
  pose proof (get_bertscore_frame ev w) as Hf1.
  destruct (get_bertscore ev w) as [[r1 ev1] w1].
  destruct H1 as (_ & Hg1 & Hs1 & _). destruct Hf1 as (_ & Ht1 & Hp1).
  assert (Hlg : length (generated_summaries ev1) = (p * n)%nat).
  { rewrite Hg1. erewrite length_join_const.
    - by rewrite length_map.
    - by apply Forall_fmap. }
  assert (Hne : generated_summaries ev1 ≠ []).
  { intros Hnil. rewrite Hnil in Hlg. simpl in Hlg. subst p n. nia. }
  rewrite (get_bertscore_ready ev1 w1 Hne). simpl. rewrite Hp1. fold p.
  split_and!; [done..| |done].
  rewrite Hs1. fold p. unfold list_imul.
  erewrite length_join_const; [|apply Forall_replicate; reflexivity].
  rewrite length_replicate.
  erewrite length_join_const; [|apply Forall_replicate; reflexivity].
  rewrite length_replicate, Hrefs. fold n. lia.
Qed.

Lemma chunks_lookup {A} rows : ∀ width (l : list A) k,
  (k < rows)%nat →
  chunks rows width l !! k = Some (take width (drop (k * width) l)).
Proof.
  induction rows as [|rows IH]; intros width l k Hk; [lia|].
  destruct k as [|k]; simpl; [done|].
  rewrite IH by lia. by rewrite drop_drop.
Qed.

(** X17: the rows [get_bertscore] takes its means over: when
    [metric.reshape((p, -1))] succeeds, the metric has [p * n] values,
    there are [p] rows, and the row of index [k] holds the [n] values
    from position [k * n] on, that is the scores of the summaries of
    the pipeline of index [k]; with an empty metric the rows are
    empty. *)
Theorem reshape_rows_by_pipeline p metric rows k :
  reshape_rows p metric = Ok rows → (k < p)%nat →
  let n := (length metric / p)%nat in
  length metric = (p * n)%nat ∧ length rows = p ∧
  rows !! k = Some (take n (drop (k * n) metric)) ∧
  (metric = [] → rows !! k = Some []).
Proof.
  intros Hm Hk. simpl. unfold reshape_rows in Hm.
  case_bool_decide as Hp0; [by case_bool_decide|].
  case_bool_decide as Hmod; [|done]. simplify_eq.
  pose proof (Nat.div_mod_eq (length metric) p) as Hdiv.
  rewrite Hmod, Nat.add_0_r in Hdiv.
  rewrite chunks_lookup by done.
  split_and!; [done|apply length_chunks|done|].
  intros ->. by rewrite drop_nil, take_nil.
Qed.

End EvaluatorRuns.

(** ** More on train_model *)

Section TrainingRuns.
Context `{NumpyRandom} {T : Type}.
Variable show_float : Q → string.
Variable show_round : Q → Z → string.
Variable tr : @Trainer T.
Variables (epochs flt_prec : Z).

Local Notation step := (batch_step show_float show_round tr).
Local Notation batches := (train_batches show_float show_round).
Local Notation epoch_turn := (train_epoch show_float show_round tr).
Local Notation epochs_loop := (train_epochs show_float show_round).

(** The inner loop makes at most one turn per batch left. *)
Lemma train_batches_fuel fuel : ∀ nb epoch batch et el t ds w i,
  it ds = Some i → (i ≤ num_batches ds)%nat →
  (num_batches ds - i < fuel)%nat →
  batches fuel tr epoch epochs flt_prec nb batch et el t ds w
  ≠ BatchesNoFuel.
Proof.
  induction fuel as [|fuel IH]; intros nb epoch batch et el t ds w i
    Hit Hi Hf; [lia|].
  simpl.
  destruct (step epoch epochs flt_prec nb batch et el t ds w)
    as [et1 el1 t1 ds1 w1| | |] eqn:Hstep; [|done..].
  apply step_next_inv in Hstep
    as (i' & loss & Hit' & Hne & Hit1 & Hn1 & _).
  rewrite Hit in Hit'. simplify_eq.
  apply (IH _ _ _ _ _ _ _ _ (S i')); [done|lia|lia].
Qed.

Lemma train_epochs_bounded r : ∀ epoch t ds w losses,
  epochs_loop r tr epoch epochs flt_prec (num_batches ds) t ds w losses
  ≠ NoFuel ∧
  ∀ losses' w',
    epochs_loop r tr epoch epochs flt_prec (num_batches ds) t ds w losses
    = Returned losses' w' →
    (length losses ≤ length losses' ≤ length losses + r)%nat.
Proof.
  induction r as [|r IH]; intros epoch t ds w losses; simpl.
  - split; [done|]. intros ? ? [= <- <-]. lia.
  - destruct (epoch_turn epoch epochs flt_prec (num_batches ds) t ds w losses)
      as [t1 ds1 w1 losses1| | |] eqn:He.
    + apply train_epoch_next_inv in He as (Hn1 & _ & Hl); [|done].
      destruct (IH (S epoch) t1 ds1 w1 losses1) as [Hfuel Hlen].
      rewrite Hn1 in Hfuel, Hlen. split; [done|].
      intros losses' w' Hr. apply Hlen in Hr.
      rewrite Hl, length_app in Hr. simpl in Hr. lia.
    + split; [done|]. intros ? ? [= <- <-]. lia.
    + done.
    + exfalso. unfold train_epoch in He.
      destruct (SummarizationDataset_iter ds w) as [[ds0 w0]|e] eqn:Hiter;
        [|done].
      destruct (iter_Ok_inv _ _ _ _ Hiter) as [Hit0 Hn0].
      destruct (train_batches _ _ _ _ _ _ _ _ _ _ _ _ _ _)
        as [et1 el1 t1 ds1 w1| | |] eqn:Hb; try done.
      * case_bool_decide; [done|].
        by destruct (match scheduler_step tr with
                     | Some f => f t1 _
                     | None => Ok t1
                     end).
      * revert Hb. by apply (train_batches_fuel _ _ _ _ _ _ _ _ _ 0%nat);
          [|lia|lia].
Qed.

(** X18: [train_model] always comes to an end, by returning or by
    raising an exception, and a list of losses it returns has at most
    one entry per requested epoch. *)
Theorem train_model_bounded t dataset w :
  train_model show_float show_round tr t dataset epochs flt_prec w ≠ NoFuel ∧
  ∀ losses w',
    train_model show_float show_round tr t dataset epochs flt_prec w
    = Returned losses w' →
    (length losses ≤ Z.to_nat epochs)%nat.
Proof.
  unfold train_model, SummarizationDataset_len.
  destruct (model_to tr t) as [t1|e]; [|done].
  destruct (model_train tr t1) as [t2|e]; [|done].
  destruct (train_epochs_bounded (Z.to_nat epochs) 0 t2 dataset w [])
    as [Hfuel Hlen].
  split; [done|]. intros losses w' Hr. apply Hlen in Hr. simpl in Hr. lia.
Qed.

(** X19: an exception raised by the dataset while it produces a batch
    (the encoding of the batch, outside the [try]) is not caught: after
    [k] completed epochs and [j] processed batches, it leaves
    [train_model] and no list of losses is returned. *)
Theorem dataset_exception_propagates
    t dataset w t1 t2 k tk dsk wk losses history ds0 w0
    j et el tj dsj wj seen e :
  model_to tr t = Ok t1 → model_train tr t1 = Ok t2 →
  (k < Z.to_nat epochs)%nat →
  epochs_prefix show_float show_round tr epochs flt_prec
                (num_batches dataset) k 0 t2 dataset w []
  = Some (tk, dsk, wk, losses, history) →
  SummarizationDataset_iter dsk wk = Ok (ds0, w0) →
  batches_prefix show_float show_round tr epochs flt_prec
                 (num_batches dataset) j k 0 0%Q 0%Q tk ds0 w0
  = Some ((et, el, tj, dsj, wj), seen) →
  SummarizationDataset_next dsj wj = Raise e →
  is_StopIteration e = false →
  train_model show_float show_round tr t dataset epochs flt_prec w
  = Raised e.
Proof.
  intros Hto Htrain Hk Hepochs Hiter Hbatches Hnext He.
  pose proof Hepochs as Hinv.
  apply epochs_prefix_inv in Hinv as (Hnk & _); [|done].
  unfold train_model, SummarizationDataset_len. rewrite Hto, Htrain.
  replace (Z.to_nat epochs) with (k + S (Z.to_nat epochs - S k))%nat by lia.
  erewrite train_epochs_prefix by exact Hepochs.
  simpl. unfold train_epoch. rewrite Hiter.
  destruct (iter_Ok_inv _ _ _ _ Hiter) as [Hit0 Hn0].
  pose proof Hbatches as Hcur.
  eapply (batches_prefix_cursor) with (i := 0%nat) in Hcur; [|done|lia].
  simpl in Hcur. destruct Hcur as (_ & _ & Hj & _).
  replace (S (num_batches dataset))
    with (j + S (num_batches dataset - j))%nat by lia.
  pose proof Hbatches as Hpre.
  apply train_batches_prefix with (fuel := S (num_batches dataset - j))
    in Hpre.
  simpl in Hpre. rewrite Hpre. simpl. unfold batch_step.
  by rewrite Hnext, He.
Qed.

(** X20: on a dataset in use that holds no batch, when at least one
    epoch is requested and the model is moved and set to training
    without an exception, [train_model] raises [ZeroDivisionError]:
    the first epoch ends at once and divides by the number of
    batches. *)
Theorem empty_dataset_division_by_zero order t dataset w t1 t2 :
  tracked order dataset → num_batches dataset = 0%nat → 0 < epochs →
  model_to tr t = Ok t1 → model_train tr t1 = Ok t2 →
  train_model show_float show_round tr t dataset epochs flt_prec w
  = Raised (PyExc "ZeroDivisionError" "division by zero" true).
Proof.
  intros Htr Hnb Hep Hto Htrain.
  unfold train_model, SummarizationDataset_len. rewrite Hto, Htrain, Hnb.
  destruct (Z.to_nat epochs) as [|r] eqn:Hr; [lia|]. simpl.
  unfold train_epoch.
  destruct (iter_total order dataset w Htr) as (ds0 & w0 & Hiter).
  rewrite Hiter. destruct (iter_Ok_inv _ _ _ _ Hiter) as [Hit0 Hn0].
  simpl. unfold batch_step, SummarizationDataset_next. rewrite Hit0.
  rewrite bool_decide_eq_true_2 by congruence. done.
Qed.

(** No operation of the trainer raises. *)
Definition trainer_never_raises : Prop :=
  (∀ t inputs, ∃ inputs', inputs_to tr t inputs = Ok inputs') ∧
  (∀ t inputs, ∃ loss t', forward_loss tr t inputs = Ok (loss, t')) ∧
  (∀ t, ∃ t', zero_grad tr t = Ok t') ∧
  (∀ t, ∃ t', backward tr t = Ok t') ∧
  (∀ t, ∃ t', optimizer_step tr t = Ok t') ∧
  match scheduler_step tr with
  | Some f => ∀ t loss, ∃ t', f t loss = Ok t'
  | None => True
  end.

Lemma process_batch_total t inputs w :
  trainer_never_raises →
  ∃ time loss t' w', process_batch tr t inputs w = (Ok (time, loss, t'), w').
Proof.
  intros (Hto & Hfw & Hzg & Hbw & Hos & _). unfold process_batch.
  destruct (Hto t inputs) as [inputs' ->].
  destruct (Hfw t inputs') as (loss & t1 & ->). simpl.
  destruct (Hzg t1) as [t2 ->]. simpl.
  destruct (Hbw t2) as [t3 ->]. simpl.
  destruct (Hos t3) as [t4 ->]. simpl. eauto.
Qed.

Lemma train_batches_total fuel : ∀ nb epoch batch et el t ds w order i,
  trainer_never_raises →
  tracked order ds → tokenizer_gives_ids (encoder ds) →
  it ds = Some i → (i ≤ num_batches ds)%nat →
  (num_batches ds - i < fuel)%nat →
  ∃ et' el' t' ds' w',
    batches fuel tr epoch epochs flt_prec nb batch et el t ds w
    = BatchesDone et' el' t' ds' w' ∧
    tracked order ds' ∧ encoder ds' = encoder ds.
Proof.
  induction fuel as [|fuel IH]; intros nb epoch batch et el t ds w order i
    Hnr Htr Htok Hit Hi Hf; [lia|].
  simpl. unfold batch_step.
  destruct (decide (i = num_batches ds)) as [->|Hne].
  - unfold SummarizationDataset_next. rewrite Hit.
    rewrite bool_decide_eq_true_2 by done. simpl. eauto 10.
  - destruct (next_total order ds w i Htr Htok Hit ltac:(lia))
      as (be & ds' & w' & Hn).
    rewrite Hn.
    destruct (process_batch_total t be w' Hnr) as (time & loss & t' & w'' & ->).
    destruct (next_fields _ _ _ _ _ Hn)
      as (He & _ & Hnb & _ & i' & Hit' & Hit1).
    rewrite Hit in Hit'. simplify_eq.
    edestruct (IH nb epoch (S batch) (et + time)%Q (el + loss)%Q t' ds'
                  (print (progress_line show_float show_round epoch epochs
                            batch nb flt_prec time loss (et + time)%Q) w'')
                  order (S i'))
      as (et' & el' & t'' & ds'' & w3 & -> & Htr' & He');
      [done|by eapply tracked_next|by rewrite He|done|lia|lia|].
    eexists _, _, _, _, _. split_and!; [done..|congruence].
Qed.

Lemma train_epochs_total r : ∀ epoch t ds w losses order,
  trainer_never_raises →
  tracked order ds → tokenizer_gives_ids (encoder ds) →
  (0 < num_batches ds)%nat →
  ∃ losses' w',
    epochs_loop r tr epoch epochs flt_prec (num_batches ds) t ds w losses
    = Returned losses' w' ∧
    length losses' = (length losses + r)%nat.
Proof.
  induction r as [|r IH]; intros epoch t ds w losses order Hnr Htr Htok Hnb.
  - simpl. eexists _, _. split; [done|lia].
  - simpl. unfold train_epoch.
    destruct (iter_total order ds w Htr) as (ds0 & w0 & Hiter).
    rewrite Hiter.
    destruct (iter_tracked _ _ _ _ _ Htr Hiter) as (order' & Htr' & _).
    destruct (iter_Ok_inv _ _ _ _ Hiter) as [Hit0 Hn0].
    destruct (iter_fields _ _ _ _ Hiter) as (He & _).
    destruct (train_batches_total (S (num_batches ds)) (num_batches ds) epoch
                0%nat 0%Q 0%Q t ds0 w0 order' 0%nat Hnr Htr'
                ltac:(by rewrite He) Hit0 ltac:(lia) ltac:(lia))
      as (et' & el' & t' & ds' & w' & -> & Htr1 & He1).
    rewrite bool_decide_eq_false_2 by lia.
    assert (Hnb1 : num_batches ds' = num_batches ds).
    { destruct (tracked_agree _ _ Htr1) as (Hl1 & _).
      destruct (tracked_agree _ _ Htr') as (Hl0 & _). congruence. }
    set (loss := (el' / inject_Z (Z.of_nat (num_batches ds)))%Q).
    assert (∃ t2, match scheduler_step tr with
                  | Some f => f t' loss
                  | None => Ok t'
                  end = Ok t2) as [t2 ->].
    { destruct Hnr as (_ & _ & _ & _ & _ & Hsch).
      destruct (scheduler_step tr) as [f|]; [apply Hsch|eauto]. }
    rewrite <- Hnb1.
    match goal with
    | |- context [train_epochs _ _ r tr (S epoch) _ _ _ t2 ds' ?w3 ?l] =>
        destruct (IH (S epoch) t2 ds' w3 l order' Hnr Htr1)
          as (losses' & w2 & -> & Hlen); [by rewrite He1, He|lia|]
    end.
    eexists _, _. split; [done|].
    rewrite Hlen, length_app. simpl. lia.
Qed.

(** X21: when no operation of the trainer or the scheduler raises, the
    tokenizer gives ids for every list of summaries and the dataset in
    use holds at least one batch, [train_model] returns a list of
    exactly as many losses as epochs were requested (none when the
    number of epochs is 0 or below). *)
Theorem train_model_completes order t dataset w :
  trainer_never_raises →
  (∀ t, ∃ t', model_to tr t = Ok t') →
  (∀ t, ∃ t', model_train tr t = Ok t') →
  tracked order dataset → tokenizer_gives_ids (encoder dataset) →
  (0 < num_batches dataset)%nat →
  ∃ losses w',
    train_model show_float show_round tr t dataset epochs flt_prec w
    = Returned losses w' ∧
    length losses = Z.to_nat epochs.
Proof.
  intros Hnr Hto Htrain Htr Htok Hnb.
  unfold train_model, SummarizationDataset_len.
  destruct (Hto t) as [t1 ->]. destruct (Htrain t1) as [t2 ->].
  destruct (train_epochs_total (Z.to_nat epochs) 0 t2 dataset w [] order
              Hnr Htr Htok Hnb) as (losses & w' & -> & Hlen).
  by exists losses, w'.
Qed.

End TrainingRuns.

(** ** TextProcessor

    The regular expressions are Python's: compiling a pattern and
    substituting with a compiled pattern are taken as they come.
    Pattern sources are kept as written in the source file, characters
    above 255 in UTF-8. *)

Section TextProcessing.

Variable regex : Type.
(** [re.compile(pattern)], which raises on a malformed pattern. *)
Variable re_compile : string → result regex.
(** [pattern.sub(repl, text)] *)
Variable re_sub : regex → string → string → string.

Definition double_quote : string := String (ascii_of_nat 34) EmptyString.
Definition line_feed : string := String (ascii_of_nat 10) EmptyString.

Definition preprocessing_pats_subs : list (string * string) :=
  [("‘|’", "'");
   ("“|”", double_quote);
   ("[^\x00-\x7f]+", "");
   ("[^\s]+@[^\s]+\.com", "");
   ("[^\s]*://[^\s]*", "");
   ("#[^\s]+", "");
   ("<[^\n>]+>", "")].

Definition number_pat_sub : string * string := ("[+?\d+-?]+", "").

Definition whitespace_pats_subs : list (string * string) :=
  [("([ \t]){2,}", "\1");
   ("[ \t]\n", line_feed);
   ("\n{3,}", line_feed +:+ line_feed)].

Record TextProcessor := { pats_subs : list (regex * string) }.

(** A pattern of the list under construction: a source, or a compiled
    pattern. *)
Definition as_source (rule : string * string) : (string + regex) * string :=
  (inl rule.1, rule.2).

(** [re.compile] on a source or on a compiled pattern, which it hands
    back. *)
Definition compile_rule (rule : (string + regex) * string)
  : result (regex * string) :=
  match rule.1 with
  | inl source => pat ← re_compile source; Ok (pat, rule.2)
  | inr pat => Ok (pat, rule.2)
  end.

(** [TextProcessor.__init__] *)
Definition TextProcessor_init (preprocessing remove_nums : bool)
    (ignore_tokens : option (list string)) : result TextProcessor :=
  let rules : list ((string + regex) * string) := [] in
  let rules :=
    if preprocessing then rules ++ map as_source preprocessing_pats_subs
    else rules in
  let rules :=
    if remove_nums then rules ++ [as_source number_pat_sub] else rules in
  rules ←
    match ignore_tokens with
    | Some (token :: tokens) =>
        pat ← re_compile (String.concat "|" (token :: tokens));
        Ok (rules ++ [(inr pat, EmptyString)])
    | _ => Ok rules
    end;
  let rules := rules ++ map as_source whitespace_pats_subs in
  compiled ← result_mapM compile_rule rules;
  Ok {| pats_subs := compiled |}.

(** [str.strip()] without argument. *)
Fixpoint lstrip (s : string) : string :=
  match s with
  | EmptyString => EmptyString
  | String c s' => if is_space c then lstrip s' else s
  end.

Fixpoint rstrip (s : string) : string :=
  match s with
  | EmptyString => EmptyString
  | String c s' =>
      match rstrip s' with
      | EmptyString => if is_space c then EmptyString else String c EmptyString
      | String d r => String c (String d r)
      end
  end.

Definition strip (s : string) : string := rstrip (lstrip s).

(** The loop of [process] over the rules. *)
Definition substitute_all (self : TextProcessor) (text : string) : string :=
  foldl (λ text rule, re_sub rule.1 rule.2 text) text (pats_subs self).

(** [TextProcessor.process] *)
Definition process (self : TextProcessor) (text : string) : string :=
  strip (substitute_all self text).

(** [TextProcessor.__call__]: one text or a list of texts. *)
Definition TextProcessor_call (self : TextProcessor)
    (texts : string + list string) : list string :=
  let texts :=
    match texts with
    | inl text => [text]
    | inr texts => texts
    end in
  map (process self) texts.

(** A text of whitespace only. *)
Fixpoint all_space (s : string) : bool :=
  match s with
  | EmptyString => true
  | String c s' => is_space c && all_space s'
  end.

Lemma lstrip_split (s : string) :
  ∃ l, all_space l = true ∧ s = l +:+ lstrip s.
Proof.
  induction s as [|c s (l & Hl & Hs)]; [by exists EmptyString|]. simpl.
  destruct (is_space c) eqn:Hc.
  - exists (String c l). simpl. rewrite Hc, Hl. split; [done|].
    by rewrite append_cons, <- Hs.
  - by exists EmptyString.
Qed.

Lemma rstrip_split (s : string) :
  ∃ r, all_space r = true ∧ s = rstrip s +:+ r.
Proof.
  induction s as [|c s (r & Hr & Hs)]; [by exists EmptyString|]. simpl.
  destruct (rstrip s) as [|d t] eqn:Ht.
  - destruct (is_space c) eqn:Hc.
    + exists (String c r). simpl. rewrite Hc, Hr. split; [done|].
      by rewrite Hs.
    + exists r. split; [done|]. rewrite Hs at 1. done.
  - exists r. split; [done|]. rewrite Hs at 1. done.
Qed.

Lemma lstrip_head (s : string) c rest :
  lstrip s = String c rest → is_space c = false.
Proof.
  induction s as [|d s IH]; simpl; [done|].
  destruct (is_space d) eqn:Hd; [done|]. by intros [= <- <-].
Qed.

Lemma rstrip_head (s : string) c :
  rstrip (String c s) = EmptyString ∨
  ∃ rest, rstrip (String c s) = String c rest.
Proof.
  simpl. destruct (rstrip s); [destruct (is_space c)|]; eauto.
Qed.

Lemma rstrip_last (s : string) : ∀ front c,
  rstrip s = front +:+ String c EmptyString → is_space c = false.
Proof.
  induction s as [|d s IH]; intros front c; simpl.
  - by destruct front.
  - destruct (rstrip s) as [|e t] eqn:Ht.
    + destruct (is_space d) eqn:Hd; [by destruct front|].
      destruct front as [|f front]; [by intros [= <-]|].
      rewrite append_cons. intros [= _ Hf]. by destruct front.
    + destruct front as [|f front].
      * rewrite append_nil_l. done.
      * rewrite append_cons. intros [= _ Hf]. by eapply IH.
Qed.

(** A text that neither starts nor ends with whitespace. *)
Definition stripped (s : string) : Prop :=
  (∀ c rest, s = String c rest → is_space c = false) ∧
  (∀ front c, s = front +:+ String c EmptyString → is_space c = false).

Lemma strip_stripped (s : string) : stripped (strip s).
Proof.
  unfold strip. split.
  - intros c rest Hs. destruct (lstrip s) as [|d t] eqn:Hl; [done|].
    apply lstrip_head in Hl.
    destruct (rstrip_head t d) as [Hr|[rest' Hr]]; rewrite Hr in Hs;
      by simplify_eq.
  - intros front c. apply rstrip_last.
Qed.

(** X22: whatever the rules substitute, the text [process] returns
    neither starts nor ends with whitespace, and it is the text after
    the substitutions with nothing but whitespace taken off at its two
    ends. *)
Theorem process_strips_ends (self : TextProcessor) (text : string) :
  stripped (process self text) ∧
  ∃ l r, all_space l = true ∧ all_space r = true ∧
         substitute_all self text = l +:+ process self text +:+ r.
Proof.
  split; [apply strip_stripped|]. unfold process, strip.
  destruct (lstrip_split (substitute_all self text)) as (l & Hl & Hs).
  destruct (rstrip_split (lstrip (substitute_all self text)))
    as (r & Hr & Hs').
  exists l, r. split_and!; [done..|]. by rewrite <- Hs', <- Hs.
Qed.

Lemma result_mapM_app {A B} (f : A → result B) l1 l2 out :
  result_mapM f (l1 ++ l2) = Ok out →
  ∃ o1 o2, result_mapM f l1 = Ok o1 ∧ result_mapM f l2 = Ok o2 ∧
           out = o1 ++ o2.
Proof.
  revert out. induction l1 as [|x l1 IH]; intros out; simpl.
  - intros Hout. by exists [], out.
  - destruct (f x) as [y|]; simpl; [|done].
    destruct (result_mapM f (l1 ++ l2)) as [ys|] eqn:Hys; simpl; [|done].
    intros [= <-]. destruct (IH ys eq_refl) as (o1 & o2 & -> & -> & ->).
    by exists (y :: o1), o2.
Qed.

Lemma result_mapM_length {A B} (f : A → result B) l out :
  result_mapM f l = Ok out → length out = length l.
Proof.
  revert out. induction l as [|x l IH]; intros out; simpl.
  - by intros [= <-].
  - destruct (f x) as [y|]; simpl; [|done].
    destruct (result_mapM f l) as [ys|]; simpl; [|done].
    intros [= <-]. simpl. by rewrite (IH ys).
Qed.

(** X23: whatever options a text processor is built with, its last
    three rules are the whitespace rules, compiled, and before them it
    has 7 rules if [preprocessing] is set, 1 if [remove_nums] is set
    and 1 if [ignore_tokens] is a non-empty list; an empty list of
    tokens counts as none. *)
Theorem whitespace_rules_come_last preprocessing remove_nums ignore_tokens tp :
  TextProcessor_init preprocessing remove_nums ignore_tokens = Ok tp →
  ∃ front last,
    pats_subs tp = front ++ last ∧
    result_mapM compile_rule (map as_source whitespace_pats_subs) = Ok last ∧
    length front
    = ((if preprocessing then 7 else 0) + (if remove_nums then 1 else 0)
       + match ignore_tokens with Some (_ :: _) => 1 | _ => 0 end)%nat.
Proof.
  unfold TextProcessor_init. intros Hinit.
  apply result_bind_Ok in Hinit as (rules & Hrules & Hinit).
  apply result_bind_Ok in Hinit as (compiled & Hc & [= <-]).
  apply result_mapM_app in Hc as (front & last & Hf & Hl & ->).
  exists front, last. split_and!; [done..|].
  rewrite (result_mapM_length _ _ _ Hf).
  destruct ignore_tokens as [[|token tokens]|]; simpl in Hrules.
  - simplify_eq. by destruct preprocessing, remove_nums.
  - apply result_bind_Ok in Hrules as (pat & _ & [= <-]).
    rewrite length_app. by destruct preprocessing, remove_nums.
  - simplify_eq. by destruct preprocessing, remove_nums.
Qed.

End TextProcessing.

(** ** Concrete runs of the further properties *)

Lemma count_words_join_witness :
  count_words ("one two" +:+ String " " "three")
  = (count_words "one two" + count_words "three")%nat.
Proof. apply (count_words_join "one two" "three" " "). reflexivity. Defined.

Lemma stored_pairs_from_input_witness :
  stored_pairs (demo_dataset false) ⊆+ demo_pairs.
Proof.
  exact (stored_pairs_from_input _ _ _ _ _ _ _ _ _ _ (demo_dataset_init false)).
Defined.

Lemma dropped_pairs_are_longest_witness :
  (count_words ("one two three four", "s4 x").1
   ≤ count_words ("a b c d e", "s5").1)%nat.
Proof.
  apply (dropped_pairs_are_longest _ _ _ _ _ _ _ _ _ _ _ _
           (demo_dataset_init false)).
  - apply (list_elem_of_lookup_2 _ 3%nat). reflexivity.
  - apply (list_elem_of_lookup_2 _ 0%nat). reflexivity.
Defined.


Lemma exhausted_after_traversal_witness :
  ∃ out ds1 w1,
    traverse (demo_dataset false) demo_seeded = Traversed out ds1 w1 ∧
    SummarizationDataset_next ds1 demo_world = Raise StopIteration.
Proof.
  destruct (traverse (demo_dataset false) demo_seeded)
    as [out ds1 w1|e|] eqn:Htrav.
  - exists out, ds1, w1. split; [reflexivity|].
    exact (exhausted_after_traversal _ _ _ _ _ demo_world Htrav).
  - assert (Hok : is_Traversed (traverse (demo_dataset false) demo_seeded)
                  = true) by reflexivity.
    rewrite Htrav in Hok. discriminate Hok.
  - assert (Hok : is_Traversed (traverse (demo_dataset false) demo_seeded)
                  = true) by reflexivity.
    rewrite Htrav in Hok. discriminate Hok.
Defined.

Lemma traversal_yields_each_batch_once_witness :
  ∃ out ds1 w1 order',
    traverse (demo_dataset true) demo_seeded = Traversed out ds1 w1 ∧
    length out = 2%nat ∧
    order' ≡ₚ initial_order (demo_dataset true) ∧
    Forall2 (encodes (demo_dataset true)) order' out.
Proof.
  destruct (traverse (demo_dataset true) demo_seeded)
    as [out ds1 w1|e|] eqn:Htrav.
  - destruct (traversal_yields_each_batch_once _ _ _ _ _ _
                (demo_tracked true) Htrav) as (Hlen & order' & Hp & Hall).
    exists out, ds1, w1, order'.
    split_and!; [reflexivity|exact Hlen|exact Hp|exact Hall].
  - assert (Hok : is_Traversed (traverse (demo_dataset true) demo_seeded)
                  = true) by reflexivity.
    rewrite Htrav in Hok. discriminate Hok.
  - assert (Hok : is_Traversed (traverse (demo_dataset true) demo_seeded)
                  = true) by reflexivity.
    rewrite Htrav in Hok. discriminate Hok.
Defined.

Lemma demo_tokenizer_gives_ids : tokenizer_gives_ids demo_encoder.
Proof. intros summaries ctx. simpl. rewrite lookup_singleton_eq. eauto. Qed.

Lemma traversal_returns_witness :
  ∃ out ds1 w1, traverse (demo_dataset true) demo_seeded = Traversed out ds1 w1.
Proof.
  exact (traversal_returns _ _ demo_seeded (demo_tracked true)
                           demo_tokenizer_gives_ids).
Defined.

Lemma unshuffled_traversal_in_construction_order_witness :
  ∃ out',
    Forall2 (encodes (demo_dataset false)) (initial_order (demo_dataset false))
            out' ∧
    length out' = 2%nat.
Proof.
  eexists. split.
  - eapply (unshuffled_traversal_in_construction_order demo_pairs demo_encoder
              2 3 true (Some 1) demo_world (demo_dataset false) demo_seeded
              demo_ops demo_seeded _ _ _ demo_world).
    + reflexivity.
    + run.
    + run.
  - reflexivity.
Defined.

Lemma cache_encodes_each_batch_once_witness :
  ∃ out ds w2,
    run_ops demo_ops (demo_dataset true) demo_seeded [] = Ok (out, ds, w2) ∧
    (encoder_calls w2 ≤ encoder_calls demo_seeded + 2)%nat.
Proof.
  destruct (run_ops demo_ops (demo_dataset true) demo_seeded [])
    as [[[out ds] w2]|e] eqn:Hrun.
  - exists out, ds, w2. split; [reflexivity|].
    destruct (cache_encodes_each_batch_once _ _ _ _ _ _ _ _ _ _ _ _ _ _
                (demo_dataset_init true) Hrun) as (cache & _ & _ & Hle).
    exact Hle.
  - assert (Hok : is_Ok (run_ops demo_ops (demo_dataset true) demo_seeded [])
                  = true) by reflexivity.
    rewrite Hrun in Hok. discriminate Hok.
Defined.

(** The dataset built from [demo_pairs] without a cache. *)
Definition demo_uncached : SummarizationDataset :=
  {| num_batches := 2;
     text_batches :=
       [Obj [("one", "s1"); ("one two", "s2")];
        Obj [("one two three", "s3"); ("one two three four", "s4 x")]];
     cached := None;
     encoder := demo_encoder; batch_size := 2; context_size := 3;
     shuffle := false; seed := Some 1; it := None |}.

Lemma demo_uncached_init :
  SummarizationDataset_init demo_pairs demo_encoder 2 3 false false (Some 1)
                            demo_world
  = Ok (demo_uncached, demo_seeded).
Proof. reflexivity. Qed.

Lemma uncached_traversal_encodes_all_witness :
  ∃ out ds1 w1,
    traverse demo_uncached demo_seeded = Traversed out ds1 w1 ∧
    calls w1
    = [EncoderCall ["one"; "one two"]; TokenizerCall ["s1"; "s2"] 3;
       EncoderCall ["one two three"; "one two three four"];
       TokenizerCall ["s3"; "s4 x"] 3].
Proof.
  destruct (traverse demo_uncached demo_seeded) as [out ds1 w1|e|] eqn:Htrav.
  - exists out, ds1, w1. split; [reflexivity|].
    destruct (uncached_traversal_encodes_all _ _ _ _ _ _
                (tracked_init _ _ _ _ _ _ _ _ _ _ demo_uncached_init)
                eq_refl Htrav) as (order' & _ & Ho & Hcalls).
    rewrite Hcalls, (Ho eq_refl). reflexivity.
  - assert (Hok : is_Traversed (traverse demo_uncached demo_seeded) = true)
      by reflexivity.
    rewrite Htrav in Hok. discriminate Hok.
  - assert (Hok : is_Traversed (traverse demo_uncached demo_seeded) = true)
      by reflexivity.
    rewrite Htrav in Hok. discriminate Hok.
Defined.

(** The cached dataset after the first step of a traversal. *)
Definition stepped (r : result (gmap string tensor * SummarizationDataset
                                * world)) : SummarizationDataset :=
  match r with
  | Ok (_, ds, _) => ds
  | Raise _ => demo_started
  end.

Definition demo_stepped : SummarizationDataset :=
  stepped (SummarizationDataset_next demo_started demo_seeded).

Lemma demo_stepped_tracked :
  tracked (initial_order (demo_dataset false)) demo_stepped.
Proof.
  unfold demo_stepped.
  destruct (SummarizationDataset_next demo_started demo_seeded)
    as [[[be ds] w]|e] eqn:Hnext.
  - simpl. eapply tracked_next; [exact demo_started_tracked|exact Hnext].
  - exact demo_started_tracked.
Qed.

Lemma raw_batch_dropped_iff_cached_witness :
  ∃ cache,
    cached demo_stepped = Some cache ∧
    text_batches demo_stepped !! 0%nat = Some Int0 ∧
    (text_batches demo_stepped !! 0%nat = Some Int0
     ↔ ∃ be, cache !! 0%nat = Some (Obj be)).
Proof.
  pose proof (raw_batch_dropped_iff_cached _ _ demo_stepped_tracked) as Hm.
  destruct (cached demo_stepped) as [cache|] eqn:Hc.
  - exists cache. split_and!; [reflexivity|reflexivity|].
    apply Hm. change (num_batches demo_stepped) with 2%nat. lia.
  - assert (Hok : is_Some (cached demo_stepped)) by (eexists; reflexivity).
    rewrite Hc in Hok. destruct Hok as [? Hok]. discriminate Hok.
Defined.

Lemma generate_summaries_times_nonnegative_witness :
  Forall (λ t, 0 <= t)%Q (generate_summaries demo_evaluator demo_world).1.1.
Proof.
  apply generate_summaries_times_nonnegative.
  intros n. simpl. rewrite <- Zle_Qle. lia.
Defined.

Lemma get_bertscore_twice_witness :
  let '(_, ev1, w1) := get_bertscore demo_evaluator demo_world in
  let '(r2, ev2, w2) := get_bertscore ev1 w1 in
  w2 = w1 ∧
  length (generated_summaries ev2) = 4%nat ∧
  length (summaries ev2) = 8%nat ∧
  r2 = (metrics ← bert_scorer ev1 (generated_summaries ev2) (summaries ev2);
        result_mapM (row_means 2) metrics).
Proof.
  apply (get_bertscore_twice demo_evaluator demo_world).
  - reflexivity.
  - simpl. lia.
  - simpl. lia.
  - reflexivity.
  - repeat constructor.
Defined.

Lemma reshape_rows_by_pipeline_witness :
  ∃ rows,
    reshape_rows 2 [1; 2; 3; 4]%Q = Ok rows ∧
    rows !! 1%nat = Some [3; 4]%Q.
Proof.
  destruct (reshape_rows 2 [1; 2; 3; 4]%Q) as [rows|e] eqn:Hm.
  - exists rows. split; [reflexivity|].
    destruct (reshape_rows_by_pipeline 2 [1; 2; 3; 4]%Q rows 1 Hm ltac:(lia))
      as (_ & _ & Hk & _).
    exact Hk.
  - assert (Hok : is_Ok (reshape_rows 2 [1; 2; 3; 4]%Q) = true)
      by reflexivity.
    rewrite Hm in Hok. discriminate Hok.
Defined.

(** An encoder whose tokenizer gives no field at all. *)
Definition mute_encoder : Encoder :=
  {| tokenizer := {| pad_token_id := 0; tokenizer_call := λ _ _, ∅ |};
     preprocessor := None;
     generate_encodings := λ _, ∅ |}.

Definition mute_dataset : SummarizationDataset :=
  {| num_batches := 2;
     text_batches :=
       [Obj [("one", "s1"); ("one two", "s2")];
        Obj [("one two three", "s3"); ("one two three four", "s4 x")]];
     cached := None;
     encoder := mute_encoder; batch_size := 2; context_size := 3;
     shuffle := false; seed := Some 1; it := None |}.

(** A trainer that never raises. *)
Definition steady_trainer : @Trainer nat :=
  {| model_to := Ok; model_train := Ok;
     inputs_to := λ _ inputs, Ok inputs;
     forward_loss := λ t _, Ok (inject_Z (Z.of_nat t), S t);
     zero_grad := Ok; backward := Ok; optimizer_step := Ok;
     scheduler_step := Some (λ t _, Ok t) |}.

Lemma dataset_exception_propagates_witness :
  train_model demo_show_float demo_show_round steady_trainer 0%nat
              mute_dataset 3 4 demo_seeded
  = Raised (KeyError "input_ids").
Proof.
  eapply (dataset_exception_propagates demo_show_float demo_show_round
            steady_trainer 3 4 0%nat mute_dataset demo_seeded)
    with (k := 0%nat) (j := 0%nat).
  - reflexivity.
  - reflexivity.
  - lia.
  - reflexivity.
  - run.
  - reflexivity.
  - run.
  - reflexivity.
Defined.

Definition demo_empty : SummarizationDataset :=
  {| num_batches := 0; text_batches := []; cached := Some [];
     encoder := demo_encoder; batch_size := 2; context_size := 3;
     shuffle := true; seed := Some 1; it := None |}.

Lemma demo_empty_init :
  SummarizationDataset_init [("only", "one")] demo_encoder 2 3 true true
                            (Some 1) demo_world
  = Ok (demo_empty, demo_seeded).
Proof. reflexivity. Qed.

Lemma empty_dataset_division_by_zero_witness :
  train_model demo_show_float demo_show_round steady_trainer 0%nat
              demo_empty 3 4 demo_seeded
  = Raised (PyExc "ZeroDivisionError" "division by zero" true).
Proof.
  eapply (empty_dataset_division_by_zero demo_show_float demo_show_round
            steady_trainer 3 4 _ 0%nat demo_empty demo_seeded).
  - exact (tracked_init _ _ _ _ _ _ _ _ _ _ demo_empty_init).
  - reflexivity.
  - lia.
  - reflexivity.
  - reflexivity.
Defined.

Lemma steady_trainer_never_raises : trainer_never_raises steady_trainer.
Proof. unfold trainer_never_raises. simpl. split_and!; eauto. Qed.

Lemma train_model_completes_witness :
  ∃ losses w',
    train_model demo_show_float demo_show_round steady_trainer 0%nat
                (demo_dataset true) 3 4 demo_seeded
    = Returned losses w' ∧
    length losses = Z.to_nat 3.
Proof.
  apply (train_model_completes demo_show_float demo_show_round steady_trainer
           3 4 (initial_order (demo_dataset true)) 0%nat (demo_dataset true)
           demo_seeded).
  - exact steady_trainer_never_raises.
  - intros t. by exists t.
  - intros t. by exists t.
  - exact (demo_tracked true).
  - exact demo_tokenizer_gives_ids.
  - simpl. lia.
Defined.

(** A stand-in for compiled patterns: the source itself. *)
Lemma whitespace_rules_come_last_witness :
  ∃ tp front last,
    TextProcessor_init string Ok true true (Some ["<pad>"; "<s>"]) = Ok tp ∧
    pats_subs string tp = front ++ last ∧
    length last = 3%nat ∧ length front = 9%nat.
Proof.
  destruct (TextProcessor_init string Ok true true (Some ["<pad>"; "<s>"]))
    as [tp|e] eqn:Hinit.
  - destruct (whitespace_rules_come_last string Ok _ _ _ _ Hinit)
      as (front & last & Hsplit & Hlast & Hlen).
    exists tp, front, last. split_and!; [reflexivity|exact Hsplit| |exact Hlen].
    injection Hlast as <-. reflexivity.
  - assert (Hok : is_Ok (TextProcessor_init string Ok true true
                           (Some ["<pad>"; "<s>"])) = true) by reflexivity.
    rewrite Hinit in Hok. discriminate Hok.
Defined.

Example strip_example :
  strip (String " " (String (ascii_of_nat 9) "a  b ")) = "a  b".
Proof. reflexivity. Qed.
